(** * VoiceTyping: recording / transcription orchestration of [App]

    A shallow embedding of the React component [App] (the orchestration
    core of the application): the cursor-aware text merge, the history
    store, the per-provider credential and model registry, the provider
    adapters and the trigger coordinator reached from the record button
    and from the global hotkey.

    Conventions of the embedding.
    - A JavaScript string is the list of its UTF-16 code units; [length]
      is [String.prototype.length].
    - A JavaScript number that the code uses as an index or a time stamp
      is an integer of [Z].
    - React state, refs and the outside world (recorders, pending
      promises, local storage, issued network requests) are fields of one
      record [App]; a handler is a function [App -> App].
    - A value that a handler closes over at render time is passed to the
      handler explicitly as a [Snapshot]; a value read through a ref is
      read from the [App] record at the time the handler runs.
    - An [await] on the outside world is a point where the handler is
      split: the part after the [await] receives the settled value as an
      argument. *)

From Stdlib Require Import ZArith List Bool String Ascii Lia.
Import ListNotations.
Open Scope Z_scope.

(* ================================================================== *)
(** * Part I. Definitions                                              *)
(* ================================================================== *)

(** ** JavaScript strings *)

Definition jsstring := list N.

(** A literal of the source; every literal that is modelled through [js]
    is plain ASCII, so one byte is one code unit. *)
Definition js (s : string) : jsstring :=
  map N_of_ascii (list_ascii_of_string s).

Definition jslength (s : jsstring) : Z := Z.of_nat (List.length s).

(** Truthiness of a string: only the empty string is falsy. *)
Definition truthy (s : jsstring) : bool :=
  match s with [] => false | _ :: _ => true end.

Fixpoint str_eqb (a b : jsstring) : bool :=
  match a, b with
  | [], [] => true
  | x :: a', y :: b' => N.eqb x y && str_eqb a' b'
  | _, _ => false
  end.

(** [s.startsWith(p)] *)
Fixpoint startsWith (s p : jsstring) : bool :=
  match p, s with
  | [], _ => true
  | y :: p', x :: s' => N.eqb x y && startsWith s' p'
  | _ :: _, [] => false
  end.

(** [s.includes(p)] *)
Fixpoint includes (s p : jsstring) : bool :=
  startsWith s p ||
  match s with
  | [] => false
  | _ :: s' => includes s' p
  end.

(** [s.slice(start, end)], for strings and arrays alike, with the index normalisation of the language:
    a negative index counts from the end, every index is clamped to
    [0 .. length]. *)
Definition clamp_index (len i : Z) : Z :=
  if i <? 0 then Z.max (len + i) 0 else Z.min i len.

Definition slice {A : Type} (s : list A) (start stop : Z) : list A :=
  let len := Z.of_nat (List.length s) in
  let from := clamp_index len start in
  let to := clamp_index len stop in
  firstn (Z.to_nat (Z.max (to - from) 0)) (skipn (Z.to_nat from) s).

(** [s.slice(start)] *)
Definition slice_from {A : Type} (s : list A) (start : Z) : list A :=
  slice s start (Z.of_nat (List.length s)).

(** [s.replace(p, r)] with a string pattern: only the first occurrence
    is replaced. *)
Fixpoint replace_first (s p r : jsstring) : jsstring :=
  if startsWith s p then r ++ skipn (List.length p) s
  else match s with
       | [] => []
       | c :: s' => c :: replace_first s' p r
       end.

(** [a || b] on strings: the first operand unless it is absent or empty. *)
Definition or_else (a : option jsstring) (b : jsstring) : jsstring :=
  match a with
  | Some x => if truthy x then x else b
  | None => b
  end.

Notation "x |> f" := (f x) (at level 45, left associativity, only parsing).

(** The class [\s] of a regular expression (white space and line
    terminators of the language); [String.prototype.trim] strips the
    same code units. *)
Definition is_space (c : N) : bool :=
  match c with
  | 9%N | 10%N | 11%N | 12%N | 13%N | 32%N | 160%N
  | 5760%N | 8232%N | 8233%N | 8239%N | 8287%N | 12288%N | 65279%N => true
  | _ => (8192 <=? c)%N && (c <=? 8202)%N
  end.

(** [/[\s\n]$/.test(s)]: without the [m] flag [$] is the end of the
    input, so the test looks at the last code unit only. *)
Fixpoint ends_with_space (s : jsstring) : bool :=
  match s with
  | [] => false
  | [c] => is_space c
  | _ :: s' => ends_with_space s'
  end.

Fixpoint trimStart (s : jsstring) : jsstring :=
  match s with
  | [] => []
  | c :: s' => if is_space c then trimStart s' else s
  end.

Definition trimEnd (s : jsstring) : jsstring :=
  rev (trimStart (rev s)).

Definition trim (s : jsstring) : jsstring :=
  trimEnd (trimStart s).

(** ** Data model *)

Inductive STTProvider := gemini | openai | mistral.

Inductive ApiKeyStatus := idle | validating | valid | invalid.

Record STTModel := { m_id : jsstring; m_name : jsstring }.

Record ProviderConfig := {
  apiKey : jsstring;
  apiKeyStatus : ApiKeyStatus;
  selectedModel : jsstring;
  availableModels : list STTModel;
  isLoadingModels : bool
}.

(** [HistoryItem.id] is [Date.now().toString()]; the model keeps the
    number whose decimal rendering the identifier is. *)
Record HistoryItem := { h_id : Z; h_text : jsstring; h_timestamp : Z }.

(** [Record<STTProvider, ProviderConfig>] *)
Record Configs := {
  cfg_gemini : ProviderConfig;
  cfg_openai : ProviderConfig;
  cfg_mistral : ProviderConfig
}.

Definition config_of (cs : Configs) (p : STTProvider) : ProviderConfig :=
  match p with
  | gemini => cfg_gemini cs
  | openai => cfg_openai cs
  | mistral => cfg_mistral cs
  end.

Definition with_config (cs : Configs) (p : STTProvider) (c : ProviderConfig)
  : Configs :=
  match p with
  | gemini => {| cfg_gemini := c; cfg_openai := cfg_openai cs; cfg_mistral := cfg_mistral cs |}
  | openai => {| cfg_gemini := cfg_gemini cs; cfg_openai := c; cfg_mistral := cfg_mistral cs |}
  | mistral => {| cfg_gemini := cfg_gemini cs; cfg_openai := cfg_openai cs; cfg_mistral := c |}
  end.

Definition model (i n : string) : STTModel :=
  {| m_id := js i; m_name := js n |}.

Definition DEFAULT_MODELS (p : STTProvider) : list STTModel :=
  match p with
  | gemini => [ model "gemini-2.0-flash" "Gemini 2.0 Flash";
                model "gemini-2.5-flash" "Gemini 2.5 Flash" ]
  | openai => [ model "whisper-1" "Whisper";
                model "gpt-4o-transcribe" "GPT-4o Transcribe";
                model "gpt-4o-mini-transcribe" "GPT-4o Mini Transcribe" ]
  | mistral => [ model "voxtral-mini-latest" "Voxtral Mini (3B)";
                 model "voxtral-small-latest" "Voxtral Small (24B)" ]
  end.

(** [DEFAULT_MODELS[provider][0].id] *)
Definition first_model_id (ms : list STTModel) : jsstring :=
  match ms with
  | m :: _ => m_id m
  | [] => []
  end.

(** [getDefaultConfig(provider)]; [oldApiKey] is the legacy entry
    [google_api_key] of the local store, consulted for Gemini only. *)
Definition getDefaultConfig (oldGoogleKey : option jsstring) (p : STTProvider)
  : ProviderConfig :=
  let oldApiKey :=
    match p with
    | gemini => or_else oldGoogleKey []
    | _ => []
    end in
  {| apiKey := oldApiKey;
     apiKeyStatus := if truthy oldApiKey then idle else idle;
     selectedModel := first_model_id (DEFAULT_MODELS p);
     availableModels := DEFAULT_MODELS p;
     isLoadingModels := false |}.

(** [Partial<ProviderConfig>] *)
Record ConfigUpdate := {
  u_apiKey : option jsstring;
  u_apiKeyStatus : option ApiKeyStatus;
  u_selectedModel : option jsstring;
  u_availableModels : option (list STTModel);
  u_isLoadingModels : option bool
}.

Definition upd_apiKey (k : jsstring) : ConfigUpdate :=
  {| u_apiKey := Some k; u_apiKeyStatus := None; u_selectedModel := None;
     u_availableModels := None; u_isLoadingModels := None |}.

Definition upd_status (st : ApiKeyStatus) : ConfigUpdate :=
  {| u_apiKey := None; u_apiKeyStatus := Some st; u_selectedModel := None;
     u_availableModels := None; u_isLoadingModels := None |}.

Definition upd_selectedModel (i : jsstring) : ConfigUpdate :=
  {| u_apiKey := None; u_apiKeyStatus := None; u_selectedModel := Some i;
     u_availableModels := None; u_isLoadingModels := None |}.

Definition upd_loading (b : bool) : ConfigUpdate :=
  {| u_apiKey := None; u_apiKeyStatus := None; u_selectedModel := None;
     u_availableModels := None; u_isLoadingModels := Some b |}.

(** [{ availableModels: models, isLoadingModels: false, apiKeyStatus: "valid" }] *)
Definition upd_fetched (ms : list STTModel) : ConfigUpdate :=
  {| u_apiKey := None; u_apiKeyStatus := Some valid; u_selectedModel := None;
     u_availableModels := Some ms; u_isLoadingModels := Some false |}.

Definition pick {A : Type} (o : option A) (d : A) : A :=
  match o with Some x => x | None => d end.

(** [{ ...config, ...updates }] *)
Definition spread (c : ProviderConfig) (u : ConfigUpdate) : ProviderConfig :=
  {| apiKey := pick (u_apiKey u) (apiKey c);
     apiKeyStatus := pick (u_apiKeyStatus u) (apiKeyStatus c);
     selectedModel := pick (u_selectedModel u) (selectedModel c);
     availableModels := pick (u_availableModels u) (availableModels c);
     isLoadingModels := pick (u_isLoadingModels u) (isLoadingModels c) |}.

(** What a handler closes over when the component renders. *)
Record Snapshot := {
  c_isRecording : bool;
  c_isTranscribing : bool;
  c_transcribedText : jsstring;
  c_selectedProvider : STTProvider;
  c_providerConfigs : Configs;
  c_historyEnabled : bool;
  c_historyLimit : Z
}.

(** [const currentConfig = providerConfigs[selectedProvider]] and
    [const apiKey = currentConfig.apiKey] of the same render. *)
Definition c_currentConfig (c : Snapshot) : ProviderConfig :=
  config_of (c_providerConfigs c) (c_selectedProvider c).

Definition c_apiKey (c : Snapshot) : jsstring := apiKey (c_currentConfig c).

(** The [onstop] handler installed on a recorder: the button path
    installs a closure over [transcribeAudio] of the render whose
    [startRecording] ran, the hotkey path one over
    [transcribeAudioFromHotkey], which reads refs. *)
Inductive OnStop :=
| onstop_transcribeAudio (c : Snapshot)
| onstop_transcribeAudioFromHotkey.

(** A capture session: a microphone stream with the recorder on it.  It
    is live from [mediaRecorder.start()] until [stop()], whose [onstop]
    stops the tracks of the stream. *)
Record MediaRecorder := { onstop : OnStop; recording : bool }.

(** A handler suspended at [await navigator.mediaDevices.getUserMedia]. *)
Inductive MicWaiter :=
| mic_startRecording (c : Snapshot)
| mic_hotkey (currentTranscribedText : jsstring).

(** A handler suspended at [await transcribeWithProvider(...)]. *)
Inductive TxWaiter :=
| tx_transcribeAudio (c : Snapshot)
| tx_transcribeAudioFromHotkey (currentApiKey : jsstring)
    (provider : STTProvider) (config : ProviderConfig).

(** Requests sent to a provider. *)
Inductive Request :=
| GetModels (p : STTProvider) (key : jsstring)
| PostTranscription (p : STTProvider) (modelId key : jsstring).

(** The two entries of the local store that the modelled code writes,
    each holding the value last serialised under its key. *)
Record Storage := {
  stored_provider_configs : option Configs;
  stored_transcript_history : option (list HistoryItem)
}.

(** ** The component: React state, refs and the world around it *)

Record App := {
  (* React state *)
  isRecording : bool;
  isTranscribing : bool;
  transcribedText : jsstring;
  selectedProvider : STTProvider;
  providerConfigs : Configs;
  historyEnabled : bool;
  historyLimit : Z;
  history : list HistoryItem;
  (* refs; [mediaRecorderRef] holds the index of a recorder in [recorders],
     [textareaRef] the [selectionStart] of the text area when it is mounted *)
  mediaRecorderRef : option nat;
  chunksRef : list nat;
  textareaRef : option Z;
  cursorPositionRef : Z;
  (* refs that mirror state for the hotkey callback *)
  isRecordingRef : bool;
  apiKeyRef : jsstring;
  isTranscribingRef : bool;
  transcribedTextRef : jsstring;
  selectedProviderRef : STTProvider;
  currentConfigRef : ProviderConfig;
  lastHotkeyTimeRef : Z;
  (* the render closed over by the memoised [startRecording] *)
  startRecordingMemo : Snapshot;
  (* the world outside the component *)
  recorders : list MediaRecorder;
  pendingMicrophone : list MicWaiter;
  pendingTranscription : list TxWaiter;
  requests : list Request;
  localStorage : Storage;
  windowShown : bool
}.

(** Field updates ([setX(v)] of React, [ref.current = v]). *)

Definition set_isRecording (v : bool) (s : App) : App :=
  {| isRecording := v; isTranscribing := isTranscribing s;
     transcribedText := transcribedText s;
     selectedProvider := selectedProvider s;
     providerConfigs := providerConfigs s;
     historyEnabled := historyEnabled s; historyLimit := historyLimit s;
     history := history s; mediaRecorderRef := mediaRecorderRef s;
     chunksRef := chunksRef s; textareaRef := textareaRef s;
     cursorPositionRef := cursorPositionRef s;
     isRecordingRef := isRecordingRef s; apiKeyRef := apiKeyRef s;
     isTranscribingRef := isTranscribingRef s;
     transcribedTextRef := transcribedTextRef s;
     selectedProviderRef := selectedProviderRef s;
     currentConfigRef := currentConfigRef s;
     lastHotkeyTimeRef := lastHotkeyTimeRef s;
     startRecordingMemo := startRecordingMemo s; recorders := recorders s;
     pendingMicrophone := pendingMicrophone s;
     pendingTranscription := pendingTranscription s; requests := requests s;
     localStorage := localStorage s; windowShown := windowShown s |}.

Definition set_isTranscribing (v : bool) (s : App) : App :=
  {| isRecording := isRecording s; isTranscribing := v;
     transcribedText := transcribedText s;
     selectedProvider := selectedProvider s;
     providerConfigs := providerConfigs s;
     historyEnabled := historyEnabled s; historyLimit := historyLimit s;
     history := history s; mediaRecorderRef := mediaRecorderRef s;
     chunksRef := chunksRef s; textareaRef := textareaRef s;
     cursorPositionRef := cursorPositionRef s;
     isRecordingRef := isRecordingRef s; apiKeyRef := apiKeyRef s;
     isTranscribingRef := isTranscribingRef s;
     transcribedTextRef := transcribedTextRef s;
     selectedProviderRef := selectedProviderRef s;
     currentConfigRef := currentConfigRef s;
     lastHotkeyTimeRef := lastHotkeyTimeRef s;
     startRecordingMemo := startRecordingMemo s; recorders := recorders s;
     pendingMicrophone := pendingMicrophone s;
     pendingTranscription := pendingTranscription s; requests := requests s;
     localStorage := localStorage s; windowShown := windowShown s |}.

Definition set_transcribedText (v : jsstring) (s : App) : App :=
  {| isRecording := isRecording s; isTranscribing := isTranscribing s;
     transcribedText := v; selectedProvider := selectedProvider s;
     providerConfigs := providerConfigs s;
     historyEnabled := historyEnabled s; historyLimit := historyLimit s;
     history := history s; mediaRecorderRef := mediaRecorderRef s;
     chunksRef := chunksRef s; textareaRef := textareaRef s;
     cursorPositionRef := cursorPositionRef s;
     isRecordingRef := isRecordingRef s; apiKeyRef := apiKeyRef s;
     isTranscribingRef := isTranscribingRef s;
     transcribedTextRef := transcribedTextRef s;
     selectedProviderRef := selectedProviderRef s;
     currentConfigRef := currentConfigRef s;
     lastHotkeyTimeRef := lastHotkeyTimeRef s;
     startRecordingMemo := startRecordingMemo s; recorders := recorders s;
     pendingMicrophone := pendingMicrophone s;
     pendingTranscription := pendingTranscription s; requests := requests s;
     localStorage := localStorage s; windowShown := windowShown s |}.

Definition set_selectedProvider (v : STTProvider) (s : App) : App :=
  {| isRecording := isRecording s; isTranscribing := isTranscribing s;
     transcribedText := transcribedText s; selectedProvider := v;
     providerConfigs := providerConfigs s;
     historyEnabled := historyEnabled s; historyLimit := historyLimit s;
     history := history s; mediaRecorderRef := mediaRecorderRef s;
     chunksRef := chunksRef s; textareaRef := textareaRef s;
     cursorPositionRef := cursorPositionRef s;
     isRecordingRef := isRecordingRef s; apiKeyRef := apiKeyRef s;
     isTranscribingRef := isTranscribingRef s;
     transcribedTextRef := transcribedTextRef s;
     selectedProviderRef := selectedProviderRef s;
     currentConfigRef := currentConfigRef s;
     lastHotkeyTimeRef := lastHotkeyTimeRef s;
     startRecordingMemo := startRecordingMemo s; recorders := recorders s;
     pendingMicrophone := pendingMicrophone s;
     pendingTranscription := pendingTranscription s; requests := requests s;
     localStorage := localStorage s; windowShown := windowShown s |}.

Definition set_providerConfigs (v : Configs) (s : App) : App :=
  {| isRecording := isRecording s; isTranscribing := isTranscribing s;
     transcribedText := transcribedText s;
     selectedProvider := selectedProvider s; providerConfigs := v;
     historyEnabled := historyEnabled s; historyLimit := historyLimit s;
     history := history s; mediaRecorderRef := mediaRecorderRef s;
     chunksRef := chunksRef s; textareaRef := textareaRef s;
     cursorPositionRef := cursorPositionRef s;
     isRecordingRef := isRecordingRef s; apiKeyRef := apiKeyRef s;
     isTranscribingRef := isTranscribingRef s;
     transcribedTextRef := transcribedTextRef s;
     selectedProviderRef := selectedProviderRef s;
     currentConfigRef := currentConfigRef s;
     lastHotkeyTimeRef := lastHotkeyTimeRef s;
     startRecordingMemo := startRecordingMemo s; recorders := recorders s;
     pendingMicrophone := pendingMicrophone s;
     pendingTranscription := pendingTranscription s; requests := requests s;
     localStorage := localStorage s; windowShown := windowShown s |}.

Definition set_history (v : list HistoryItem) (s : App) : App :=
  {| isRecording := isRecording s; isTranscribing := isTranscribing s;
     transcribedText := transcribedText s;
     selectedProvider := selectedProvider s;
     providerConfigs := providerConfigs s;
     historyEnabled := historyEnabled s; historyLimit := historyLimit s;
     history := v; mediaRecorderRef := mediaRecorderRef s;
     chunksRef := chunksRef s; textareaRef := textareaRef s;
     cursorPositionRef := cursorPositionRef s;
     isRecordingRef := isRecordingRef s; apiKeyRef := apiKeyRef s;
     isTranscribingRef := isTranscribingRef s;
     transcribedTextRef := transcribedTextRef s;
     selectedProviderRef := selectedProviderRef s;
     currentConfigRef := currentConfigRef s;
     lastHotkeyTimeRef := lastHotkeyTimeRef s;
     startRecordingMemo := startRecordingMemo s; recorders := recorders s;
     pendingMicrophone := pendingMicrophone s;
     pendingTranscription := pendingTranscription s; requests := requests s;
     localStorage := localStorage s; windowShown := windowShown s |}.

Definition set_mediaRecorderRef (v : option nat) (s : App) : App :=
  {| isRecording := isRecording s; isTranscribing := isTranscribing s;
     transcribedText := transcribedText s;
     selectedProvider := selectedProvider s;
     providerConfigs := providerConfigs s;
     historyEnabled := historyEnabled s; historyLimit := historyLimit s;
     history := history s; mediaRecorderRef := v; chunksRef := chunksRef s;
     textareaRef := textareaRef s; cursorPositionRef := cursorPositionRef s;
     isRecordingRef := isRecordingRef s; apiKeyRef := apiKeyRef s;
     isTranscribingRef := isTranscribingRef s;
     transcribedTextRef := transcribedTextRef s;
     selectedProviderRef := selectedProviderRef s;
     currentConfigRef := currentConfigRef s;
     lastHotkeyTimeRef := lastHotkeyTimeRef s;
     startRecordingMemo := startRecordingMemo s; recorders := recorders s;
     pendingMicrophone := pendingMicrophone s;
     pendingTranscription := pendingTranscription s; requests := requests s;
     localStorage := localStorage s; windowShown := windowShown s |}.

Definition set_chunksRef (v : list nat) (s : App) : App :=
  {| isRecording := isRecording s; isTranscribing := isTranscribing s;
     transcribedText := transcribedText s;
     selectedProvider := selectedProvider s;
     providerConfigs := providerConfigs s;
     historyEnabled := historyEnabled s; historyLimit := historyLimit s;
     history := history s; mediaRecorderRef := mediaRecorderRef s;
     chunksRef := v; textareaRef := textareaRef s;
     cursorPositionRef := cursorPositionRef s;
     isRecordingRef := isRecordingRef s; apiKeyRef := apiKeyRef s;
     isTranscribingRef := isTranscribingRef s;
     transcribedTextRef := transcribedTextRef s;
     selectedProviderRef := selectedProviderRef s;
     currentConfigRef := currentConfigRef s;
     lastHotkeyTimeRef := lastHotkeyTimeRef s;
     startRecordingMemo := startRecordingMemo s; recorders := recorders s;
     pendingMicrophone := pendingMicrophone s;
     pendingTranscription := pendingTranscription s; requests := requests s;
     localStorage := localStorage s; windowShown := windowShown s |}.

Definition set_textareaRef (v : option Z) (s : App) : App :=
  {| isRecording := isRecording s; isTranscribing := isTranscribing s;
     transcribedText := transcribedText s;
     selectedProvider := selectedProvider s;
     providerConfigs := providerConfigs s;
     historyEnabled := historyEnabled s; historyLimit := historyLimit s;
     history := history s; mediaRecorderRef := mediaRecorderRef s;
     chunksRef := chunksRef s; textareaRef := v;
     cursorPositionRef := cursorPositionRef s;
     isRecordingRef := isRecordingRef s; apiKeyRef := apiKeyRef s;
     isTranscribingRef := isTranscribingRef s;
     transcribedTextRef := transcribedTextRef s;
     selectedProviderRef := selectedProviderRef s;
     currentConfigRef := currentConfigRef s;
     lastHotkeyTimeRef := lastHotkeyTimeRef s;
     startRecordingMemo := startRecordingMemo s; recorders := recorders s;
     pendingMicrophone := pendingMicrophone s;
     pendingTranscription := pendingTranscription s; requests := requests s;
     localStorage := localStorage s; windowShown := windowShown s |}.

Definition set_cursorPositionRef (v : Z) (s : App) : App :=
  {| isRecording := isRecording s; isTranscribing := isTranscribing s;
     transcribedText := transcribedText s;
     selectedProvider := selectedProvider s;
     providerConfigs := providerConfigs s;
     historyEnabled := historyEnabled s; historyLimit := historyLimit s;
     history := history s; mediaRecorderRef := mediaRecorderRef s;
     chunksRef := chunksRef s; textareaRef := textareaRef s;
     cursorPositionRef := v; isRecordingRef := isRecordingRef s;
     apiKeyRef := apiKeyRef s; isTranscribingRef := isTranscribingRef s;
     transcribedTextRef := transcribedTextRef s;
     selectedProviderRef := selectedProviderRef s;
     currentConfigRef := currentConfigRef s;
     lastHotkeyTimeRef := lastHotkeyTimeRef s;
     startRecordingMemo := startRecordingMemo s; recorders := recorders s;
     pendingMicrophone := pendingMicrophone s;
     pendingTranscription := pendingTranscription s; requests := requests s;
     localStorage := localStorage s; windowShown := windowShown s |}.

Definition set_lastHotkeyTimeRef (v : Z) (s : App) : App :=
  {| isRecording := isRecording s; isTranscribing := isTranscribing s;
     transcribedText := transcribedText s;
     selectedProvider := selectedProvider s;
     providerConfigs := providerConfigs s;
     historyEnabled := historyEnabled s; historyLimit := historyLimit s;
     history := history s; mediaRecorderRef := mediaRecorderRef s;
     chunksRef := chunksRef s; textareaRef := textareaRef s;
     cursorPositionRef := cursorPositionRef s;
     isRecordingRef := isRecordingRef s; apiKeyRef := apiKeyRef s;
     isTranscribingRef := isTranscribingRef s;
     transcribedTextRef := transcribedTextRef s;
     selectedProviderRef := selectedProviderRef s;
     currentConfigRef := currentConfigRef s; lastHotkeyTimeRef := v;
     startRecordingMemo := startRecordingMemo s; recorders := recorders s;
     pendingMicrophone := pendingMicrophone s;
     pendingTranscription := pendingTranscription s; requests := requests s;
     localStorage := localStorage s; windowShown := windowShown s |}.

Definition set_startRecordingMemo (v : Snapshot) (s : App) : App :=
  {| isRecording := isRecording s; isTranscribing := isTranscribing s;
     transcribedText := transcribedText s;
     selectedProvider := selectedProvider s;
     providerConfigs := providerConfigs s;
     historyEnabled := historyEnabled s; historyLimit := historyLimit s;
     history := history s; mediaRecorderRef := mediaRecorderRef s;
     chunksRef := chunksRef s; textareaRef := textareaRef s;
     cursorPositionRef := cursorPositionRef s;
     isRecordingRef := isRecordingRef s; apiKeyRef := apiKeyRef s;
     isTranscribingRef := isTranscribingRef s;
     transcribedTextRef := transcribedTextRef s;
     selectedProviderRef := selectedProviderRef s;
     currentConfigRef := currentConfigRef s;
     lastHotkeyTimeRef := lastHotkeyTimeRef s; startRecordingMemo := v;
     recorders := recorders s; pendingMicrophone := pendingMicrophone s;
     pendingTranscription := pendingTranscription s; requests := requests s;
     localStorage := localStorage s; windowShown := windowShown s |}.

Definition set_recorders (v : list MediaRecorder) (s : App) : App :=
  {| isRecording := isRecording s; isTranscribing := isTranscribing s;
     transcribedText := transcribedText s;
     selectedProvider := selectedProvider s;
     providerConfigs := providerConfigs s;
     historyEnabled := historyEnabled s; historyLimit := historyLimit s;
     history := history s; mediaRecorderRef := mediaRecorderRef s;
     chunksRef := chunksRef s; textareaRef := textareaRef s;
     cursorPositionRef := cursorPositionRef s;
     isRecordingRef := isRecordingRef s; apiKeyRef := apiKeyRef s;
     isTranscribingRef := isTranscribingRef s;
     transcribedTextRef := transcribedTextRef s;
     selectedProviderRef := selectedProviderRef s;
     currentConfigRef := currentConfigRef s;
     lastHotkeyTimeRef := lastHotkeyTimeRef s;
     startRecordingMemo := startRecordingMemo s; recorders := v;
     pendingMicrophone := pendingMicrophone s;
     pendingTranscription := pendingTranscription s; requests := requests s;
     localStorage := localStorage s; windowShown := windowShown s |}.

Definition set_pendingMicrophone (v : list MicWaiter) (s : App) : App :=
  {| isRecording := isRecording s; isTranscribing := isTranscribing s;
     transcribedText := transcribedText s;
     selectedProvider := selectedProvider s;
     providerConfigs := providerConfigs s;
     historyEnabled := historyEnabled s; historyLimit := historyLimit s;
     history := history s; mediaRecorderRef := mediaRecorderRef s;
     chunksRef := chunksRef s; textareaRef := textareaRef s;
     cursorPositionRef := cursorPositionRef s;
     isRecordingRef := isRecordingRef s; apiKeyRef := apiKeyRef s;
     isTranscribingRef := isTranscribingRef s;
     transcribedTextRef := transcribedTextRef s;
     selectedProviderRef := selectedProviderRef s;
     currentConfigRef := currentConfigRef s;
     lastHotkeyTimeRef := lastHotkeyTimeRef s;
     startRecordingMemo := startRecordingMemo s; recorders := recorders s;
     pendingMicrophone := v; pendingTranscription := pendingTranscription s;
     requests := requests s; localStorage := localStorage s;
     windowShown := windowShown s |}.

Definition set_pendingTranscription (v : list TxWaiter) (s : App) : App :=
  {| isRecording := isRecording s; isTranscribing := isTranscribing s;
     transcribedText := transcribedText s;
     selectedProvider := selectedProvider s;
     providerConfigs := providerConfigs s;
     historyEnabled := historyEnabled s; historyLimit := historyLimit s;
     history := history s; mediaRecorderRef := mediaRecorderRef s;
     chunksRef := chunksRef s; textareaRef := textareaRef s;
     cursorPositionRef := cursorPositionRef s;
     isRecordingRef := isRecordingRef s; apiKeyRef := apiKeyRef s;
     isTranscribingRef := isTranscribingRef s;
     transcribedTextRef := transcribedTextRef s;
     selectedProviderRef := selectedProviderRef s;
     currentConfigRef := currentConfigRef s;
     lastHotkeyTimeRef := lastHotkeyTimeRef s;
     startRecordingMemo := startRecordingMemo s; recorders := recorders s;
     pendingMicrophone := pendingMicrophone s; pendingTranscription := v;
     requests := requests s; localStorage := localStorage s;
     windowShown := windowShown s |}.

Definition set_requests (v : list Request) (s : App) : App :=
  {| isRecording := isRecording s; isTranscribing := isTranscribing s;
     transcribedText := transcribedText s;
     selectedProvider := selectedProvider s;
     providerConfigs := providerConfigs s;
     historyEnabled := historyEnabled s; historyLimit := historyLimit s;
     history := history s; mediaRecorderRef := mediaRecorderRef s;
     chunksRef := chunksRef s; textareaRef := textareaRef s;
     cursorPositionRef := cursorPositionRef s;
     isRecordingRef := isRecordingRef s; apiKeyRef := apiKeyRef s;
     isTranscribingRef := isTranscribingRef s;
     transcribedTextRef := transcribedTextRef s;
     selectedProviderRef := selectedProviderRef s;
     currentConfigRef := currentConfigRef s;
     lastHotkeyTimeRef := lastHotkeyTimeRef s;
     startRecordingMemo := startRecordingMemo s; recorders := recorders s;
     pendingMicrophone := pendingMicrophone s;
     pendingTranscription := pendingTranscription s; requests := v;
     localStorage := localStorage s; windowShown := windowShown s |}.

Definition set_localStorage (v : Storage) (s : App) : App :=
  {| isRecording := isRecording s; isTranscribing := isTranscribing s;
     transcribedText := transcribedText s;
     selectedProvider := selectedProvider s;
     providerConfigs := providerConfigs s;
     historyEnabled := historyEnabled s; historyLimit := historyLimit s;
     history := history s; mediaRecorderRef := mediaRecorderRef s;
     chunksRef := chunksRef s; textareaRef := textareaRef s;
     cursorPositionRef := cursorPositionRef s;
     isRecordingRef := isRecordingRef s; apiKeyRef := apiKeyRef s;
     isTranscribingRef := isTranscribingRef s;
     transcribedTextRef := transcribedTextRef s;
     selectedProviderRef := selectedProviderRef s;
     currentConfigRef := currentConfigRef s;
     lastHotkeyTimeRef := lastHotkeyTimeRef s;
     startRecordingMemo := startRecordingMemo s; recorders := recorders s;
     pendingMicrophone := pendingMicrophone s;
     pendingTranscription := pendingTranscription s; requests := requests s;
     localStorage := v; windowShown := windowShown s |}.

Definition set_windowShown (v : bool) (s : App) : App :=
  {| isRecording := isRecording s; isTranscribing := isTranscribing s;
     transcribedText := transcribedText s;
     selectedProvider := selectedProvider s;
     providerConfigs := providerConfigs s;
     historyEnabled := historyEnabled s; historyLimit := historyLimit s;
     history := history s; mediaRecorderRef := mediaRecorderRef s;
     chunksRef := chunksRef s; textareaRef := textareaRef s;
     cursorPositionRef := cursorPositionRef s;
     isRecordingRef := isRecordingRef s; apiKeyRef := apiKeyRef s;
     isTranscribingRef := isTranscribingRef s;
     transcribedTextRef := transcribedTextRef s;
     selectedProviderRef := selectedProviderRef s;
     currentConfigRef := currentConfigRef s;
     lastHotkeyTimeRef := lastHotkeyTimeRef s;
     startRecordingMemo := startRecordingMemo s; recorders := recorders s;
     pendingMicrophone := pendingMicrophone s;
     pendingTranscription := pendingTranscription s; requests := requests s;
     localStorage := localStorage s; windowShown := v |}.

(** What a render of the component in state [s] hands to its handlers. *)
Definition snapshot (s : App) : Snapshot :=
  {| c_isRecording := isRecording s;
     c_isTranscribing := isTranscribing s;
     c_transcribedText := transcribedText s;
     c_selectedProvider := selectedProvider s;
     c_providerConfigs := providerConfigs s;
     c_historyEnabled := historyEnabled s;
     c_historyLimit := historyLimit s |}.

(** The six effects "keep refs in sync with state". *)
Definition syncRefs (s : App) : App :=
  {| isRecording := isRecording s; isTranscribing := isTranscribing s;
     transcribedText := transcribedText s;
     selectedProvider := selectedProvider s;
     providerConfigs := providerConfigs s;
     historyEnabled := historyEnabled s; historyLimit := historyLimit s;
     history := history s; mediaRecorderRef := mediaRecorderRef s;
     chunksRef := chunksRef s; textareaRef := textareaRef s;
     cursorPositionRef := cursorPositionRef s;
     isRecordingRef := isRecording s;
     apiKeyRef := c_apiKey (snapshot s);
     isTranscribingRef := isTranscribing s;
     transcribedTextRef := transcribedText s;
     selectedProviderRef := selectedProvider s;
     currentConfigRef := c_currentConfig (snapshot s);
     lastHotkeyTimeRef := lastHotkeyTimeRef s;
     startRecordingMemo := startRecordingMemo s;
     recorders := recorders s; pendingMicrophone := pendingMicrophone s;
     pendingTranscription := pendingTranscription s;
     requests := requests s; localStorage := localStorage s;
     windowShown := windowShown s |}.

(** [useCallback(..., [apiKey, transcribedText])]: [startRecording] is
    re-created by a render only when one of its two dependencies
    changed; otherwise the closure of the earlier render is kept. *)
Definition refreshStartRecording (s : App) : App :=
  let old := startRecordingMemo s in
  if str_eqb (c_apiKey old) (c_apiKey (snapshot s))
     && str_eqb (c_transcribedText old) (transcribedText s)
  then s
  else set_startRecordingMemo (snapshot s) s.

(** A render followed by its effects. *)
Definition commit (s : App) : App :=
  s |> refreshStartRecording |> syncRefs.

(** ** Fixed texts *)

Definition MSG_NO_API_KEY : jsstring :=
  js "Bitte API Key in den Settings hinterlegen".

Definition MSG_MICROPHONE_DENIED : jsstring :=
  js "Mikrofon-Zugriff verweigert. Bitte Berechtigung erteilen.".

Definition NO_SPEECH_SENTINEL : jsstring := js "[KEINE SPRACHE ERKANNT]".

Definition MSG_NO_SPEECH : jsstring :=
  js "Keine Sprache erkannt. Bitte erneut versuchen.".

(** "API Key ung" + U+00FC + "ltig" *)
Definition MSG_INVALID_KEY : jsstring :=
  js "API Key ung" ++ [252%N] ++ js "ltig".

Definition MSG_UNKNOWN_ERROR : jsstring := js "Unbekannter Fehler".

Definition COOLDOWN_MS : Z := 300.

(** ** History store *)

Definition is_status_text (text : jsstring) : bool :=
  startsWith text (js "Fehler") || startsWith text (js "Bitte")
  || startsWith text (js "API") || startsWith text (js "Keine")
  || startsWith text (js "Mikrofon") || startsWith text (js "Verbindung").

Definition store_history (h : list HistoryItem) (s : App) : App :=
  set_localStorage
    {| stored_provider_configs := stored_provider_configs (localStorage s);
       stored_transcript_history := Some h |} s.

(** [saveToHistory(text)]; [c] is the render the callback belongs to
    (its dependencies are [historyEnabled] and [historyLimit]),
    [now_id] and [now_ts] are the two readings of [Date.now()]. *)
Definition saveToHistory (c : Snapshot) (text : jsstring) (now_id now_ts : Z)
  (s : App) : App :=
  if negb (c_historyEnabled c) || negb (truthy text) || (jslength text <? 5)
  then s
  else if is_status_text text then s
  else
    let newItem := {| h_id := now_id; h_text := text; h_timestamp := now_ts |} in
    (* setHistory(prev => ...) *)
    let prev := history s in
    let duplicate :=
      match prev with
      | latest :: _ => str_eqb (h_text latest) text
      | [] => false
      end in
    if duplicate then s
    else
      let newHistory := newItem :: prev in
      let newHistory :=
        if 0 <? c_historyLimit c
        then slice newHistory 0 (c_historyLimit c) else newHistory in
      s |> store_history newHistory |> set_history newHistory.

(** ** Credential and model registry *)

(** [updateProviderConfig(provider, updates)]: a functional state update
    that also writes the new map to the local store. *)
Definition updateProviderConfig (provider : STTProvider) (updates : ConfigUpdate)
  (s : App) : App :=
  let prev := providerConfigs s in
  let newConfigs := with_config prev provider (spread (config_of prev provider) updates) in
  s |> set_localStorage
         {| stored_provider_configs := Some newConfigs;
            stored_transcript_history := stored_transcript_history (localStorage s) |}
    |> set_providerConfigs newConfigs.

Definition send (r : Request) (s : App) : App :=
  set_requests (requests s ++ [r]) s.

(** One entry of the Gemini catalogue, with the fields the code reads:
    [name], [displayName?], [supportedGenerationMethods?]. *)
Record CatalogEntry := {
  e_name : jsstring;
  e_displayName : option jsstring;
  e_supportedGenerationMethods : option (list jsstring)
}.

(** How the catalogue request of [fetchModelsForProvider] settles:
    [fetch] rejects, or it resolves with [response.ok] and a body whose
    [json()] either rejects or yields [data] with [data.models] present
    or not. *)
Inductive CatalogBody :=
| body_rejected
| body_models (models : option (list CatalogEntry)).

Inductive CatalogReply :=
| catalog_rejected
| catalog_response (ok : bool) (body : CatalogBody).

Definition is_audio_model (m : CatalogEntry) : bool :=
  match e_supportedGenerationMethods m with
  | Some methods => existsb (str_eqb (js "generateContent")) methods
  | None => false
  end
  && (includes (e_name m) (js "flash") || includes (e_name m) (js "pro")).

(** [data.models?.filter(...) || []] *)
Definition audio_models (data_models : option (list CatalogEntry))
  : list CatalogEntry :=
  match data_models with
  | Some ms => filter is_audio_model ms
  | None => []
  end.

Definition catalog_model (m : CatalogEntry) : STTModel :=
  {| m_id := replace_first (e_name m) (js "models/") [];
     m_name := or_else (e_displayName m) (replace_first (e_name m) (js "models/") []) |}.

Definition OPENAI_STATIC_MODELS : list STTModel :=
  [ model "whisper-1" "Whisper";
    model "gpt-4o-transcribe" "GPT-4o Transcribe";
    model "gpt-4o-mini-transcribe" "GPT-4o Mini Transcribe";
    model "gpt-4o-transcribe-diarize" "GPT-4o Diarize (Speaker)" ].

Definition MISTRAL_STATIC_MODELS : list STTModel :=
  [ model "voxtral-mini-latest" "Voxtral Mini (3B)";
    model "voxtral-small-latest" "Voxtral Small (24B)" ].

(** The [try] block of [fetchModelsForProvider] up to the final update:
    [Some models] when it runs through, [None] when it throws. *)
Definition listed_models (provider : STTProvider) (reply : CatalogReply)
  : option (list STTModel) :=
  let models := DEFAULT_MODELS provider in
  match provider with
  | gemini =>
      match reply with
      | catalog_rejected => None
      | catalog_response false _ => Some models
      | catalog_response true body_rejected => None
      | catalog_response true (body_models data_models) =>
          let audioModels := audio_models data_models in
          if 0 <? Z.of_nat (List.length audioModels)
          then Some (map catalog_model audioModels)
          else Some models
      end
  | openai => Some OPENAI_STATIC_MODELS
  | mistral => Some MISTRAL_STATIC_MODELS
  end.

(** [fetchModelsForProvider(provider)]; [configs] is the
    [providerConfigs] of the render the callback closes over. *)
Definition fetchModelsForProvider (configs : Configs) (provider : STTProvider)
  (reply : CatalogReply) (s : App) : App :=
  let config := config_of configs provider in
  if negb (truthy (apiKey config)) || (jslength (apiKey config) <? 10) then s
  else
    let s := updateProviderConfig provider (upd_loading true) s in
    let s :=
      match provider with
      | gemini => send (GetModels gemini (apiKey config)) s
      | _ => s
      end in
    match listed_models provider reply with
    | Some models => updateProviderConfig provider (upd_fetched models) s
    | None => updateProviderConfig provider (upd_loading false) s
    end.

(** How the probe of [validateProviderApiKey] settles. *)
Inductive ProbeReply :=
| probe_rejected
| probe_response (ok : bool).

(** [validateProviderApiKey(provider, key)].  The call of
    [fetchModelsForProvider] is not awaited and handles its own errors;
    [configs] is what that callback closes over, [catalog] how its own
    request settles. *)
Definition validateProviderApiKey (configs : Configs) (provider : STTProvider)
  (key : jsstring) (probe : ProbeReply) (catalog : CatalogReply) (s : App) : App :=
  if negb (truthy key) || (jslength key <? 10)
  then updateProviderConfig provider (upd_status idle) s
  else
    let s := updateProviderConfig provider (upd_status validating) s in
    let s := send (GetModels provider key) s in
    match probe with
    | probe_response ok =>
        let isValid := ok in
        let s := updateProviderConfig provider
                   (upd_status (if isValid then valid else invalid)) s in
        if isValid then fetchModelsForProvider configs provider catalog s else s
    | probe_rejected => updateProviderConfig provider (upd_status invalid) s
    end.

(** The model buttons of the settings view: one per entry of the
    rendered [currentConfig.availableModels], each selecting its id for
    the rendered provider. *)
Definition selectModel (c : Snapshot) (index : nat) (s : App) : App :=
  match nth_error (availableModels (c_currentConfig c)) index with
  | Some m => updateProviderConfig (c_selectedProvider c) (upd_selectedModel (m_id m)) s
  | None => s
  end.

(** [saveProviderApiKey(provider, key)] up to the debounce timer. *)
Definition saveProviderApiKey (provider : STTProvider) (key : jsstring)
  (s : App) : App :=
  updateProviderConfig provider (upd_apiKey key) s.

(** ** Provider adapter *)

(** A thrown value: an [Error] with its message, or something else (the
    error event that [blobToBase64] rejects with). *)
Inductive Thrown :=
| error_object (message : jsstring)
| other_value.

Inductive Outcome (A : Type) :=
| returned (a : A)
| thrown (e : Thrown).
Arguments returned {A} a.
Arguments thrown {A} e.

(** The part of a transcription response that the adapters read: the
    text field of the provider's envelope
    ([data.candidates?.[0]?.content?.parts?.[0]?.text] for Gemini,
    [data.text] for the others) and [data.error] with its [message]. *)
Record TranscriptionData := {
  d_text : option jsstring;
  d_error : option (option jsstring)
}.

(** How one call of [transcribeWithProvider] meets the world: the audio
    cannot be encoded, the request or the parsing of its body rejects
    with an [Error], or a response with an HTTP status and a JSON body
    arrives. *)
Inductive ProviderReply :=
| encoding_rejected
| request_rejected (message : jsstring)
| response (status : Z) (data : TranscriptionData).

Definition provider_label (p : STTProvider) : string :=
  match p with
  | gemini => "Gemini"
  | openai => "OpenAI"
  | mistral => "Mistral"
  end.

Definition default_model_of (p : STTProvider) : jsstring :=
  match p with
  | gemini => js "gemini-2.0-flash"
  | openai => js "whisper-1"
  | mistral => js "voxtral-mini-latest"
  end.

(** The request that [transcribeWithProvider] sends. *)
Definition transcription_request (p : STTProvider) (config : ProviderConfig)
  : Request :=
  PostTranscription p (or_else (Some (selectedModel config)) (default_model_of p))
    (apiKey config).

(** [transcribeWithProvider(audioBlob, provider, config)].  The three
    branches read the response alike; none of them looks at the HTTP
    status. *)
Definition transcribeWithProvider (p : STTProvider) (config : ProviderConfig)
  (reply : ProviderReply) : Outcome jsstring :=
  match reply with
  | encoding_rejected => thrown other_value
  | request_rejected message => thrown (error_object message)
  | response _ data =>
      if truthy (pick (d_text data) [])
      then returned (pick (d_text data) [])
      else
        match d_error data with
        | Some message =>
            thrown (error_object
                      (or_else message (js (provider_label p ++ " API Error"))))
        | None =>
            thrown (error_object (js ("Keine Antwort von " ++ provider_label p)))
        end
  end.

(** ** Text merge *)

(** [textarea.setSelectionRange(p, p)] of the deferred callback, when
    the text area is mounted. *)
Definition setSelectionRange (p : Z) (s : App) : App :=
  match textareaRef s with
  | Some _ => set_textareaRef (Some p) s
  | None => s
  end.

(** [insertTextAtCursor(newText)]; [text] is the [transcribedText] of
    the render the callback belongs to. *)
Definition insertTextAtCursor (text : jsstring) (newText : jsstring) (s : App)
  : App :=
  let pos := cursorPositionRef s in
  let before := slice text 0 pos in
  let after := slice_from text pos in
  let needsSpaceBefore := (0 <? jslength before) && negb (ends_with_space before) in
  let separator := if needsSpaceBefore then js " " else js "" in
  let updatedText := before ++ separator ++ newText ++ after in
  let newCursorPos := pos + jslength separator + jslength newText in
  s |> set_transcribedText updatedText
    |> set_cursorPositionRef newCursorPos
    |> setSelectionRange newCursorPos.

(** ** Transcription runs *)

Definition is_no_speech (transcript : jsstring) : bool :=
  str_eqb transcript NO_SPEECH_SENTINEL || includes transcript NO_SPEECH_SENTINEL.

Definition error_message (e : Thrown) : jsstring :=
  match e with
  | error_object message => message
  | other_value => MSG_UNKNOWN_ERROR
  end.

Definition is_auth_message (errorMsg : jsstring) : bool :=
  includes errorMsg (js "401") || includes errorMsg (js "403")
  || includes errorMsg (js "invalid").

(** The [catch] block shared by both transcription functions. *)
Definition on_transcription_error (provider : STTProvider) (e : Thrown)
  (s : App) : App :=
  let errorMsg := error_message e in
  if is_auth_message errorMsg
  then s |> set_transcribedText MSG_INVALID_KEY
         |> updateProviderConfig provider (upd_status invalid)
  else s |> set_transcribedText (js "Fehler: " ++ errorMsg).

(** [transcribeAudio(audioBlob)] up to its [await]. *)
Definition transcribeAudio_begin (c : Snapshot) (s : App) : App :=
  if negb (truthy (c_apiKey c))
  then set_transcribedText MSG_NO_API_KEY s
  else
    s |> set_isTranscribing true
      |> set_pendingTranscription (pendingTranscription s ++ [tx_transcribeAudio c]).

(** [transcribeAudio] from the point where the provider call settles:
    the rest of [try], then [catch], then [finally]. *)
Definition transcribeAudio_settle (c : Snapshot) (reply : ProviderReply)
  (s : App) : App :=
  let s :=
    match reply with
    | encoding_rejected => s
    | _ => send (transcription_request (c_selectedProvider c) (c_currentConfig c)) s
    end in
  let s :=
    match transcribeWithProvider (c_selectedProvider c) (c_currentConfig c) reply with
    | returned transcript =>
        if is_no_speech transcript
        then
          if negb (truthy (c_transcribedText c))
          then set_transcribedText MSG_NO_SPEECH s
          else s
        else insertTextAtCursor (c_transcribedText c) (trim transcript) s
    | thrown e => on_transcription_error (c_selectedProvider c) e s
    end in
  set_isTranscribing false s.

(** [transcribeAudioFromHotkey(audioBlob)] up to its [await]: key,
    provider and configuration are read from the refs. *)
Definition transcribeAudioFromHotkey_begin (s : App) : App :=
  let currentApiKey := apiKeyRef s in
  let provider := selectedProviderRef s in
  let config := currentConfigRef s in
  if negb (truthy currentApiKey)
  then set_transcribedText MSG_NO_API_KEY s
  else
    s |> set_isTranscribing true
      |> set_pendingTranscription
           (pendingTranscription s
            ++ [tx_transcribeAudioFromHotkey currentApiKey provider config]).

(** [{ ...config, apiKey: currentApiKey }] *)
Definition with_key (config : ProviderConfig) (k : jsstring) : ProviderConfig :=
  spread config (upd_apiKey k).

(** [transcribeAudioFromHotkey] from the point where the provider call
    settles; buffer and cursor are read from the refs at that time. *)
Definition transcribeAudioFromHotkey_settle (currentApiKey : jsstring)
  (provider : STTProvider) (config : ProviderConfig) (reply : ProviderReply)
  (s : App) : App :=
  let s :=
    match reply with
    | encoding_rejected => s
    | _ => send (transcription_request provider (with_key config currentApiKey)) s
    end in
  let s :=
    match transcribeWithProvider provider (with_key config currentApiKey) reply with
    | returned transcript =>
        if is_no_speech transcript
        then
          let currentText := transcribedTextRef s in
          if negb (truthy currentText)
          then set_transcribedText MSG_NO_SPEECH s
          else s
        else
          let pos := cursorPositionRef s in
          let currentText := transcribedTextRef s in
          let before := slice currentText 0 pos in
          let after := slice_from currentText pos in
          let needsSpaceBefore :=
            (0 <? jslength before) && negb (ends_with_space before) in
          let separator := if needsSpaceBefore then js " " else js "" in
          let trimmedTranscript := trim transcript in
          let updatedText := before ++ separator ++ trimmedTranscript ++ after in
          let newCursorPos := pos + jslength separator + jslength trimmedTranscript in
          s |> set_transcribedText updatedText
            |> set_cursorPositionRef newCursorPos
            |> setSelectionRange newCursorPos
    | thrown e => on_transcription_error provider e s
    end in
  set_isTranscribing false s.

(** ** Trigger coordinator *)

(** [textareaRef.current ? textareaRef.current.selectionStart ?? n : n].
    [textareaRef] holds the position that the user or
    [setSelectionRange] gave last; where the browser puts the cursor
    when the program replaces the text is not part of the model. *)
Definition cursor_now (fallbackText : jsstring) (s : App) : Z :=
  match textareaRef s with
  | Some selectionStart => selectionStart
  | None => jslength fallbackText
  end.

Definition requestMicrophone (w : MicWaiter) (s : App) : App :=
  set_pendingMicrophone (pendingMicrophone s ++ [w]) s.

(** [startRecording()] up to [await getUserMedia]; [c] is the render
    the callback closes over. *)
Definition startRecording (c : Snapshot) (s : App) : App :=
  if negb (truthy (c_apiKey c))
  then set_transcribedText MSG_NO_API_KEY s
  else
    s |> set_cursorPositionRef (cursor_now (c_transcribedText c) s)
      |> requestMicrophone (mic_startRecording c).

(** [new MediaRecorder(stream, ...)] ... [mediaRecorder.start()]: the
    new recorder is appended to the recorders of the world and
    [mediaRecorderRef] made to point at it. *)
Definition newRecorder (h : OnStop) (s : App) : App :=
  let index := List.length (recorders s) in
  s |> set_recorders (recorders s ++ [{| onstop := h; recording := true |}])
    |> set_mediaRecorderRef (Some index)
    |> set_chunksRef [].

(** [startRecording] after [getUserMedia] resolved / rejected. *)
Definition startRecording_granted (c : Snapshot) (s : App) : App :=
  s |> newRecorder (onstop_transcribeAudio c)
    |> set_isRecording true.

Definition startRecording_denied (s : App) : App :=
  set_transcribedText MSG_MICROPHONE_DENIED s.

Fixpoint mark_stopped (rs : list MediaRecorder) (index : nat) : list MediaRecorder :=
  match rs, index with
  | [], _ => []
  | r :: rs', O => {| onstop := onstop r; recording := false |} :: rs'
  | r :: rs', S i => r :: mark_stopped rs' i
  end.

Definition run_onstop (h : OnStop) (s : App) : App :=
  match h with
  | onstop_transcribeAudio c => transcribeAudio_begin c s
  | onstop_transcribeAudioFromHotkey => transcribeAudioFromHotkey_begin s
  end.

(** [mediaRecorderRef.current.stop(); setIsRecording(false)] followed by
    the [onstop] event that [stop()] queues on a recorder that is
    recording: the tracks of its stream are stopped and its handler
    runs. *)
Definition stop_and_clear (index : nat) (s : App) : App :=
  match nth_error (recorders s) index with
  | Some r =>
      if recording r
      then s |> set_recorders (mark_stopped (recorders s) index)
             |> set_isRecording false
             |> run_onstop (onstop r)
      else set_isRecording false s
  | None => set_isRecording false s
  end.

(** [stopRecording()]; its only dependency is [isRecording]. *)
Definition stopRecording (c_isRec : bool) (s : App) : App :=
  match mediaRecorderRef s with
  | Some index => if c_isRec then stop_and_clear index s else s
  | None => s
  end.

(** The callback registered for the hotkey, up to [await getUserMedia];
    [now] is [Date.now()]. *)
Definition hotkeyCallback (now : Z) (s : App) : App :=
  if now - lastHotkeyTimeRef s <? COOLDOWN_MS then s
  else
    let s := set_lastHotkeyTimeRef now s in
    let s := set_windowShown true s in
    let currentIsRecording := isRecordingRef s in
    let currentApiKey := apiKeyRef s in
    let currentIsTranscribing := isTranscribingRef s in
    let currentTranscribedText := transcribedTextRef s in
    if currentIsRecording then
      match mediaRecorderRef s with
      | Some index => stop_and_clear index s
      | None => s
      end
    else if truthy currentApiKey && negb currentIsTranscribing then
      requestMicrophone (mic_hotkey currentTranscribedText) s
    else s.

(** The hotkey callback after [getUserMedia] resolved / rejected. *)
Definition hotkey_granted (currentTranscribedText : jsstring) (s : App) : App :=
  let s := newRecorder onstop_transcribeAudioFromHotkey s in
  s |> set_cursorPositionRef (cursor_now currentTranscribedText s)
    |> set_isRecording true.

Definition hotkey_denied (s : App) : App := s.

(** ** Events *)

(** What can happen to the component.  The record button is rendered
    with [onClick={isRecording ? stopRecording : startRecording}] and
    [disabled={isTranscribing}]; promises settle in the order in which
    they were created. *)
Inductive Event :=
| ClickRecordButton
| HotkeyPressed
| MicrophoneSettled (granted : bool)
| ProviderSettled (reply : ProviderReply)
| TextareaChanged (value : jsstring) (selectionStart : Z).

Definition handle (now : Z) (e : Event) (s : App) : App :=
  match e with
  | ClickRecordButton =>
      if isTranscribing s then s
      else if isRecording s then stopRecording (isRecording s) s
      else startRecording (startRecordingMemo s) s
  | HotkeyPressed => hotkeyCallback now s
  | MicrophoneSettled granted =>
      match pendingMicrophone s with
      | [] => s
      | w :: rest =>
          let s := set_pendingMicrophone rest s in
          match w, granted with
          | mic_startRecording c, true => startRecording_granted c s
          | mic_startRecording c, false => startRecording_denied s
          | mic_hotkey t, true => hotkey_granted t s
          | mic_hotkey t, false => hotkey_denied s
          end
      end
  | ProviderSettled reply =>
      match pendingTranscription s with
      | [] => s
      | w :: rest =>
          let s := set_pendingTranscription rest s in
          match w with
          | tx_transcribeAudio c => transcribeAudio_settle c reply s
          | tx_transcribeAudioFromHotkey k p config =>
              transcribeAudioFromHotkey_settle k p config reply s
          end
      end
  | TextareaChanged value selectionStart =>
      s |> set_transcribedText value
        |> (fun s => match textareaRef s with
                     | Some _ => set_textareaRef (Some selectionStart) s
                     | None => s
                     end)
  end.

(** One event at time [now], then the render it causes. *)
Definition step (te : Z * Event) (s : App) : App :=
  commit (handle (fst te) (snd te) s).

Fixpoint run (trace : list (Z * Event)) (s : App) : App :=
  match trace with
  | [] => s
  | te :: rest => run rest (step te s)
  end.


(** ** The component at its first start *)

Definition initialConfigs : Configs :=
  {| cfg_gemini := getDefaultConfig None gemini;
     cfg_openai := getDefaultConfig None openai;
     cfg_mistral := getDefaultConfig None mistral |}.

Definition initialSnapshot : Snapshot :=
  {| c_isRecording := false; c_isTranscribing := false;
     c_transcribedText := []; c_selectedProvider := gemini;
     c_providerConfigs := initialConfigs;
     c_historyEnabled := true; c_historyLimit := 25 |}.

(** Empty local store, main view mounted. *)
Definition initialApp : App :=
  {| isRecording := false; isTranscribing := false; transcribedText := [];
     selectedProvider := gemini; providerConfigs := initialConfigs;
     historyEnabled := true; historyLimit := 25; history := [];
     mediaRecorderRef := None; chunksRef := []; textareaRef := Some 0;
     cursorPositionRef := 0;
     isRecordingRef := false; apiKeyRef := []; isTranscribingRef := false;
     transcribedTextRef := []; selectedProviderRef := gemini;
     currentConfigRef := getDefaultConfig None gemini;
     lastHotkeyTimeRef := 0;
     startRecordingMemo := initialSnapshot;
     recorders := []; pendingMicrophone := []; pendingTranscription := [];
     requests := [];
     localStorage := {| stored_provider_configs := None;
                        stored_transcript_history := None |};
     windowShown := false |}.

(** [selectProvider(provider)] *)
Definition selectProvider (provider : STTProvider) (s : App) : App :=
  set_selectedProvider provider s.

(** A component in which the user has chosen [provider], typed [key]
    for it, and a validation of the key has been answered with a success
    status; the model list is then fetched by the callback of a render
    that holds the key, [catalog] being the answer to its request.  That
    is the validation of the effect on mount, or a fetch from the
    settings view; the timer of the change event itself belongs to the
    render before the change, and its fetch reads the key of that
    render. *)
Definition configuredApp (provider : STTProvider) (key : jsstring)
  (catalog : CatalogReply) : App :=
  let s := initialApp |> selectProvider provider |> commit in
  let s := s |> saveProviderApiKey provider key |> commit in
  s |> validateProviderApiKey (providerConfigs s) provider key
         (probe_response true) catalog
    |> commit.

Definition SAMPLE_KEY : jsstring := js "sk-0123456789abcdef".

(** ** Scenarios *)

(** Gemini, respectively OpenAI, chosen and configured with a key that
    the probe accepted. *)
Definition geminiApp : App := configuredApp gemini SAMPLE_KEY catalog_rejected.

Definition openaiApp : App := configuredApp openai SAMPLE_KEY catalog_rejected.

(** A Gemini catalogue with one audio-capable model. *)
Definition PRO_ONLY_CATALOG : CatalogReply :=
  catalog_response true
    (body_models
       (Some [ {| e_name := js "models/gemini-2.5-pro";
                  e_displayName := Some (js "Gemini 2.5 Pro");
                  e_supportedGenerationMethods := Some [js "generateContent"] |} ])).

(** Gemini configured while the catalogue offers that one model. *)
Definition geminiProApp : App := configuredApp gemini SAMPLE_KEY PRO_ONLY_CATALOG.

(** ... then that model selected, and the list fetched again with a
    failure status as the answer. *)
Definition geminiProSelectedApp : App :=
  let s := geminiProApp |> selectModel (snapshot geminiProApp) 0 |> commit in
  s |> fetchModelsForProvider (providerConfigs s) gemini
         (catalog_response false body_rejected)
    |> commit.



(** A recording started and stopped with the record button. *)
Definition BUTTON_RECORDING : list (Z * Event) :=
  [ (0, ClickRecordButton); (100, MicrophoneSettled true);
    (4000, ClickRecordButton) ].

(** Two clicks on the record button 50 ms apart, then the microphone
    granted to both. *)
Definition TWO_CLICKS : list (Z * Event) :=
  [ (0, ClickRecordButton); (50, ClickRecordButton) ].

Definition BOTH_GRANTED : list (Z * Event) :=
  [ (200, MicrophoneSettled true); (250, MicrophoneSettled true) ].


(** The answer of a provider to a request with a rejected key: status
    401 and an error object with a message. *)
Definition AUTH_401 : ProviderReply :=
  response 401 {| d_text := None;
                  d_error := Some (Some (js "Incorrect API key provided")) |}.

(** A successful answer with the text [t]. *)
Definition answer (t : jsstring) : ProviderReply :=
  response 200 {| d_text := Some t; d_error := None |}.

(** A recording started while the buffer is empty, "abc" typed while it
    runs, the recording stopped: with the button, with the hotkey. *)
Definition TYPED_WHILE_RECORDING_BUTTON : list (Z * Event) :=
  [ (0, ClickRecordButton); (100, MicrophoneSettled true);
    (2000, TextareaChanged (js "abc") 3); (4000, ClickRecordButton) ].

Definition TYPED_WHILE_RECORDING_HOTKEY : list (Z * Event) :=
  [ (1000, HotkeyPressed); (1100, MicrophoneSettled true);
    (2000, TextareaChanged (js "abc") 3); (4000, HotkeyPressed) ].

(** ** Vocabulary of the properties *)

(** The code unit in front of the cursor, when there is one. *)
Definition char_before (buffer : jsstring) (cursor : Z) : option N :=
  if cursor <=? 0 then None else nth_error buffer (Z.to_nat (cursor - 1)).

(** The separator as the specification words it: one space when a code
    unit precedes the cursor and is not white space, nothing at the
    start of the buffer or after white space. *)
Definition expected_separator (buffer : jsstring) (cursor : Z) : jsstring :=
  match char_before buffer cursor with
  | Some ch => if is_space ch then [] else [32%N]
  | None => []
  end.

(** The prefixes by which the code recognises a status text. *)
Definition STATUS_PREFIXES : list jsstring :=
  [ js "Fehler"; js "Bitte"; js "API"; js "Keine"; js "Mikrofon"; js "Verbindung" ].

Definition is_blank (c : N) : bool := N.eqb c 32.

Definition starts_blank (s : jsstring) : bool :=
  match s with
  | c :: _ => is_blank c
  | [] => false
  end.

Fixpoint ends_blank (s : jsstring) : bool :=
  match s with
  | [] => false
  | [c] => is_blank c
  | _ :: s' => ends_blank s'
  end.

(** No two adjacent spaces (U+0020) anywhere in the text. *)
Fixpoint no_double_space (s : jsstring) : bool :=
  match s with
  | [] => true
  | a :: t => negb (is_blank a && starts_blank t) && no_double_space t
  end.

(** The history after an accepted [saveToHistory]. *)
Definition recorded (limit : Z) (item : HistoryItem) (prev : list HistoryItem)
  : list HistoryItem :=
  if 0 <? limit then firstn (Z.to_nat limit) (item :: prev) else item :: prev.

(** A state as a render leaves it. *)
Definition committed (s : App) : Prop := commit s = s.


Definition provider_eqb (p q : STTProvider) : bool :=
  match p, q with
  | gemini, gemini | openai, openai | mistral, mistral => true
  | _, _ => false
  end.

(** [selectedModel] is the id of one of [availableModels]. *)
Definition selected_is_available (c : ProviderConfig) : bool :=
  existsb (fun m => str_eqb (m_id m) (selectedModel c)) (availableModels c).

(* ================================================================== *)
(** * Part I, continued. The build scripts and the rest of [App]       *)
(* ================================================================== *)

(** ** Numbers and arrays of the scripts *)

(** A JavaScript number that holds an integer, or [NaN].  The embedding
    carries the integer exactly; JavaScript does so up to [2^53]. *)
Inductive JsNumber :=
| NaN
| Num (z : Z).

Fixpoint uint_units (u : Decimal.uint) : jsstring :=
  match u with
  | Decimal.Nil => []
  | Decimal.D0 u' => 48%N :: uint_units u'
  | Decimal.D1 u' => 49%N :: uint_units u'
  | Decimal.D2 u' => 50%N :: uint_units u'
  | Decimal.D3 u' => 51%N :: uint_units u'
  | Decimal.D4 u' => 52%N :: uint_units u'
  | Decimal.D5 u' => 53%N :: uint_units u'
  | Decimal.D6 u' => 54%N :: uint_units u'
  | Decimal.D7 u' => 55%N :: uint_units u'
  | Decimal.D8 u' => 56%N :: uint_units u'
  | Decimal.D9 u' => 57%N :: uint_units u'
  end.

(** [String(n)] *)
Definition number_toString (n : JsNumber) : jsstring :=
  match n with
  | NaN => js "NaN"
  | Num (Zneg p) => 45%N :: uint_units (Pos.to_uint p)
  | Num z => uint_units (N.to_uint (Z.to_N z))
  end.

(** [Number.isSafeInteger]: the integers a JavaScript number holds
    exactly, on which the embedding of numbers is exact. *)
Definition safe_integer (z : Z) : Prop := - 2 ^ 53 < z < 2 ^ 53.

Definition is_digit (c : N) : bool := (48 <=? c)%N && (c <=? 57)%N.

(** The longest prefix of decimal digits. *)
Fixpoint leading_uint (s : jsstring) : Decimal.uint :=
  match s with
  | [] => Decimal.Nil
  | c :: s' =>
      match c with
      | 48%N => Decimal.D0 (leading_uint s')
      | 49%N => Decimal.D1 (leading_uint s')
      | 50%N => Decimal.D2 (leading_uint s')
      | 51%N => Decimal.D3 (leading_uint s')
      | 52%N => Decimal.D4 (leading_uint s')
      | 53%N => Decimal.D5 (leading_uint s')
      | 54%N => Decimal.D6 (leading_uint s')
      | 55%N => Decimal.D7 (leading_uint s')
      | 56%N => Decimal.D8 (leading_uint s')
      | 57%N => Decimal.D9 (leading_uint s')
      | _ => Decimal.Nil
      end
  end.

(** [parseInt(s, 10)]: leading white space is skipped, one sign is
    read, then the longest run of decimal digits; without a digit the
    result is [NaN]. *)
Definition parseInt10 (input : jsstring) : JsNumber :=
  let s := trimStart input in
  let negative := match s with 45%N :: _ => true | _ => false end in
  let s := match s with
           | 45%N :: r => r
           | 43%N :: r => r
           | _ => s
           end in
  match leading_uint s with
  | Decimal.Nil => NaN
  | u => Num (if negative then - Z.of_N (N.of_uint u) else Z.of_N (N.of_uint u))
  end.

(** [n + 1] *)
Definition plus_one (n : JsNumber) : JsNumber :=
  match n with
  | NaN => NaN
  | Num z => Num (z + 1)
  end.

(** [s.split(sep)] for a separator of one code unit. *)
Fixpoint split_on (sep : N) (s : jsstring) : list jsstring :=
  match s with
  | [] => [[]]
  | c :: s' =>
      if N.eqb c sep then [] :: split_on sep s'
      else match split_on sep s' with
           | p :: ps => (c :: p) :: ps
           | [] => [[c]]
           end
  end.

(** An array of strings; [None] is an empty slot. *)
Definition JsArray := list (option jsstring).

(** [a[i] = v]: an index past the end extends the array with empty
    slots. *)
Fixpoint array_set (a : JsArray) (i : nat) (v : jsstring) : JsArray :=
  match i, a with
  | O, [] => [Some v]
  | O, _ :: a' => Some v :: a'
  | S i', [] => None :: array_set [] i' v
  | S i', x :: a' => x :: array_set a' i' v
  end.

(** The argument [a[i]] converted to a string: an element that is not
    there is [undefined]. *)
Definition array_get_string (a : JsArray) (i : nat) : jsstring :=
  match nth_error a i with
  | Some (Some s) => s
  | _ => js "undefined"
  end.

(** [a.join(sep)]: an empty slot is joined as the empty string. *)
Fixpoint array_join (sep : N) (a : JsArray) : jsstring :=
  match a with
  | [] => []
  | [x] => pick x []
  | x :: a' => pick x [] ++ sep :: array_join sep a'
  end.

Definition DOT : N := 46%N.

(** ** bump-version *)

(** A version written as its components: [parts.join(".")]. *)
Definition dotted (parts : list jsstring) : jsstring :=
  array_join DOT (map Some parts).

(** No component contains the separator. *)
Definition dot_free (parts : list jsstring) : Prop :=
  Forall (fun p => ~ In DOT p) parts.


(** [incrementVersion(version)].  The sum is taken in the integers; it
    is the sum of the script as long as the number read and its
    successor are safe integers, and the theorems about the number
    carry that as a premise. *)
Definition incrementVersion (version : jsstring) : jsstring :=
  let parts : JsArray := map Some (split_on DOT version) in
  let parts := array_set parts 2
                 (number_toString (plus_one (parseInt10 (array_get_string parts 2)))) in
  array_join DOT parts.

Definition QUOTE : N := 34%N.

Definition is_line_terminator (c : N) : bool :=
  match c with
  | 10%N | 13%N | 8232%N | 8233%N => true
  | _ => false
  end.

(** The longest prefix without a double quote, and what follows it. *)
Fixpoint span_unquoted (s : jsstring) : jsstring * jsstring :=
  match s with
  | [] => ([], [])
  | c :: s' =>
      if N.eqb c QUOTE then ([], s)
      else let (v, rest) := span_unquoted s' in (c :: v, rest)
  end.

(** A match, at the start of [s], of the pattern that the scripts use:
    the literal [lit], a double quote, one or more code units other
    than a double quote, a double quote.  The result is the text
    between the quotes and the text after the closing quote.  The class
    matches every code unit but the quote, so the only candidate is the
    whole run up to the next quote. *)
Definition match_here (lit s : jsstring) : option (jsstring * jsstring) :=
  if startsWith s (lit ++ [QUOTE]) then
    match span_unquoted (skipn (List.length (lit ++ [QUOTE])) s) with
    | ([], _) => None
    | (_, []) => None
    | (v, _ :: rest) => Some (v, rest)
    end
  else None.

(** The leftmost match of that pattern in [s], as the text before it,
    the text between the quotes and the text after it.  With
    [anchored] the pattern starts with [^] under the flag [m]: a match
    may begin only at the start of the text or after a line terminator;
    [line_start] tells whether [s] begins at such a place. *)
Fixpoint find_assignment (lit : jsstring) (anchored line_start : bool)
  (s : jsstring) : option (jsstring * jsstring * jsstring) :=
  match (if (negb anchored || line_start) then match_here lit s else None) with
  | Some (v, rest) => Some ([], v, rest)
  | None =>
      match s with
      | [] => None
      | c :: s' =>
          match find_assignment lit anchored (is_line_terminator c) s' with
          | Some (before, v, rest) => Some (c :: before, v, rest)
          | None => None
          end
      end
  end.

(** The replacement text of [String.prototype.replace]: [$$], [$&],
    [$`] and [$'] are expanded; the patterns have no groups, so every
    other [$] stands for itself. *)
Fixpoint getSubstitution (matched before after r : jsstring) : jsstring :=
  match r with
  | [] => []
  | 36%N :: 36%N :: r' => 36%N :: getSubstitution matched before after r'
  | 36%N :: 38%N :: r' => matched ++ getSubstitution matched before after r'
  | 36%N :: 96%N :: r' => before ++ getSubstitution matched before after r'
  | 36%N :: 39%N :: r' => after ++ getSubstitution matched before after r'
  | c :: r' => c :: getSubstitution matched before after r'
  end.

(** [content.replace(pattern, replacement)] for that pattern, with [^]
    and the flag [m] when [anchored]. *)
Definition replace_assignment (lit : jsstring) (anchored : bool)
  (content replacement : jsstring) : jsstring :=
  match find_assignment lit anchored true content with
  | Some (before, v, after) =>
      let matched := lit ++ [QUOTE] ++ v ++ [QUOTE] in
      before ++ getSubstitution matched before after replacement ++ after
  | None => content
  end.

Definition APP_VERSION_IS : jsstring := js "APP_VERSION = ".

Definition VERSION_IS : jsstring := js "version = ".

(** The update of [src/version.ts]. *)
Definition updateVersionTs (newVersion content : jsstring) : jsstring :=
  replace_assignment APP_VERSION_IS false content
    (APP_VERSION_IS ++ [QUOTE] ++ newVersion ++ [QUOTE]).

(** The update of [src-tauri/Cargo.toml]. *)
Definition updateCargoToml (newVersion content : jsstring) : jsstring :=
  replace_assignment VERSION_IS true content
    (VERSION_IS ++ [QUOTE] ++ newVersion ++ [QUOTE]).

(** The version a file carries: the quoted text of the leftmost match. *)
Definition assigned_value (lit : jsstring) (anchored : bool) (content : jsstring)
  : option jsstring :=
  match find_assignment lit anchored true content with
  | Some (_, v, _) => Some v
  | None => None
  end.

Definition DOLLAR : N := 36%N.

(** The place where [before] ends is the start of a line: the start of
    the text (when the text itself starts a line) or the place after a
    line terminator. *)
Definition at_line_start (line_start : bool) (before : jsstring) : Prop :=
  match before with
  | [] => line_start = true
  | _ :: _ => is_line_terminator (last before 0%N) = true
  end.

(** [content] holds the pattern with the literal [lit] and the value
    [v] right after [before]. *)
Definition occurs_at (lit content before v after : jsstring) : Prop :=
  content = before ++ lit ++ [QUOTE] ++ v ++ [QUOTE] ++ after
  /\ v <> [] /\ ~ In QUOTE v.

(** A [version.ts] and a [Cargo.toml] as the script finds them. *)
Definition VERSION_TS_SAMPLE : jsstring :=
  js "export const APP_VERSION = " ++ [QUOTE] ++ js "0.1.6" ++ [QUOTE] ++ js ";".

Definition CARGO_TOML_SAMPLE : jsstring :=
  js "[package]" ++ [10%N]
  ++ js "version = " ++ [QUOTE] ++ js "0.1.6" ++ [QUOTE] ++ [10%N]
  ++ js "serde = { version = " ++ [QUOTE] ++ js "1" ++ [QUOTE] ++ js " }".

(** The bump stays within the integers that a JavaScript number holds
    exactly, where [incrementVersion] is exact: the third component of
    [version] has no number, or its number and the successor of that
    number are safe integers. *)
Definition exact_bump (version : jsstring) : Prop :=
  match parseInt10 (array_get_string (map Some (split_on DOT version)) 2) with
  | NaN => True
  | Num n => safe_integer n /\ safe_integer (n + 1)
  end.

(** ** The rest of the history store *)

Definition set_historyEnabled (v : bool) (s : App) : App :=
  {| isRecording := isRecording s; isTranscribing := isTranscribing s;
     transcribedText := transcribedText s;
     selectedProvider := selectedProvider s;
     providerConfigs := providerConfigs s;
     historyEnabled := v; historyLimit := historyLimit s;
     history := history s; mediaRecorderRef := mediaRecorderRef s;
     chunksRef := chunksRef s; textareaRef := textareaRef s;
     cursorPositionRef := cursorPositionRef s;
     isRecordingRef := isRecordingRef s; apiKeyRef := apiKeyRef s;
     isTranscribingRef := isTranscribingRef s;
     transcribedTextRef := transcribedTextRef s;
     selectedProviderRef := selectedProviderRef s;
     currentConfigRef := currentConfigRef s;
     lastHotkeyTimeRef := lastHotkeyTimeRef s;
     startRecordingMemo := startRecordingMemo s; recorders := recorders s;
     pendingMicrophone := pendingMicrophone s;
     pendingTranscription := pendingTranscription s; requests := requests s;
     localStorage := localStorage s; windowShown := windowShown s |}.

Definition set_historyLimit (v : Z) (s : App) : App :=
  {| isRecording := isRecording s; isTranscribing := isTranscribing s;
     transcribedText := transcribedText s;
     selectedProvider := selectedProvider s;
     providerConfigs := providerConfigs s;
     historyEnabled := historyEnabled s; historyLimit := v;
     history := history s; mediaRecorderRef := mediaRecorderRef s;
     chunksRef := chunksRef s; textareaRef := textareaRef s;
     cursorPositionRef := cursorPositionRef s;
     isRecordingRef := isRecordingRef s; apiKeyRef := apiKeyRef s;
     isTranscribingRef := isTranscribingRef s;
     transcribedTextRef := transcribedTextRef s;
     selectedProviderRef := selectedProviderRef s;
     currentConfigRef := currentConfigRef s;
     lastHotkeyTimeRef := lastHotkeyTimeRef s;
     startRecordingMemo := startRecordingMemo s; recorders := recorders s;
     pendingMicrophone := pendingMicrophone s;
     pendingTranscription := pendingTranscription s; requests := requests s;
     localStorage := localStorage s; windowShown := windowShown s |}.

(** [deleteHistoryItem(id)]: a functional state update that also
    writes the new list to the local store. *)
Definition deleteHistoryItem (id : Z) (s : App) : App :=
  let prev := history s in
  let newHistory := filter (fun item => negb (h_id item =? id)) prev in
  s |> store_history newHistory |> set_history newHistory.

(** [clearHistory()]: the entry of the local store is removed. *)
Definition clearHistory (s : App) : App :=
  s |> set_history []
    |> (fun s => set_localStorage
                   {| stored_provider_configs := stored_provider_configs (localStorage s);
                      stored_transcript_history := None |} s).

(** The initialiser of [history]: [saved ? JSON.parse(saved) : []]. *)
Definition load_history (st : Storage) : list HistoryItem :=
  match stored_transcript_history st with
  | Some saved => saved
  | None => []
  end.

(** A stored configuration read back as the update it is spread as:
    [JSON.stringify] has written every field. *)
Definition all_fields (c : ProviderConfig) : ConfigUpdate :=
  {| u_apiKey := Some (apiKey c); u_apiKeyStatus := Some (apiKeyStatus c);
     u_selectedModel := Some (selectedModel c);
     u_availableModels := Some (availableModels c);
     u_isLoadingModels := Some (isLoadingModels c) |}.

(** The initialiser of [providerConfigs]: the stored map merged over
    the defaults, or the defaults. *)
Definition load_providerConfigs (oldGoogleKey : option jsstring) (st : Storage)
  : Configs :=
  match stored_provider_configs st with
  | Some parsed =>
      {| cfg_gemini := spread (getDefaultConfig oldGoogleKey gemini)
                         (all_fields (cfg_gemini parsed));
         cfg_openai := spread (getDefaultConfig oldGoogleKey openai)
                         (all_fields (cfg_openai parsed));
         cfg_mistral := spread (getDefaultConfig oldGoogleKey mistral)
                          (all_fields (cfg_mistral parsed)) |}
  | None =>
      {| cfg_gemini := getDefaultConfig oldGoogleKey gemini;
         cfg_openai := getDefaultConfig oldGoogleKey openai;
         cfg_mistral := getDefaultConfig oldGoogleKey mistral |}
  end.

(** ** The page around the recorder *)

Inductive View := view_main | view_settings | view_history.

(** The entries [history_enabled] and [history_limit] of the local
    store, each holding the string last written under its key. *)
Record Preferences := {
  stored_history_enabled : option jsstring;
  stored_history_limit : option jsstring
}.

(** The component with the state that the controls around the recorder
    use: the view shown, the flag of the copy button, the system
    clipboard and the stored preferences. *)
Record Page := {
  component : App;
  view : View;
  copied : bool;
  clipboard : jsstring;
  preferences : Preferences
}.

Definition on_app (f : App -> App) (p : Page) : Page :=
  {| component := f (component p); view := view p; copied := copied p;
     clipboard := clipboard p; preferences := preferences p |}.

Definition set_view (v : View) (p : Page) : Page :=
  {| component := component p; view := v; copied := copied p;
     clipboard := clipboard p; preferences := preferences p |}.

Definition set_copied (v : bool) (p : Page) : Page :=
  {| component := component p; view := view p; copied := v;
     clipboard := clipboard p; preferences := preferences p |}.

Definition set_clipboard (v : jsstring) (p : Page) : Page :=
  {| component := component p; view := view p; copied := copied p;
     clipboard := v; preferences := preferences p |}.

Definition set_preferences (v : Preferences) (p : Page) : Page :=
  {| component := component p; view := view p; copied := copied p;
     clipboard := clipboard p; preferences := v |}.

(** [b.toString()] *)
Definition boolean_toString (b : bool) : jsstring :=
  if b then js "true" else js "false".

Definition hex_value (c : N) : option Z :=
  if ((48 <=? c) && (c <=? 57))%N then Some (Z.of_N c - 48)
  else if ((97 <=? c) && (c <=? 102))%N then Some (Z.of_N c - 87)
  else if ((65 <=? c) && (c <=? 70))%N then Some (Z.of_N c - 55)
  else None.

(** The value of the longest prefix of hexadecimal digits, when there
    is one; [acc] is the value read so far. *)
Fixpoint leading_hex (acc : option Z) (s : jsstring) : option Z :=
  match s with
  | [] => acc
  | c :: s' =>
      match hex_value c with
      | Some d => leading_hex (Some (16 * pick acc 0 + d)) s'
      | None => acc
      end
  end.

(** [parseInt(s)] without a radix: after white space and sign a prefix
    [0x] or [0X] selects radix 16, everything else is read as by
    [parseInt(s, 10)]. *)
Definition parseInt (input : jsstring) : JsNumber :=
  let s := trimStart input in
  let negative := match s with 45%N :: _ => true | _ => false end in
  let s := match s with
           | 45%N :: r => r
           | 43%N :: r => r
           | _ => s
           end in
  match s with
  | 48%N :: x :: r =>
      if (N.eqb x 120 || N.eqb x 88)%N then
        match leading_hex None r with
        | Some z => Num (if negative then - z else z)
        | None => NaN
        end
      else parseInt10 input
  | _ => parseInt10 input
  end.

(** The initialisers of [historyEnabled] and [historyLimit]. *)
Definition load_historyEnabled (pr : Preferences) : bool :=
  match stored_history_enabled pr with
  | Some saved => str_eqb saved (js "true")
  | None => true
  end.

Definition load_historyLimit (pr : Preferences) : JsNumber :=
  match stored_history_limit pr with
  | Some saved => parseInt saved
  | None => Num 25
  end.

(** [restoreFromHistory(text)] *)
Definition restoreFromHistory (text : jsstring) (p : Page) : Page :=
  p |> on_app (set_transcribedText text) |> set_view view_main.

(** [toggleHistoryEnabled(enabled)] *)
Definition toggleHistoryEnabled (enabled : bool) (p : Page) : Page :=
  p |> on_app (set_historyEnabled enabled)
    |> (fun p => set_preferences
                   {| stored_history_enabled := Some (boolean_toString enabled);
                      stored_history_limit := stored_history_limit (preferences p) |} p).

(** [updateHistoryLimit(limit)] *)
Definition updateHistoryLimit (limit : Z) (p : Page) : Page :=
  let p := on_app (set_historyLimit limit) p in
  let p := set_preferences
             {| stored_history_enabled := stored_history_enabled (preferences p);
                stored_history_limit := Some (number_toString (Num limit)) |} p in
  if 0 <? limit then
    on_app (fun s =>
              let prev := history s in
              let trimmed := slice prev 0 limit in
              s |> store_history trimmed |> set_history trimmed) p
  else p.

(** [copyToClipboard()]; [c] is the render the callback belongs to (its
    dependency is [transcribedText]), [written] tells whether
    [navigator.clipboard.writeText] resolves.  The timer that takes the
    flag back after two seconds is left out. *)
Definition copyToClipboard (c : Snapshot) (written : bool) (p : Page) : Page :=
  if truthy (c_transcribedText c) && negb (is_status_text (c_transcribedText c))
  then
    if written
    then p |> set_clipboard (c_transcribedText c) |> set_copied true
    else p
  else p.

(** The handler of the discard button:
    [saveToHistory(transcribedText); setTranscribedText(empty)]. *)
Definition discardText (c : Snapshot) (now_id now_ts : Z) (p : Page) : Page :=
  p |> on_app (saveToHistory c (c_transcribedText c) now_id now_ts)
    |> on_app (set_transcribedText []).

(** The limits that the settings view offers; 0 stands for no limit. *)
Definition HISTORY_LIMITS : list Z := [10; 25; 50; 0].

(** What the controls around the recorder can do.  Each handler is
    called with what its control passes in the render of the current
    state: the discard button the buffer (it is disabled while the
    buffer is empty), the buttons of a history entry the text and the
    id of that entry, the switch the negated flag, a limit button its
    limit (the buttons are rendered while the history is enabled, the
    button that clears the history while there is an entry). *)
Inductive Control :=
| DiscardClicked (now_id now_ts : Z)
| CopyClicked (written : bool)
| RestoreClicked (index : nat)
| DeleteClicked (index : nat)
| ClearClicked
| SwitchClicked
| LimitClicked (index : nat)
| TextChanged (value : jsstring).

Definition operate (k : Control) (p : Page) : Page :=
  let c := snapshot (component p) in
  match k with
  | DiscardClicked now_id now_ts =>
      if truthy (c_transcribedText c) then discardText c now_id now_ts p else p
  | CopyClicked written => copyToClipboard c written p
  | RestoreClicked index =>
      match nth_error (history (component p)) index with
      | Some item => restoreFromHistory (h_text item) p
      | None => p
      end
  | DeleteClicked index =>
      match nth_error (history (component p)) index with
      | Some item => on_app (deleteHistoryItem (h_id item)) p
      | None => p
      end
  | ClearClicked =>
      match history (component p) with
      | [] => p
      | _ :: _ => on_app clearHistory p
      end
  | SwitchClicked => toggleHistoryEnabled (negb (c_historyEnabled c)) p
  | LimitClicked index =>
      if c_historyEnabled c then
        match nth_error HISTORY_LIMITS index with
        | Some limit => updateHistoryLimit limit p
        | None => p
        end
      else p
  | TextChanged value => on_app (set_transcribedText value) p
  end.

Fixpoint operate_all (ks : list Control) (p : Page) : Page :=
  match ks with
  | [] => p
  | k :: rest => operate_all rest (operate k p)
  end.

(** The page at its first start. *)
Definition initialPage : Page :=
  {| component := initialApp; view := view_main; copied := false; clipboard := [];
     preferences := {| stored_history_enabled := None;
                       stored_history_limit := None |} |}.

(** What a restart would read from the local store is what the
    component holds. *)
Definition persisted (p : Page) : Prop :=
  load_history (localStorage (component p)) = history (component p)
  /\ load_historyEnabled (preferences p) = historyEnabled (component p)
  /\ load_historyLimit (preferences p) = Num (historyLimit (component p)).

(** Newest first: no entry is older than one that follows it. *)
Fixpoint newest_first (h : list HistoryItem) : Prop :=
  match h with
  | [] => True
  | item :: rest =>
      (forall later, In later rest -> h_timestamp later <= h_timestamp item)
      /\ newest_first rest
  end.

(** The clock does not run backwards: every reading of [Date.now()]
    in [ks] is at least [t] and at least every reading before it. *)
Fixpoint clock_from (t : Z) (ks : list Control) : Prop :=
  match ks with
  | [] => True
  | DiscardClicked now_id now_ts :: rest =>
      t <= now_id /\ now_id <= now_ts /\ clock_from now_ts rest
  | _ :: rest => clock_from t rest
  end.

(** Two texts discarded one after the other at the first start. *)
Definition twoEntriesPage : Page :=
  operate_all
    [TextChanged (js "first text"); DiscardClicked 10 10;
     TextChanged (js "second text"); DiscardClicked 20 20] initialPage.

(** A text that [saveToHistory] accepts in the render [c]. *)
Definition worth_keeping (c : Snapshot) (text : jsstring) : bool :=
  c_historyEnabled c && (5 <=? jslength text) && negb (is_status_text text).

(** Two texts discarded within the same millisecond: both entries carry
    the id of that millisecond. *)
Definition sameMillisecondPage : Page :=
  operate_all
    [TextChanged (js "first text"); DiscardClicked 10 10;
     TextChanged (js "second text"); DiscardClicked 10 10] initialPage.

(** ** Invariants of the component *)

(** Whether the recorder under [mediaRecorderRef] is live. *)
Definition ref_recorder_live (s : App) : bool :=
  match mediaRecorderRef s with
  | Some index =>
      match nth_error (recorders s) index with
      | Some r => recording r
      | None => false
      end
  | None => false
  end.

(** The recording flag tells whether the recorder under the ref is
    live, and the ref holds the recorder created last. *)
Definition coordinated (s : App) : Prop :=
  isRecording s = ref_recorder_live s
  /\ match mediaRecorderRef s with
     | Some index => S index = List.length (recorders s)
     | None => recorders s = []
     end.

(** The configurations that a restart would read are those of the
    state; [oldGoogleKey] is the entry [google_api_key] of the store. *)
Definition configs_persisted (oldGoogleKey : option jsstring) (s : App) : Prop :=
  load_providerConfigs oldGoogleKey (localStorage s) = providerConfigs s.

(** [q] keeps key, model selection, model list and loading flag, and
    its key status is kept or has become [invalid]. *)
Definition config_kept (before after : ProviderConfig) : Prop :=
  apiKey after = apiKey before
  /\ selectedModel after = selectedModel before
  /\ availableModels after = availableModels before
  /\ isLoadingModels after = isLoadingModels before
  /\ (apiKeyStatus after = apiKeyStatus before \/ apiKeyStatus after = invalid).

(** What the events of the recorder leave alone. *)
Definition settings_kept (s s' : App) : Prop :=
  history s' = history s
  /\ historyEnabled s' = historyEnabled s
  /\ historyLimit s' = historyLimit s
  /\ selectedProvider s' = selectedProvider s
  /\ stored_transcript_history (localStorage s')
     = stored_transcript_history (localStorage s)
  /\ forall q, config_kept (config_of (providerConfigs s) q)
                 (config_of (providerConfigs s') q).

(** Two clicks on the record button that both got the microphone: two
    live capture sessions, the first of them no longer under the ref. *)
Definition twoSessionsApp : App := run (TWO_CLICKS ++ BOTH_GRANTED) geminiApp.

(** The session under the ref stopped with the button and answered,
    then a session started and stopped with the hotkey. *)
Definition STOP_AND_RESTART : list (Z * Event) :=
  [ (5000, ClickRecordButton); (6000, ProviderSettled (answer (js "hello")));
    (7000, HotkeyPressed); (7100, MicrophoneSettled true);
    (9000, HotkeyPressed) ].

(** Nothing is going on: no recording, no transcription, no handler
    waiting for the microphone or for a provider. *)
Definition at_rest (s : App) : Prop :=
  isRecording s = false /\ isTranscribing s = false
  /\ pendingMicrophone s = [] /\ pendingTranscription s = [].

(** One recording with the record button: start, microphone granted,
    stop, and the answer of the provider. *)
Definition button_round (t1 t2 t3 t4 : Z) (reply : ProviderReply)
  : list (Z * Event) :=
  [ (t1, ClickRecordButton); (t2, MicrophoneSettled true);
    (t3, ClickRecordButton); (t4, ProviderSettled reply) ].

(** While the transcribing flag is set a transcription run is waiting
    for its provider. *)
Definition transcribing_is_pending (s : App) : Prop :=
  isTranscribing s = true -> pendingTranscription s <> [].

(** ** generate-update-manifest *)

(** [s.endsWith(suffix)] *)
Definition endsWith (s suffix : jsstring) : bool :=
  (List.length suffix <=? List.length s)%nat
  && str_eqb (skipn (List.length s - List.length suffix) s) suffix.

Definition SETUP_SUFFIX : jsstring := js "-setup.exe".

(** The characters that [encodeURIComponent] leaves as they are:
    letters, digits and [- _ . ! ~ * ' ( )]. *)
Definition is_unreserved (c : N) : bool :=
  ((65 <=? c) && (c <=? 90) || (97 <=? c) && (c <=? 122)
   || (48 <=? c) && (c <=? 57)
   || N.eqb c 45 || N.eqb c 95 || N.eqb c 46 || N.eqb c 33 || N.eqb c 126
   || N.eqb c 42 || N.eqb c 39 || N.eqb c 40 || N.eqb c 41)%N.

Definition is_high_surrogate (c : N) : bool := ((55296 <=? c) && (c <=? 56319))%N.

Definition is_low_surrogate (c : N) : bool := ((56320 <=? c) && (c <=? 57343))%N.

(** One hexadecimal digit, in upper case. *)
Definition hex_digit (n : N) : N := (if n <? 10 then 48 + n else 55 + n)%N.

(** [%XX] for one octet. *)
Definition percent (octet : N) : jsstring :=
  [37%N; hex_digit (octet / 16 mod 16); hex_digit (octet mod 16)].

(** The UTF-8 octets of a code point. *)
Definition utf8 (cp : N) : list N :=
  (if cp <? 128 then [cp]
   else if cp <? 2048 then [192 + cp / 64; 128 + cp mod 64]
   else if cp <? 65536 then
     [224 + cp / 4096; 128 + cp / 64 mod 64; 128 + cp mod 64]
   else [240 + cp / 262144; 128 + cp / 4096 mod 64; 128 + cp / 64 mod 64;
         128 + cp mod 64])%N.

Definition escaped (cp : N) : jsstring := flat_map percent (utf8 cp).

(** [encodeURIComponent(s)]; [None] is the [URIError] thrown for a
    surrogate without its partner. *)
Fixpoint encodeURIComponent (s : jsstring) : option jsstring :=
  match s with
  | [] => Some []
  | c :: s' =>
      if is_unreserved c then option_map (cons c) (encodeURIComponent s')
      else if is_low_surrogate c then None
      else if is_high_surrogate c then
        match s' with
        | d :: s'' =>
            if is_low_surrogate d then
              option_map
                (List.app (escaped ((c - 55296) * 1024 + (d - 56320) + 65536)%N))
                (encodeURIComponent s'')
            else None
        | [] => None
        end
      else option_map (List.app (escaped c)) (encodeURIComponent s')
  end.

Definition RELEASES : jsstring :=
  js "https://github.com/AndreasKalkusinski/VoiceTyping/releases/download/v".

(** How the script ends: [process.exit(1)] without a manifest, an
    uncaught [URIError], or the manifest written with this [url]. *)
Inductive ManifestRun :=
| exit_1
| uri_error
| manifest_written (nsisFile url : jsstring).

(** The script; [version] is the version of [package.json], [nsisDir]
    the listing of the bundle directory when it exists. *)
Definition generateUpdateManifest (version : jsstring)
  (nsisDir : option (list jsstring)) : ManifestRun :=
  let nsisFile :=
    match nsisDir with
    | Some files => find (fun f => endsWith f SETUP_SUFFIX) files
    | None => None
    end in
  match nsisFile with
  | Some f =>
      if truthy f then
        match encodeURIComponent f with
        | Some name => manifest_written f (RELEASES ++ version ++ js "/" ++ name)
        | None => uri_error
        end
      else exit_1
  | None => exit_1
  end.

(** The code units of a percent-encoded text. *)
Definition is_uri_safe (c : N) : bool :=
  is_unreserved c || N.eqb c 37.

(** A listing of the bundle directory after a build. *)
Definition NSIS_LISTING : list jsstring :=
  [js "Voice Typing_0.1.6_x64-setup.exe.sig";
   js "Voice Typing_0.1.6_x64-setup.exe";
   js "Voice Typing_0.1.5_x64-setup.exe"].

(** ** The registry from the first start *)

(** What can happen to the registry and the recorder: a change event of
    the key field of the selected provider; a validation run by a timer
    or by the effect on mount, with the [providerConfigs] of the render
    it belongs to and with its two arguments; a click on the header of
    the collapsed provider section, which fetches the models of the
    selected provider when it has a key; a click on a model button or
    on a provider button; an event of the recorder. *)
Inductive Occurrence :=
| KeyChanged (key : jsstring)
| ValidationRan (configs : Configs) (provider : STTProvider) (key : jsstring)
    (probe : ProbeReply) (catalog : CatalogReply)
| SectionExpanded (reply : CatalogReply)
| ModelClicked (index : nat)
| ProviderClicked (provider : STTProvider)
| RecorderEvent (te : Z * Event).

(** One occurrence, then the render it causes. *)
Definition occur (o : Occurrence) (s : App) : App :=
  commit
    match o with
    | KeyChanged key => saveProviderApiKey (selectedProvider s) key s
    | ValidationRan configs provider key probe catalog =>
        validateProviderApiKey configs provider key probe catalog s
    | SectionExpanded reply =>
        if truthy (c_apiKey (snapshot s))
        then fetchModelsForProvider (providerConfigs s) (selectedProvider s) reply s
        else s
    | ModelClicked index => selectModel (snapshot s) index s
    | ProviderClicked provider => selectProvider provider s
    | RecorderEvent te => handle (fst te) (snd te) s
    end.

Fixpoint reach (os : list Occurrence) (s : App) : App :=
  match os with
  | [] => s
  | o :: rest => reach rest (occur o s)
  end.

(** No provider is without a model to choose. *)
Definition models_listed (s : App) : Prop :=
  forall p, availableModels (config_of (providerConfigs s) p) <> [].

(** A Gemini key typed at the first start and probed with success by
    the timer of the change event, the provider section collapsed and
    expanded while the catalogue offers one model, then collapsed and
    expanded again while the request fails. *)
Definition FETCHED_THEN_FAILED : list Occurrence :=
  [ KeyChanged SAMPLE_KEY;
    ValidationRan initialConfigs gemini SAMPLE_KEY (probe_response true)
      catalog_rejected;
    SectionExpanded PRO_ONLY_CATALOG;
    SectionExpanded catalog_rejected ].
(* ================================================================== *)
(** * Part II. Properties                                              *)
(* ================================================================== *)

(** Splitting a conjunction of closed facts that are then evaluated. *)
Ltac split_all := repeat match goal with |- _ /\ _ => split end.

(** ** Strings *)

Lemma str_eqb_refl : forall a, str_eqb a a = true.
Proof.
  induction a as [|x a IH]; simpl; [reflexivity|].
  now rewrite N.eqb_refl, IH.
Qed.

Lemma str_eqb_eq : forall a b, str_eqb a b = true <-> a = b.
Proof.
  induction a as [|x a IH]; destruct b as [|y b]; simpl; split; intro H;
    try reflexivity; try discriminate.
  - apply andb_true_iff in H as [Hx Hab].
    apply N.eqb_eq in Hx. apply IH in Hab. now subst.
  - injection H as -> ->. now rewrite N.eqb_refl, str_eqb_refl.
Qed.

Lemma slice_prefix {A : Type} : forall (s : list A) (pos : Z),
  0 <= pos <= Z.of_nat (List.length s) ->
  slice s 0 pos = firstn (Z.to_nat pos) s.
Proof.
  intros s pos H. unfold slice, clamp_index.
  replace (0 <? 0) with false by reflexivity.
  destruct (pos <? 0) eqn:E; [apply Z.ltb_lt in E; lia|].
  replace (Z.min 0 (Z.of_nat (List.length s))) with 0 by lia.
  replace (Z.min pos (Z.of_nat (List.length s))) with pos by lia.
  replace (Z.max (pos - 0) 0) with pos by lia.
  reflexivity.
Qed.

Lemma slice_suffix {A : Type} : forall (s : list A) (pos : Z),
  0 <= pos <= Z.of_nat (List.length s) ->
  slice_from s pos = skipn (Z.to_nat pos) s.
Proof.
  intros s pos H. unfold slice_from, slice, clamp_index.
  destruct (pos <? 0) eqn:E; [apply Z.ltb_lt in E; lia|].
  destruct (Z.of_nat (List.length s) <? 0) eqn:E2; [apply Z.ltb_lt in E2; lia|].
  replace (Z.min pos (Z.of_nat (List.length s))) with pos by lia.
  rewrite Z.min_id.
  apply firstn_all2. rewrite length_skipn. lia.
Qed.

Lemma ends_with_space_last : forall s c,
  ends_with_space (s ++ [c]) = is_space c.
Proof.
  induction s as [|x s IH]; intro c; [reflexivity|].
  simpl. destruct (s ++ [c]) eqn:E.
  - destruct s; discriminate.
  - rewrite <- E. apply IH.
Qed.

Lemma firstn_snoc_nth {A : Type} : forall (l : list A) (n : nat) (x : A),
  nth_error l n = Some x ->
  firstn (S n) l = firstn n l ++ [x].
Proof.
  induction l as [|a l IH]; intros [|n] x H; simpl in *; try discriminate.
  - now injection H as ->.
  - f_equal. now apply IH.
Qed.

Lemma ends_with_space_prefix : forall buffer cursor,
  0 <= cursor <= jslength buffer ->
  ends_with_space (firstn (Z.to_nat cursor) buffer)
  = match char_before buffer cursor with
    | Some ch => is_space ch
    | None => false
    end.
Proof.
  intros buffer cursor H. unfold char_before.
  destruct (cursor <=? 0) eqn:E.
  - apply Z.leb_le in E. replace cursor with 0 by lia. reflexivity.
  - apply Z.leb_gt in E.
    assert (Hn : (Z.to_nat (cursor - 1) < List.length buffer)%nat)
      by (unfold jslength in H; lia).
    destruct (nth_error buffer (Z.to_nat (cursor - 1))) eqn:Hx.
    + replace (Z.to_nat cursor) with (S (Z.to_nat (cursor - 1))) by lia.
      rewrite (firstn_snoc_nth _ _ _ Hx). apply ends_with_space_last.
    + apply nth_error_None in Hx. lia.
Qed.

Lemma ends_blank_snoc : forall s c, ends_blank (s ++ [c]) = is_blank c.
Proof.
  induction s as [|x s IH]; intro c; [reflexivity|].
  simpl. destruct (s ++ [c]) eqn:E.
  - destruct s; discriminate.
  - rewrite <- E. apply IH.
Qed.

Lemma no_double_space_app : forall a b,
  no_double_space (a ++ b)
  = no_double_space a && no_double_space b
    && negb (ends_blank a && starts_blank b).
Proof.
  induction a as [|x a IH]; intro b; simpl.
  - now rewrite andb_true_r.
  - rewrite IH. destruct a as [|y a]; simpl.
    + destruct (is_blank x), (starts_blank b), (no_double_space b); reflexivity.
    + destruct (is_blank x), (is_blank y), (no_double_space (y :: a)),
        (no_double_space b), (ends_blank (y :: a)), (starts_blank b); reflexivity.
Qed.

Lemma is_blank_space : forall c, is_blank c = true -> is_space c = true.
Proof. intros c H. apply N.eqb_eq in H. now subst. Qed.

Lemma trimStart_head : forall s, starts_blank (trimStart s) = false.
Proof.
  induction s as [|c s IH]; simpl; [reflexivity|].
  destruct (is_space c) eqn:E; [exact IH|].
  simpl. destruct (is_blank c) eqn:B; [|reflexivity].
  apply is_blank_space in B. congruence.
Qed.

Lemma trimStart_snoc : forall s c,
  is_space c = false -> exists s', trimStart (s ++ [c]) = s' ++ [c].
Proof.
  induction s as [|x s IH]; intros c H; simpl.
  - rewrite H. now exists [].
  - destruct (is_space x); [now apply IH|].
    now exists (x :: s).
Qed.

Lemma starts_blank_rev : forall s, starts_blank (rev s) = ends_blank s.
Proof.
  intro s. rewrite <- (rev_involutive s) at 2.
  destruct (rev s) as [|c r]; [reflexivity|].
  simpl rev. now rewrite ends_blank_snoc.
Qed.

Lemma trimEnd_last : forall s, ends_blank (trimEnd s) = false.
Proof.
  intro s. unfold trimEnd. rewrite <- starts_blank_rev, rev_involutive.
  apply trimStart_head.
Qed.

Lemma trimEnd_head : forall s,
  starts_blank s = false -> starts_blank (trimEnd s) = false.
Proof.
  intros [|c s] H; [reflexivity|].
  unfold trimEnd. simpl rev.
  destruct (is_space c) eqn:E.
  - (* a white-space head other than U+0020 may be trimmed away or stay *)
    destruct (trimStart (rev s ++ [c])) as [|y t] eqn:T; [reflexivity|].
    rewrite starts_blank_rev.
    rewrite <- T.
    clear T. induction (rev s) as [|x r IH]; simpl.
    + rewrite E. reflexivity.
    + destruct (is_space x); [exact IH|].
      change (ends_blank ((x :: r) ++ [c]) = false).
      rewrite ends_blank_snoc. exact H.
  - destruct (trimStart_snoc (rev s) c E) as [s' ->].
    rewrite rev_app_distr. exact H.
Qed.

Lemma trim_edges : forall t,
  starts_blank (trim t) = false /\ ends_blank (trim t) = false.
Proof.
  intro t. unfold trim. split.
  - apply trimEnd_head, trimStart_head.
  - apply trimEnd_last.
Qed.

Lemma starts_blank_app : forall a b,
  starts_blank (a ++ b) = match a with [] => starts_blank b | _ => starts_blank a end.
Proof. intros [|x a] b; reflexivity. Qed.

Lemma ends_blank_app : forall a b,
  ends_blank (a ++ b) = match b with [] => ends_blank a | _ => ends_blank b end.
Proof.
  intros a b. destruct b as [|y b]; [now rewrite app_nil_r|].
  induction a as [|x a IH]; [reflexivity|].
  simpl. destruct (a ++ y :: b) eqn:E.
  - destruct a; discriminate.
  - exact IH.
Qed.

(** Inserting a text without blank edges between two halves of a text
    that has no double space gives a text without double space. *)
Lemma no_double_space_insert : forall prefix t suffix,
  no_double_space (prefix ++ suffix) = true ->
  no_double_space t = true ->
  starts_blank t = false -> ends_blank t = false ->
  no_double_space (prefix ++ t ++ suffix) = true.
Proof.
  intros prefix t suffix Hb Ht Hs He.
  destruct t as [|c t]; [exact Hb|].
  rewrite no_double_space_app in Hb.
  apply andb_true_iff in Hb as [Hb _]. apply andb_true_iff in Hb as [Hp Hsuf].
  rewrite !no_double_space_app, Hp, Ht, Hsuf.
  rewrite starts_blank_app, He, Hs.
  now rewrite andb_false_r.
Qed.

(** ** Text merge *)

Lemma setSelectionRange_keeps : forall p s,
  transcribedText (setSelectionRange p s) = transcribedText s
  /\ cursorPositionRef (setSelectionRange p s) = cursorPositionRef s
  /\ isTranscribing (setSelectionRange p s) = isTranscribing s
  /\ providerConfigs (setSelectionRange p s) = providerConfigs s.
Proof.
  intros p s. unfold setSelectionRange.
  destruct (textareaRef s); repeat split; reflexivity.
Qed.

Lemma insertTextAtCursor_text : forall text newText s,
  transcribedText (insertTextAtCursor text newText s)
  = slice text 0 (cursorPositionRef s)
    ++ (if (0 <? jslength (slice text 0 (cursorPositionRef s)))
           && negb (ends_with_space (slice text 0 (cursorPositionRef s)))
        then js " " else js "")
    ++ newText ++ slice_from text (cursorPositionRef s).
Proof.
  intros. unfold insertTextAtCursor.
  now rewrite (proj1 (setSelectionRange_keeps _ _)).
Qed.

Lemma insertTextAtCursor_cursor : forall text newText s,
  cursorPositionRef (insertTextAtCursor text newText s)
  = cursorPositionRef s
    + jslength (if (0 <? jslength (slice text 0 (cursorPositionRef s)))
                   && negb (ends_with_space (slice text 0 (cursorPositionRef s)))
                then js " " else js "")
    + jslength newText.
Proof.
  intros. unfold insertTextAtCursor.
  now rewrite (proj1 (proj2 (setSelectionRange_keeps _ _))).
Qed.

(** The separator the code computes is the one the specification
    describes. *)
Lemma separator_as_specified : forall buffer cursor,
  0 <= cursor <= jslength buffer ->
  (if (0 <? jslength (slice buffer 0 cursor))
      && negb (ends_with_space (slice buffer 0 cursor))
   then js " " else js "")
  = expected_separator buffer cursor.
Proof.
  intros buffer cursor H.
  rewrite slice_prefix by exact H.
  rewrite ends_with_space_prefix by exact H.
  unfold expected_separator, char_before.
  destruct (cursor <=? 0) eqn:E.
  - apply Z.leb_le in E. replace cursor with 0 by lia. reflexivity.
  - apply Z.leb_gt in E.
    assert (L : (0 <? jslength (firstn (Z.to_nat cursor) buffer)) = true).
    { apply Z.ltb_lt. unfold jslength in *. rewrite length_firstn. lia. }
    rewrite L.
    destruct (nth_error buffer (Z.to_nat (cursor - 1))) as [ch|] eqn:Hx.
    + destruct (is_space ch); reflexivity.
    + apply nth_error_None in Hx. unfold jslength in H. lia.
Qed.

(** C1.  For every buffer, every cursor with [0 <= cursor <= length] and
    every text to insert, [insertTextAtCursor] stores
    [prefix ++ separator ++ newText ++ suffix] as the new buffer and
    [cursor + |separator| + |newText|] as the new cursor, where the
    separator is one space exactly when a code unit precedes the cursor
    and is not white space, and is empty at the start of the buffer and
    after white space.  [insert("Hello", 5, "world")] is
    [("Hello world", 11)], [insert("", 0, "Test")] is [("Test", 4)].
    Inserting right after white space adds no separator, and with the
    trimmed transcript that the callers pass it keeps a buffer free of
    two adjacent spaces free of them. *)
Theorem insertTextAtCursor_spec :
  forall (buffer newText : jsstring) (s : App),
    0 <= cursorPositionRef s <= jslength buffer ->
    let cursor := cursorPositionRef s in
    let prefix := firstn (Z.to_nat cursor) buffer in
    let suffix := skipn (Z.to_nat cursor) buffer in
    let separator := expected_separator buffer cursor in
    let s' := insertTextAtCursor buffer newText s in
    transcribedText s' = prefix ++ separator ++ newText ++ suffix
    /\ cursorPositionRef s' = cursor + jslength separator + jslength newText
    /\ (forall ch, char_before buffer cursor = Some ch ->
                   is_space ch = false -> separator = js " ")
    /\ (cursor = 0 -> separator = [])
    /\ (forall ch, char_before buffer cursor = Some ch -> is_space ch = true ->
          separator = []
          /\ transcribedText s' = prefix ++ newText ++ suffix
          /\ forall transcript,
               no_double_space buffer = true ->
               no_double_space (trim transcript) = true ->
               no_double_space
                 (transcribedText (insertTextAtCursor buffer (trim transcript) s))
               = true)
    /\ (let s0 := set_cursorPositionRef 5 s in
        let r := insertTextAtCursor (js "Hello") (js "world") s0 in
        transcribedText r = js "Hello world" /\ cursorPositionRef r = 11)
    /\ (let s0 := set_cursorPositionRef 0 s in
        let r := insertTextAtCursor (js "") (js "Test") s0 in
        transcribedText r = js "Test" /\ cursorPositionRef r = 4).
Proof.
  intros buffer newText s H cursor prefix suffix separator s'.
  assert (Htext : forall t,
             transcribedText (insertTextAtCursor buffer t s)
             = prefix ++ separator ++ t ++ suffix).
  { intro t. rewrite insertTextAtCursor_text.
    rewrite separator_as_specified by exact H.
    rewrite slice_prefix, slice_suffix by exact H. reflexivity. }
  assert (Hsep : forall ch, char_before buffer cursor = Some ch ->
                            separator = if is_space ch then [] else [32%N]).
  { intros ch Hch. unfold separator, expected_separator. now rewrite Hch. }
  split; [apply Htext|].
  split.
  { unfold s'. rewrite insertTextAtCursor_cursor.
    now rewrite separator_as_specified by exact H. }
  split.
  { intros ch Hch Hns. rewrite (Hsep ch Hch), Hns. reflexivity. }
  split.
  { intro H0. unfold separator, expected_separator, char_before.
    now rewrite H0. }
  split.
  { intros ch Hch Hsp.
    assert (E : separator = []) by (now rewrite (Hsep ch Hch), Hsp).
    split; [exact E|].
    split; [unfold s'; now rewrite Htext, E|].
    intros transcript Hb Ht. rewrite Htext, E. simpl app.
    destruct (trim_edges transcript) as [Hs He].
    apply no_double_space_insert; try assumption.
    unfold prefix, suffix. now rewrite firstn_skipn. }
  split.
  { split.
    - rewrite insertTextAtCursor_text. reflexivity.
    - rewrite insertTextAtCursor_cursor. reflexivity. }
  split.
  - rewrite insertTextAtCursor_text. reflexivity.
  - rewrite insertTextAtCursor_cursor. reflexivity.
Qed.

Lemma insertTextAtCursor_spec_witness :
  0 <= cursorPositionRef (set_cursorPositionRef 5 initialApp) <= jslength (js "Hello")
  /\ transcribedText
       (insertTextAtCursor (js "Hello") (js "world")
          (set_cursorPositionRef 5 initialApp)) = js "Hello world"
  /\ cursorPositionRef
       (insertTextAtCursor (js "Hello") (js "world")
          (set_cursorPositionRef 5 initialApp)) = 11.
Proof.
  assert (H : 0 <= cursorPositionRef (set_cursorPositionRef 5 initialApp)
              <= jslength (js "Hello")) by (vm_compute; split; discriminate).
  split; [exact H|].
  destruct (insertTextAtCursor_spec (js "Hello") (js "world")
              (set_cursorPositionRef 5 initialApp) H) as (Ht & Hc & _).
  split; [exact Ht | exact Hc].
Defined.

(** ** History store *)

Lemma slice_take {A : Type} : forall (l : list A) (n : Z),
  0 <= n -> slice l 0 n = firstn (Z.to_nat n) l.
Proof.
  intros l n H.
  destruct (Z.le_gt_cases n (Z.of_nat (List.length l))) as [Hle|Hgt].
  - apply slice_prefix. lia.
  - unfold slice, clamp_index.
    replace (0 <? 0) with false by reflexivity.
    destruct (n <? 0) eqn:E; [apply Z.ltb_lt in E; lia|].
    replace (Z.min 0 (Z.of_nat (List.length l))) with 0 by lia.
    replace (Z.min n (Z.of_nat (List.length l))) with (Z.of_nat (List.length l)) by lia.
    replace (Z.max (Z.of_nat (List.length l) - 0) 0) with (Z.of_nat (List.length l)) by lia.
    simpl skipn. rewrite Nat2Z.id.
    rewrite firstn_all. symmetry. apply firstn_all2. lia.
Qed.

Lemma is_status_text_prefixes : forall text,
  is_status_text text = existsb (startsWith text) STATUS_PREFIXES.
Proof.
  intro text. unfold is_status_text, STATUS_PREFIXES. simpl existsb.
  destruct (startsWith text (js "Fehler")), (startsWith text (js "Bitte")),
    (startsWith text (js "API")), (startsWith text (js "Keine")),
    (startsWith text (js "Mikrofon")), (startsWith text (js "Verbindung"));
    reflexivity.
Qed.

Lemma recorded_head : forall limit item prev,
  exists rest, recorded limit item prev = item :: rest.
Proof.
  intros limit item prev. unfold recorded.
  destruct (0 <? limit) eqn:E; [|eauto].
  apply Z.ltb_lt in E.
  replace (Z.to_nat limit) with (S (Z.to_nat (limit - 1))) by lia.
  simpl. eauto.
Qed.

Lemma saveToHistory_accept : forall c text now_id now_ts s,
  c_historyEnabled c = true -> 5 <= jslength text ->
  is_status_text text = false ->
  (forall latest rest, history s = latest :: rest -> h_text latest <> text) ->
  saveToHistory c text now_id now_ts s
  = let h := recorded (c_historyLimit c)
               {| h_id := now_id; h_text := text; h_timestamp := now_ts |}
               (history s) in
    s |> store_history h |> set_history h.
Proof.
  intros c text now_id now_ts s He Hl Hs Hd. unfold saveToHistory.
  rewrite He, Hs.
  assert (T : truthy text = true).
  { destruct text; [unfold jslength in Hl; simpl in Hl; lia | reflexivity]. }
  rewrite T. simpl negb. simpl orb.
  destruct (jslength text <? 5) eqn:E; [apply Z.ltb_lt in E; lia|].
  assert (D : match history s with
              | latest :: _ => str_eqb (h_text latest) text
              | [] => false
              end = false).
  { destruct (history s) as [|latest rest] eqn:Hh; [reflexivity|].
    destruct (str_eqb (h_text latest) text) eqn:Eq; [|reflexivity].
    apply str_eqb_eq in Eq. exfalso. exact (Hd latest rest eq_refl Eq). }
  rewrite D. unfold recorded.
  destruct (0 <? c_historyLimit c) eqn:L; [|reflexivity].
  apply Z.ltb_lt in L. rewrite slice_take by lia. reflexivity.
Qed.

Lemma saveToHistory_duplicate : forall c text now_id now_ts s latest rest,
  history s = latest :: rest -> h_text latest = text ->
  saveToHistory c text now_id now_ts s = s.
Proof.
  intros c text now_id now_ts s latest rest Hh Ht. unfold saveToHistory.
  destruct (negb (c_historyEnabled c) || negb (truthy text) || (jslength text <? 5));
    [reflexivity|].
  destruct (is_status_text text); [reflexivity|].
  rewrite Hh, Ht, str_eqb_refl. reflexivity.
Qed.

(** C5.  [saveToHistory] changes nothing when the history is disabled,
    when the text has fewer than 5 code units, when the text starts with
    one of the six fixed status prefixes, or when the text is the text
    of the most recent item; otherwise it puts one new item in front,
    cuts the list to the limit when the limit is positive, and stores
    the list.  Recording the same text a second time right after the
    first changes nothing more. *)
Theorem saveToHistory_spec :
  forall (c : Snapshot) (text : jsstring) (now_id now_ts : Z) (s : App),
    let s' := saveToHistory c text now_id now_ts s in
    let newItem := {| h_id := now_id; h_text := text; h_timestamp := now_ts |} in
    (c_historyEnabled c = false -> s' = s)
    /\ (jslength text < 5 -> s' = s)
    /\ (forall p, In p STATUS_PREFIXES -> startsWith text p = true -> s' = s)
    /\ (forall latest rest,
          history s = latest :: rest -> h_text latest = text -> s' = s)
    /\ (c_historyEnabled c = true -> 5 <= jslength text ->
        (forall p, In p STATUS_PREFIXES -> startsWith text p = false) ->
        (forall latest rest, history s = latest :: rest -> h_text latest <> text) ->
        history s'
        = (if 0 <? c_historyLimit c
           then firstn (Z.to_nat (c_historyLimit c)) (newItem :: history s)
           else newItem :: history s)
        /\ (0 < c_historyLimit c ->
            Z.of_nat (List.length (history s')) <= c_historyLimit c)
        /\ stored_transcript_history (localStorage s') = Some (history s'))
    /\ (forall now_id' now_ts', saveToHistory c text now_id' now_ts' s' = s').
Proof.
  intros c text now_id now_ts s s' newItem.
  assert (Hst : is_status_text text = false ->
                forall p, In p STATUS_PREFIXES -> startsWith text p = false).
  { intros Hn p Hin. rewrite is_status_text_prefixes in Hn.
    destruct (startsWith text p) eqn:E; [|reflexivity].
    assert (X : existsb (startsWith text) STATUS_PREFIXES = true)
      by (apply existsb_exists; eauto).
    congruence. }
  assert (Hst' : (forall p, In p STATUS_PREFIXES -> startsWith text p = false) ->
                 is_status_text text = false).
  { intro Hall. rewrite is_status_text_prefixes.
    destruct (existsb (startsWith text) STATUS_PREFIXES) eqn:E; [|reflexivity].
    apply existsb_exists in E as (p & Hin & Hp). rewrite (Hall p Hin) in Hp.
    discriminate. }
  assert (Hdis : c_historyEnabled c = false -> s' = s).
  { intro H. unfold s', saveToHistory. now rewrite H. }
  assert (Hshort : jslength text < 5 -> s' = s).
  { intro H. unfold s', saveToHistory. apply Z.ltb_lt in H. rewrite H.
    now rewrite !orb_true_r. }
  assert (Hpre : is_status_text text = true -> s' = s).
  { intro H. unfold s', saveToHistory. rewrite H.
    now destruct (negb (c_historyEnabled c) || negb (truthy text)
                  || (jslength text <? 5)). }
  split; [exact Hdis|]. split; [exact Hshort|].
  split.
  { intros p Hin Hp. apply Hpre. rewrite is_status_text_prefixes.
    apply existsb_exists. eauto. }
  split.
  { intros latest rest Hh Ht. unfold s'.
    eapply saveToHistory_duplicate; eassumption. }
  split.
  { intros He Hl Hs Hd. unfold s'.
    rewrite saveToHistory_accept by auto. cbv zeta.
    fold newItem. unfold recorded. simpl history.
    split; [reflexivity|]. split; [|reflexivity].
    intro Hpos. destruct (0 <? c_historyLimit c) eqn:L;
      [|apply Z.ltb_ge in L; lia].
    rewrite length_firstn. lia. }
  intros now_id' now_ts'.
  destruct (c_historyEnabled c) eqn:He;
    [|unfold saveToHistory at 1; now rewrite He].
  destruct (Z.lt_ge_cases (jslength text) 5) as [Hl|Hl].
  { unfold saveToHistory at 1. apply Z.ltb_lt in Hl. rewrite Hl.
    now rewrite !orb_true_r. }
  destruct (is_status_text text) eqn:Hs.
  { unfold saveToHistory at 1. rewrite Hs.
    now destruct (negb (c_historyEnabled c) || negb (truthy text)
                  || (jslength text <? 5)). }
  destruct (history s) as [|latest rest] eqn:Hh.
  - (* first call accepted on an empty history *)
    assert (Hacc : s' = let h := recorded (c_historyLimit c) newItem (history s) in
                        s |> store_history h |> set_history h).
    { unfold s'. apply saveToHistory_accept; auto.
      intros l r Hlr. rewrite Hh in Hlr. discriminate. }
    destruct (recorded_head (c_historyLimit c) newItem (history s)) as [r Hr].
    eapply saveToHistory_duplicate with (latest := newItem) (rest := r);
      [|reflexivity].
    rewrite Hacc. cbv zeta. simpl history. exact Hr.
  - destruct (str_eqb (h_text latest) text) eqn:Eq.
    + apply str_eqb_eq in Eq.
      assert (Hs' : s' = s)
        by (unfold s'; eapply saveToHistory_duplicate; eassumption).
      rewrite Hs'. eapply saveToHistory_duplicate; eassumption.
    + assert (Hacc : s' = let h := recorded (c_historyLimit c) newItem (history s) in
                          s |> store_history h |> set_history h).
      { unfold s'. apply saveToHistory_accept; auto.
        intros l r Hlr Ht. rewrite Hh in Hlr. injection Hlr as <- <-.
        rewrite Ht, str_eqb_refl in Eq. discriminate. }
      destruct (recorded_head (c_historyLimit c) newItem (history s)) as [r Hr].
      eapply saveToHistory_duplicate with (latest := newItem) (rest := r);
        [|reflexivity].
      rewrite Hacc. cbv zeta. simpl history. exact Hr.
Qed.

Lemma saveToHistory_spec_witness :
  history (saveToHistory initialSnapshot (js "hello world")
             1700000000000 1700000000000 initialApp)
  = [ {| h_id := 1700000000000; h_text := js "hello world";
         h_timestamp := 1700000000000 |} ]
  /\ saveToHistory initialSnapshot (js "hello world") 1700000000500 1700000000500
       (saveToHistory initialSnapshot (js "hello world")
          1700000000000 1700000000000 initialApp)
     = saveToHistory initialSnapshot (js "hello world")
         1700000000000 1700000000000 initialApp.
Proof.
  destruct (saveToHistory_spec initialSnapshot (js "hello world")
              1700000000000 1700000000000 initialApp)
    as (_ & _ & _ & _ & Hacc & Hidem).
  split.
  - refine (proj1 (Hacc eq_refl _ _ _)).
    + vm_compute. discriminate.
    + intros p Hin. repeat (destruct Hin as [<-|Hin]; [reflexivity|]).
      destruct Hin.
    + intros latest rest Hh. discriminate Hh.
  - apply Hidem.
Defined.

(** ** Renders *)

Lemma refreshStartRecording_fields : forall s,
  let s' := refreshStartRecording s in
  isRecording s' = isRecording s /\ isTranscribing s' = isTranscribing s
  /\ transcribedText s' = transcribedText s
  /\ selectedProvider s' = selectedProvider s
  /\ providerConfigs s' = providerConfigs s
  /\ recorders s' = recorders s
  /\ pendingMicrophone s' = pendingMicrophone s
  /\ pendingTranscription s' = pendingTranscription s
  /\ lastHotkeyTimeRef s' = lastHotkeyTimeRef s
  /\ cursorPositionRef s' = cursorPositionRef s
  /\ mediaRecorderRef s' = mediaRecorderRef s
  /\ requests s' = requests s.
Proof.
  intro s. unfold refreshStartRecording.
  destruct (str_eqb _ _ && str_eqb _ _); repeat split; reflexivity.
Qed.

Lemma commit_fields : forall s,
  let s' := commit s in
  isRecording s' = isRecording s /\ isTranscribing s' = isTranscribing s
  /\ transcribedText s' = transcribedText s
  /\ selectedProvider s' = selectedProvider s
  /\ providerConfigs s' = providerConfigs s
  /\ recorders s' = recorders s
  /\ pendingMicrophone s' = pendingMicrophone s
  /\ pendingTranscription s' = pendingTranscription s
  /\ lastHotkeyTimeRef s' = lastHotkeyTimeRef s
  /\ cursorPositionRef s' = cursorPositionRef s
  /\ mediaRecorderRef s' = mediaRecorderRef s
  /\ requests s' = requests s.
Proof.
  intro s. unfold commit. apply (refreshStartRecording_fields s).
Qed.

Lemma commit_refs : forall s,
  let s' := commit s in
  isRecordingRef s' = isRecording s
  /\ isTranscribingRef s' = isTranscribing s
  /\ transcribedTextRef s' = transcribedText s
  /\ selectedProviderRef s' = selectedProvider s
  /\ currentConfigRef s' = config_of (providerConfigs s) (selectedProvider s)
  /\ apiKeyRef s' = apiKey (config_of (providerConfigs s) (selectedProvider s)).
Proof.
  intro s. unfold commit, refreshStartRecording.
  destruct (str_eqb _ _ && str_eqb _ _); repeat split; reflexivity.
Qed.




(** ** Transcription runs *)

Lemma on_transcription_error_keeps : forall p e s,
  let s' := on_transcription_error p e s in
  pendingTranscription s' = pendingTranscription s
  /\ cursorPositionRef s' = cursorPositionRef s
  /\ recorders s' = recorders s
  /\ isRecording s' = isRecording s.
Proof.
  intros p e s. unfold on_transcription_error.
  destruct (is_auth_message (error_message e)); repeat split; reflexivity.
Qed.

Lemma insertTextAtCursor_keeps : forall text newText s,
  let s' := insertTextAtCursor text newText s in
  pendingTranscription s' = pendingTranscription s
  /\ providerConfigs s' = providerConfigs s
  /\ recorders s' = recorders s
  /\ isRecording s' = isRecording s.
Proof.
  intros text newText s. unfold insertTextAtCursor, setSelectionRange.
  cbn [textareaRef set_cursorPositionRef set_transcribedText].
  destruct (textareaRef s); repeat split; reflexivity.
Qed.

Lemma transcribeAudio_settle_pending : forall c reply s,
  pendingTranscription (transcribeAudio_settle c reply s) = pendingTranscription s.
Proof.
  intros c reply s. unfold transcribeAudio_settle.
  cbn [pendingTranscription set_isTranscribing].
  destruct (transcribeWithProvider _ _ reply) as [transcript|e].
  - destruct (is_no_speech transcript).
    + destruct (negb (truthy (c_transcribedText c))); destruct reply; reflexivity.
    + rewrite (proj1 (insertTextAtCursor_keeps _ _ _)). destruct reply; reflexivity.
  - rewrite (proj1 (on_transcription_error_keeps _ _ _)). destruct reply; reflexivity.
Qed.

Lemma transcribeAudioFromHotkey_settle_pending : forall k p config reply s,
  pendingTranscription (transcribeAudioFromHotkey_settle k p config reply s)
  = pendingTranscription s.
Proof.
  intros k p config reply s. unfold transcribeAudioFromHotkey_settle.
  cbn [pendingTranscription set_isTranscribing].
  destruct (transcribeWithProvider _ _ reply) as [transcript|e].
  - destruct (is_no_speech transcript).
    + match goal with |- context [if ?b then _ else _] => destruct b end;
        destruct reply; reflexivity.
    + unfold setSelectionRange.
      match goal with |- context [match ?b with Some _ => _ | None => _ end] =>
        destruct b end; destruct reply; reflexivity.
  - rewrite (proj1 (on_transcription_error_keeps _ _ _)). destruct reply; reflexivity.
Qed.

(** C2.  Whatever the provider call does (it returns a text, it returns
    the no-speech sentinel, it throws anything), the part of
    [transcribeAudio] and of [transcribeAudioFromHotkey] that runs when
    the call settles leaves [isTranscribing] false, in whatever state
    the component is by then; so does the event that settles a pending
    run, after which the ref read by the hotkey is false as well and the
    run is no longer pending.  A run reaches the provider with
    [isTranscribing] true; a run that finds no key never calls the
    provider and leaves the flag as it found it. *)
Theorem transcribing_flag_cleared :
  forall (reply : ProviderReply) (s : App),
    (forall c, isTranscribing (transcribeAudio_settle c reply s) = false)
    /\ (forall k p config,
          isTranscribing (transcribeAudioFromHotkey_settle k p config reply s) = false)
    /\ (forall now w rest,
          pendingTranscription s = w :: rest ->
          let s' := step (now, ProviderSettled reply) s in
          isTranscribing s' = false /\ isTranscribingRef s' = false
          /\ pendingTranscription s' = rest)
    /\ (forall c, truthy (c_apiKey c) = true ->
          isTranscribing (transcribeAudio_begin c s) = true
          /\ pendingTranscription (transcribeAudio_begin c s)
             = pendingTranscription s ++ [tx_transcribeAudio c])
    /\ (truthy (apiKeyRef s) = true ->
          isTranscribing (transcribeAudioFromHotkey_begin s) = true
          /\ pendingTranscription (transcribeAudioFromHotkey_begin s)
             = pendingTranscription s
               ++ [tx_transcribeAudioFromHotkey (apiKeyRef s)
                     (selectedProviderRef s) (currentConfigRef s)])
    /\ (forall c, truthy (c_apiKey c) = false ->
          isTranscribing (transcribeAudio_begin c s) = isTranscribing s
          /\ pendingTranscription (transcribeAudio_begin c s)
             = pendingTranscription s)
    /\ (truthy (apiKeyRef s) = false ->
          isTranscribing (transcribeAudioFromHotkey_begin s) = isTranscribing s
          /\ pendingTranscription (transcribeAudioFromHotkey_begin s)
             = pendingTranscription s).
Proof.
  intros reply s.
  split; [reflexivity|]. split; [reflexivity|].
  split.
  { intros now w rest Hp s'.
    destruct (commit_fields (handle now (ProviderSettled reply) s))
      as (_ & Ht & _ & _ & _ & _ & _ & Hpt & _).
    destruct (commit_refs (handle now (ProviderSettled reply) s))
      as (_ & Htr & _).
    unfold s', step. cbn [fst snd]. rewrite Ht, Htr, Hpt.
    unfold handle. rewrite Hp.
    destruct w as [c|k p config].
    - rewrite transcribeAudio_settle_pending. repeat split; reflexivity.
    - rewrite transcribeAudioFromHotkey_settle_pending. repeat split; reflexivity. }
  split.
  { intros c Hk. unfold transcribeAudio_begin. rewrite Hk. split; reflexivity. }
  split.
  { intro Hk. unfold transcribeAudioFromHotkey_begin. rewrite Hk.
    split; reflexivity. }
  split.
  - intros c Hk. unfold transcribeAudio_begin. rewrite Hk. split; reflexivity.
  - intro Hk. unfold transcribeAudioFromHotkey_begin. rewrite Hk. split; reflexivity.
Qed.

Lemma transcribing_flag_cleared_witness :
  isTranscribing (run BUTTON_RECORDING openaiApp) = true
  /\ isTranscribing
       (step (5000, ProviderSettled (request_rejected (js "Failed to fetch")))
          (run BUTTON_RECORDING openaiApp)) = false.
Proof.
  split; [vm_compute; reflexivity|].
  refine (proj1 (proj1 (proj2 (proj2
    (transcribing_flag_cleared (request_rejected (js "Failed to fetch"))
       (run BUTTON_RECORDING openaiApp))))
    5000 (tx_transcribeAudio (startRecordingMemo openaiApp)) [] _)).
  vm_compute. reflexivity.
Defined.

(** ** Failures of the provider call *)

(** What the [catch] block does with a message that it takes for an
    authentication failure. *)
Lemma auth_message_classified : forall provider e s,
  is_auth_message (error_message e) = true ->
  let s' := on_transcription_error provider e s in
  transcribedText s' = MSG_INVALID_KEY
  /\ apiKeyStatus (config_of (providerConfigs s') provider) = invalid.
Proof.
  intros provider e s H. unfold on_transcription_error. rewrite H.
  split; [reflexivity|]. destruct provider; reflexivity.
Qed.

Lemma other_message_reported : forall provider e s,
  is_auth_message (error_message e) = false ->
  let s' := on_transcription_error provider e s in
  transcribedText s' = js "Fehler: " ++ error_message e
  /\ providerConfigs s' = providerConfigs s.
Proof.
  intros provider e s H. unfold on_transcription_error. rewrite H.
  split; reflexivity.
Qed.

(** C7 (the code departs from the claim).  The HTTP status of a
    response never reaches the decision of the [catch] block:
    [transcribeWithProvider] gives the same outcome for any two statuses,
    and a response with status 401 whose error message is
    "Incorrect API key provided" ends, on the button path and on the
    hotkey path alike, with the buffer "Fehler: Incorrect API key
    provided" and the status of the provider still [valid]. *)
Theorem http_401_not_classified :
  (forall p config status status' d,
     transcribeWithProvider p config (response status d)
     = transcribeWithProvider p config (response status' d))
  /\ apiKeyStatus (config_of (providerConfigs openaiApp) openai) = valid
  /\ transcribedText (transcribeAudio_settle (snapshot openaiApp) AUTH_401 openaiApp)
     = js "Fehler: Incorrect API key provided"
  /\ apiKeyStatus
       (config_of
          (providerConfigs
             (transcribeAudio_settle (snapshot openaiApp) AUTH_401 openaiApp))
          openai) = valid
  /\ transcribedText
       (transcribeAudioFromHotkey_settle (apiKeyRef openaiApp)
          (selectedProviderRef openaiApp) (currentConfigRef openaiApp)
          AUTH_401 openaiApp)
     = js "Fehler: Incorrect API key provided"
  /\ apiKeyStatus
       (config_of
          (providerConfigs
             (transcribeAudioFromHotkey_settle (apiKeyRef openaiApp)
                (selectedProviderRef openaiApp) (currentConfigRef openaiApp)
                AUTH_401 openaiApp))
          openai) = valid
  /\ transcribedText
       (step (5000, ProviderSettled AUTH_401) (run BUTTON_RECORDING openaiApp))
     = js "Fehler: Incorrect API key provided"
  /\ js "Fehler: Incorrect API key provided" <> MSG_INVALID_KEY.
Proof.
  split; [reflexivity|].
  split_all; try match goal with |- _ = _ => vm_compute; reflexivity end.
  vm_compute. discriminate.
Qed.

(** ** The three outcomes of a run *)

Lemma transcribeAudio_settle_text : forall c reply s,
  transcribedText (transcribeAudio_settle c reply s)
  = match transcribeWithProvider (c_selectedProvider c) (c_currentConfig c) reply with
    | returned transcript =>
        if is_no_speech transcript
        then if truthy (c_transcribedText c) then transcribedText s else MSG_NO_SPEECH
        else transcribedText
               (insertTextAtCursor (c_transcribedText c) (trim transcript) s)
    | thrown e =>
        if is_auth_message (error_message e) then MSG_INVALID_KEY
        else js "Fehler: " ++ error_message e
    end.
Proof.
  intros c reply s. unfold transcribeAudio_settle.
  cbn [transcribedText set_isTranscribing].
  destruct (transcribeWithProvider _ _ reply) as [transcript|e].
  - destruct (is_no_speech transcript).
    + destruct (truthy (c_transcribedText c)); destruct reply; reflexivity.
    + rewrite !insertTextAtCursor_text. destruct reply; reflexivity.
  - unfold on_transcription_error.
    destruct (is_auth_message (error_message e)); destruct reply; reflexivity.
Qed.

Lemma transcribeAudio_settle_cursor : forall c reply s,
  cursorPositionRef (transcribeAudio_settle c reply s)
  = match transcribeWithProvider (c_selectedProvider c) (c_currentConfig c) reply with
    | returned transcript =>
        if is_no_speech transcript then cursorPositionRef s
        else cursorPositionRef
               (insertTextAtCursor (c_transcribedText c) (trim transcript) s)
    | thrown e => cursorPositionRef s
    end.
Proof.
  intros c reply s. unfold transcribeAudio_settle.
  cbn [cursorPositionRef set_isTranscribing].
  destruct (transcribeWithProvider _ _ reply) as [transcript|e].
  - destruct (is_no_speech transcript).
    + destruct (negb (truthy (c_transcribedText c))); destruct reply; reflexivity.
    + rewrite !insertTextAtCursor_cursor. destruct reply; reflexivity.
  - rewrite (proj1 (proj2 (on_transcription_error_keeps _ _ _))).
    destruct reply; reflexivity.
Qed.

(** On the hotkey path the insertion is the one of
    [insertTextAtCursor], applied to the buffer read from the ref. *)
Lemma transcribeAudioFromHotkey_settle_text : forall k p config reply s,
  transcribedText (transcribeAudioFromHotkey_settle k p config reply s)
  = match transcribeWithProvider p (with_key config k) reply with
    | returned transcript =>
        if is_no_speech transcript
        then if truthy (transcribedTextRef s) then transcribedText s else MSG_NO_SPEECH
        else transcribedText
               (insertTextAtCursor (transcribedTextRef s) (trim transcript) s)
    | thrown e =>
        if is_auth_message (error_message e) then MSG_INVALID_KEY
        else js "Fehler: " ++ error_message e
    end.
Proof.
  intros k p config reply s. unfold transcribeAudioFromHotkey_settle.
  cbn [transcribedText set_isTranscribing].
  destruct (transcribeWithProvider _ _ reply) as [transcript|e].
  - destruct (is_no_speech transcript).
    + destruct reply; cbn [transcribedTextRef send set_requests];
        destruct (truthy (transcribedTextRef s)); reflexivity.
    + rewrite insertTextAtCursor_text.
      destruct reply; cbn [transcribedTextRef cursorPositionRef send set_requests];
        rewrite (proj1 (setSelectionRange_keeps _ _)); reflexivity.
  - unfold on_transcription_error.
    destruct (is_auth_message (error_message e)); destruct reply; reflexivity.
Qed.

Lemma transcribeAudioFromHotkey_settle_cursor : forall k p config reply s,
  cursorPositionRef (transcribeAudioFromHotkey_settle k p config reply s)
  = match transcribeWithProvider p (with_key config k) reply with
    | returned transcript =>
        if is_no_speech transcript then cursorPositionRef s
        else cursorPositionRef
               (insertTextAtCursor (transcribedTextRef s) (trim transcript) s)
    | thrown e => cursorPositionRef s
    end.
Proof.
  intros k p config reply s. unfold transcribeAudioFromHotkey_settle.
  cbn [cursorPositionRef set_isTranscribing].
  destruct (transcribeWithProvider _ _ reply) as [transcript|e].
  - destruct (is_no_speech transcript).
    + destruct reply; cbn [transcribedTextRef send set_requests];
        destruct (negb (truthy (transcribedTextRef s))); reflexivity.
    + rewrite insertTextAtCursor_cursor.
      destruct reply; cbn [transcribedTextRef cursorPositionRef send set_requests];
        rewrite (proj1 (proj2 (setSelectionRange_keeps _ _))); reflexivity.
  - rewrite (proj1 (proj2 (on_transcription_error_keeps _ _ _))).
    destruct reply; reflexivity.
Qed.

(** The hotkey path keeps the three outcomes apart on the live buffer:
    when the ref mirrors the buffer, a transcript with the sentinel
    leaves a non-empty buffer and the cursor alone and turns an empty
    buffer into the no-speech message. *)
Lemma hotkey_no_speech_on_live_buffer : forall k p config reply s transcript,
  transcribedTextRef s = transcribedText s ->
  transcribeWithProvider p (with_key config k) reply = returned transcript ->
  is_no_speech transcript = true ->
  let s' := transcribeAudioFromHotkey_settle k p config reply s in
  cursorPositionRef s' = cursorPositionRef s
  /\ (transcribedText s <> [] -> transcribedText s' = transcribedText s)
  /\ (transcribedText s = [] -> transcribedText s' = MSG_NO_SPEECH).
Proof.
  intros k p config reply s transcript Href Hr Hn s'. unfold s'.
  rewrite transcribeAudioFromHotkey_settle_text,
    transcribeAudioFromHotkey_settle_cursor, Hr, Hn, Href.
  split; [reflexivity|]. split; intro H.
  - destruct (transcribedText s); [congruence | reflexivity].
  - now rewrite H.
Qed.

(** The button path does the same with the buffer of the render its
    closure belongs to. *)
Lemma button_no_speech_on_rendered_buffer : forall c reply s transcript,
  transcribeWithProvider (c_selectedProvider c) (c_currentConfig c) reply
  = returned transcript ->
  is_no_speech transcript = true ->
  let s' := transcribeAudio_settle c reply s in
  cursorPositionRef s' = cursorPositionRef s
  /\ (c_transcribedText c <> [] -> transcribedText s' = transcribedText s)
  /\ (c_transcribedText c = [] -> transcribedText s' = MSG_NO_SPEECH).
Proof.
  intros c reply s transcript Hr Hn s'. unfold s'.
  rewrite transcribeAudio_settle_text, transcribeAudio_settle_cursor, Hr, Hn.
  split; [reflexivity|]. split; intro H.
  - destruct (c_transcribedText c); [congruence | reflexivity].
  - now rewrite H.
Qed.

(** C9 (the code departs from the claim on the button path).  A
    recording is started with the button while the buffer is empty, the
    user types "abc" while it runs, the recording is stopped with the
    button and the provider answers with the sentinel: the buffer "abc"
    is replaced by the no-speech message, because the run tests the
    buffer of the render in which the recording was started.  When the
    provider answers "world" instead, the buffer becomes "world" and
    "abc" is lost.  The same events through the hotkey, which reads the
    buffer through a ref, leave "abc" alone, respectively give
    "worldabc". *)
Theorem no_speech_overwrites_typed_text :
  transcribedText (run TYPED_WHILE_RECORDING_BUTTON geminiApp) = js "abc"
  /\ transcribedText
       (step (5000, ProviderSettled (answer NO_SPEECH_SENTINEL))
          (run TYPED_WHILE_RECORDING_BUTTON geminiApp)) = MSG_NO_SPEECH
  /\ transcribedText
       (step (5000, ProviderSettled (answer (js "world")))
          (run TYPED_WHILE_RECORDING_BUTTON geminiApp)) = js "world"
  /\ transcribedText (run TYPED_WHILE_RECORDING_HOTKEY geminiApp) = js "abc"
  /\ transcribedText
       (step (5000, ProviderSettled (answer NO_SPEECH_SENTINEL))
          (run TYPED_WHILE_RECORDING_HOTKEY geminiApp)) = js "abc"
  /\ transcribedText
       (step (5000, ProviderSettled (answer (js "world")))
          (run TYPED_WHILE_RECORDING_HOTKEY geminiApp)) = js "worldabc".
Proof.
  split_all; vm_compute; reflexivity.
Qed.

(** ** Start signals *)

(** The button path rejects a start without a key with the placeholder
    and nothing else. *)
Lemma startRecording_without_key : forall c s,
  truthy (c_apiKey c) = false ->
  startRecording c s = set_transcribedText MSG_NO_API_KEY s.
Proof.
  intros c s H. unfold startRecording. now rewrite H.
Qed.


(** The hotkey path without a key, outside the cooldown and while not
    recording: the window is shown, the time stamp is taken, and that
    is all. *)
Lemma hotkeyCallback_without_key : forall now s,
  COOLDOWN_MS <= now - lastHotkeyTimeRef s ->
  isRecordingRef s = false ->
  truthy (apiKeyRef s) = false ->
  hotkeyCallback now s = set_windowShown true (set_lastHotkeyTimeRef now s).
Proof.
  intros now s Hc Hr Hk. unfold hotkeyCallback.
  destruct (now - lastHotkeyTimeRef s <? COOLDOWN_MS) eqn:E;
    [apply Z.ltb_lt in E; lia|].
  cbn [isRecordingRef apiKeyRef isTranscribingRef transcribedTextRef
       set_windowShown set_lastHotkeyTimeRef mediaRecorderRef].
  now rewrite Hr, Hk.
Qed.

(** C4 (the code departs from the claim on the hotkey path).  In the
    component at its first start no provider has a key.  A click on the
    record button puts the placeholder into the buffer and starts
    nothing.  A press of the hotkey starts nothing either, but leaves
    the buffer as it was, empty: no placeholder is produced. *)
Theorem hotkey_without_key_leaves_buffer :
  c_apiKey (snapshot initialApp) = [] /\ apiKeyRef initialApp = []
  /\ transcribedText (step (1000, ClickRecordButton) initialApp) = MSG_NO_API_KEY
  /\ pendingMicrophone (step (1000, ClickRecordButton) initialApp) = []
  /\ recorders (step (1000, ClickRecordButton) initialApp) = []
  /\ isRecording (step (1000, ClickRecordButton) initialApp) = false
  /\ isTranscribing (step (1000, ClickRecordButton) initialApp) = false
  /\ transcribedText (step (1000, HotkeyPressed) initialApp) = []
  /\ pendingMicrophone (step (1000, HotkeyPressed) initialApp) = []
  /\ recorders (step (1000, HotkeyPressed) initialApp) = []
  /\ isRecording (step (1000, HotkeyPressed) initialApp) = false
  /\ isTranscribing (step (1000, HotkeyPressed) initialApp) = false
  /\ transcribedText (step (1000, HotkeyPressed) initialApp) <> MSG_NO_API_KEY.
Proof.
  split_all; try match goal with |- _ = _ => vm_compute; reflexivity end.
  vm_compute. discriminate.
Qed.

Lemma mark_stopped_length : forall rs index,
  List.length (mark_stopped rs index) = List.length rs.
Proof.
  induction rs as [|r rs IH]; intros [|i]; simpl; try reflexivity.
  now rewrite IH.
Qed.












(** ** Credential and model registry *)

Lemma config_of_with_config : forall cs p q c,
  config_of (with_config cs p c) q = if provider_eqb p q then c else config_of cs q.
Proof. intros cs [] [] c; reflexivity. Qed.

Lemma updateProviderConfig_config : forall p u s q,
  config_of (providerConfigs (updateProviderConfig p u s)) q
  = if provider_eqb p q
    then spread (config_of (providerConfigs s) p) u
    else config_of (providerConfigs s) q.
Proof.
  intros. unfold updateProviderConfig. cbn [providerConfigs set_providerConfigs].
  apply config_of_with_config.
Qed.

Lemma provider_eqb_refl : forall p, provider_eqb p p = true.
Proof. intros []; reflexivity. Qed.

Lemma fetchModelsForProvider_short : forall configs provider reply s,
  jslength (apiKey (config_of configs provider)) < 10 ->
  fetchModelsForProvider configs provider reply s = s.
Proof.
  intros configs provider reply s H. unfold fetchModelsForProvider.
  apply Z.ltb_lt in H. rewrite H. now rewrite orb_true_r.
Qed.

Lemma long_key_passes : forall key,
  10 <= jslength key -> negb (truthy key) || (jslength key <? 10) = false.
Proof.
  intros key H. destruct (jslength key <? 10) eqn:E;
    [apply Z.ltb_lt in E; lia|].
  destruct key; [unfold jslength in H; simpl in H; lia | reflexivity].
Qed.

(** The configuration of [provider] after a model fetch that is not
    refused at the entry. *)
Lemma fetchModelsForProvider_config : forall configs provider reply s,
  10 <= jslength (apiKey (config_of configs provider)) ->
  config_of (providerConfigs (fetchModelsForProvider configs provider reply s))
    provider
  = match listed_models provider reply with
    | Some models =>
        spread (spread (config_of (providerConfigs s) provider) (upd_loading true))
          (upd_fetched models)
    | None =>
        spread (spread (config_of (providerConfigs s) provider) (upd_loading true))
          (upd_loading false)
    end.
Proof.
  intros configs provider reply s H. unfold fetchModelsForProvider.
  rewrite long_key_passes by exact H.
  destruct (listed_models provider reply) as [models|];
    rewrite updateProviderConfig_config, provider_eqb_refl;
    destruct provider; cbn [providerConfigs send set_requests];
    rewrite updateProviderConfig_config; reflexivity.
Qed.

Lemma fetchModelsForProvider_others : forall configs provider reply s q,
  provider_eqb provider q = false ->
  config_of (providerConfigs (fetchModelsForProvider configs provider reply s)) q
  = config_of (providerConfigs s) q.
Proof.
  intros configs provider reply s q H. unfold fetchModelsForProvider.
  destruct (negb _ || _); [reflexivity|].
  destruct (listed_models provider reply) as [models|];
    rewrite updateProviderConfig_config, H;
    destruct provider; cbn [providerConfigs send set_requests];
    rewrite updateProviderConfig_config, H; reflexivity.
Qed.

Lemma listed_models_gemini : forall reply,
  listed_models gemini reply
  = match reply with
    | catalog_rejected => None
    | catalog_response false _ => Some (DEFAULT_MODELS gemini)
    | catalog_response true body_rejected => None
    | catalog_response true (body_models data_models) =>
        match audio_models data_models with
        | [] => Some (DEFAULT_MODELS gemini)
        | _ :: _ => Some (map catalog_model (audio_models data_models))
        end
    end.
Proof.
  intros [|[] [|data_models]]; try reflexivity.
  unfold listed_models. destruct (audio_models data_models); reflexivity.
Qed.

Lemma listed_models_nonempty : forall provider reply models,
  listed_models provider reply = Some models -> models <> [].
Proof.
  intros provider reply models H. destruct provider.
  - rewrite listed_models_gemini in H.
    destruct reply as [|[] [|data_models]]; try discriminate;
      try (injection H as <-; discriminate).
    destruct (audio_models data_models) eqn:F; injection H as <-; discriminate.
  - injection H as <-. discriminate.
  - injection H as <-. discriminate.
Qed.




(** C8 (counterexample).  The Gemini key is accepted and the catalogue
    answers with one audio-capable model, "models/gemini-2.5-pro": the
    fetch completes, the list of available models is that one model,
    and the selected model is still the default "gemini-2.0-flash",
    which is not in the list.  Likewise after the user has selected
    "gemini-2.5-pro" and a later fetch, answered with a failure status,
    has put the default list back. *)
Lemma fetched_list_without_selected_model :
  apiKeyStatus (config_of (providerConfigs geminiProApp) gemini) = valid
  /\ isLoadingModels (config_of (providerConfigs geminiProApp) gemini) = false
  /\ selectedModel (config_of (providerConfigs geminiProApp) gemini)
     = js "gemini-2.0-flash"
  /\ map m_id (availableModels (config_of (providerConfigs geminiProApp) gemini))
     = [js "gemini-2.5-pro"]
  /\ selected_is_available (config_of (providerConfigs geminiProApp) gemini) = false
  /\ selectedModel (config_of (providerConfigs geminiProSelectedApp) gemini)
     = js "gemini-2.5-pro"
  /\ availableModels (config_of (providerConfigs geminiProSelectedApp) gemini)
     = DEFAULT_MODELS gemini
  /\ selected_is_available (config_of (providerConfigs geminiProSelectedApp) gemini)
     = false.
Proof.
  split_all; vm_compute; reflexivity.
Qed.

Lemma selected_is_available_spec : forall c,
  selected_is_available c = true
  <-> In (selectedModel c) (map m_id (availableModels c)).
Proof.
  intro c. unfold selected_is_available. rewrite existsb_exists, in_map_iff.
  split; intros (m & H1 & H2).
  - exists m. split; [|exact H1]. now apply str_eqb_eq.
  - exists m. split; [exact H2|]. now apply str_eqb_eq.
Qed.

(** C8 (amended).  The default configuration of a provider has its
    selected model in its list.  Selecting a model offered by the
    rendered list, and updating the key status or the key of any
    provider, keep the selected model in the list.  A model fetch never
    changes the selected model; when it completes, the selected model is
    in the new list exactly when the fetched list contains it, which is
    the case for OpenAI and Mistral whenever the selection is one of the
    provider's default models. *)
Theorem selected_model_membership :
  forall (provider : STTProvider) (s : App),
    let cfg := fun s => config_of (providerConfigs s) provider in
    (forall old, selected_is_available (getDefaultConfig old provider) = true)
    /\ (forall c index m,
          c_selectedProvider c = provider ->
          nth_error (availableModels (c_currentConfig c)) index = Some m ->
          availableModels (cfg s) = availableModels (c_currentConfig c) ->
          selectedModel (cfg (selectModel c index s)) = m_id m
          /\ selected_is_available (cfg (selectModel c index s)) = true)
    /\ (forall q st,
          selected_is_available (cfg (updateProviderConfig q (upd_status st) s))
          = selected_is_available (cfg s))
    /\ (forall q k,
          selected_is_available (cfg (saveProviderApiKey q k s))
          = selected_is_available (cfg s))
    /\ (forall configs reply,
          let s' := fetchModelsForProvider configs provider reply s in
          selectedModel (cfg s') = selectedModel (cfg s)
          /\ (10 <= jslength (apiKey (config_of configs provider)) ->
              forall models,
                listed_models provider reply = Some models ->
                availableModels (cfg s') = models
                /\ selected_is_available (cfg s')
                   = existsb (fun m => str_eqb (m_id m) (selectedModel (cfg s)))
                       models)
          /\ (10 <= jslength (apiKey (config_of configs provider)) ->
              provider <> gemini ->
              In (selectedModel (cfg s)) (map m_id (DEFAULT_MODELS provider)) ->
              selected_is_available (cfg s') = true)).
Proof.
  intros provider s cfg.
  split; [intro old; destruct provider; reflexivity|].
  split.
  { intros c index m Hp Hn Ha. unfold selectModel. rewrite Hn. unfold cfg.
    rewrite Hp, updateProviderConfig_config, provider_eqb_refl.
    split; [reflexivity|].
    apply selected_is_available_spec. cbn [selectedModel availableModels spread
      upd_selectedModel u_selectedModel u_availableModels pick].
    fold (cfg s). rewrite Ha. apply in_map. eapply nth_error_In. exact Hn. }
  split.
  { intros q st. unfold cfg. rewrite updateProviderConfig_config.
    destruct (provider_eqb q provider) eqn:E; [|reflexivity].
    destruct q, provider; try discriminate; reflexivity. }
  split.
  { intros q k. unfold cfg, saveProviderApiKey.
    rewrite updateProviderConfig_config.
    destruct (provider_eqb q provider) eqn:E; [|reflexivity].
    destruct q, provider; try discriminate; reflexivity. }
  intros configs reply s'.
  assert (Hcfg : 10 <= jslength (apiKey (config_of configs provider)) ->
                 forall models, listed_models provider reply = Some models ->
                 cfg s' = spread (spread (cfg s) (upd_loading true))
                            (upd_fetched models)).
  { intros Hl models Hm. unfold cfg, s'.
    rewrite fetchModelsForProvider_config by exact Hl. now rewrite Hm. }
  split.
  { destruct (Z.lt_ge_cases (jslength (apiKey (config_of configs provider))) 10)
      as [Hs|Hl].
    - unfold s'. now rewrite fetchModelsForProvider_short by exact Hs.
    - unfold cfg, s'. rewrite fetchModelsForProvider_config by exact Hl.
      destruct (listed_models provider reply); reflexivity. }
  split.
  { intros Hl models Hm. rewrite (Hcfg Hl models Hm). split; reflexivity. }
  intros Hl Hng Hin.
  destruct provider; [congruence| |].
  - rewrite (Hcfg Hl OPENAI_STATIC_MODELS eq_refl).
    apply selected_is_available_spec.
    cbn [selectedModel availableModels spread upd_fetched upd_loading
         u_selectedModel u_availableModels pick].
    simpl in Hin. simpl. tauto.
  - rewrite (Hcfg Hl MISTRAL_STATIC_MODELS eq_refl).
    apply selected_is_available_spec.
    cbn [selectedModel availableModels spread upd_fetched upd_loading
         u_selectedModel u_availableModels pick].
    simpl in Hin. simpl. tauto.
Qed.

Lemma selected_model_membership_witness :
  selectedModel
    (config_of (providerConfigs (selectModel (snapshot openaiApp) 3 openaiApp)) openai)
  = js "gpt-4o-transcribe-diarize"
  /\ selected_is_available
       (config_of (providerConfigs (selectModel (snapshot openaiApp) 3 openaiApp))
          openai) = true.
Proof.
  refine (proj1 (proj2 (selected_model_membership openai openaiApp))
            (snapshot openaiApp) 3%nat
            (model "gpt-4o-transcribe-diarize" "GPT-4o Diarize (Speaker)") _ _ _);
    vm_compute; reflexivity.
Defined.

(* ================================================================== *)
(** * Part II, continued. The build scripts and the rest of [App]      *)
(* ================================================================== *)

(** ** Decimal numbers *)
From Stdlib Require DecimalPos DecimalN.

(** Case analysis on a code unit below 64, leaving the others to a
    default branch. *)
Ltac small_unit c :=
  destruct c as [|c]; [|do 6 (try destruct c as [c|c|])].

Lemma leading_uint_units : forall u rest,
  match rest with c :: _ => is_digit c = false | [] => True end ->
  leading_uint (uint_units u ++ rest) = u.
Proof.
  induction u; intros rest H; simpl; try (now rewrite IHu).
  destruct rest as [|c rest]; [reflexivity|].
  simpl. small_unit c; try reflexivity; cbv in H; discriminate H.
Qed.

Lemma uint_units_digits : forall u c, In c (uint_units u) -> is_digit c = true.
Proof.
  induction u; simpl; intros c H; try contradiction;
    destruct H as [<-|H]; try reflexivity; now apply IHu.
Qed.

Lemma digit_not_space : forall c, is_digit c = true -> is_space c = false.
Proof.
  intros c H. small_unit c; try reflexivity; cbv in H; discriminate H.
Qed.

Lemma uint_units_head : forall u,
  u <> Decimal.Nil -> exists c t, uint_units u = c :: t /\ is_digit c = true.
Proof.
  intros u H. destruct u; try congruence; simpl; eauto.
Qed.

(** [parseInt] reads back what [String] prints. *)
Lemma parseInt10_toString : forall z,
  parseInt10 (number_toString (Num z)) = Num z.
Proof.
  intros [|p|p]; [reflexivity| |].
  - unfold number_toString. change (Z.to_N (Z.pos p)) with (N.pos p).
    change (N.to_uint (N.pos p)) with (Pos.to_uint p).
    destruct (uint_units_head (Pos.to_uint p) (DecimalPos.Unsigned.to_uint_nonnil p))
      as (c & t & E & D).
    unfold parseInt10.
    assert (T : trimStart (uint_units (Pos.to_uint p)) = uint_units (Pos.to_uint p)).
    { rewrite E. simpl. now rewrite (digit_not_space c D). }
    rewrite T.
    assert (S1 : match uint_units (Pos.to_uint p) with 45%N :: _ => true | _ => false end
                 = false).
    { rewrite E. small_unit c; try reflexivity; cbv in D; discriminate D. }
    assert (S2 : match uint_units (Pos.to_uint p) with
                 | 45%N :: r => r | 43%N :: r => r | _ => uint_units (Pos.to_uint p)
                 end = uint_units (Pos.to_uint p)).
    { rewrite E. small_unit c; try reflexivity; cbv in D; discriminate D. }
    rewrite S1, S2.
    rewrite <- (app_nil_r (uint_units (Pos.to_uint p))),
      leading_uint_units by exact I.
    pose proof (DecimalPos.Unsigned.to_uint_nonnil p) as Hn.
    pose proof (DecimalPos.Unsigned.of_to p) as Ho.
    destruct (Pos.to_uint p); [congruence|..];
      unfold N.of_uint; now rewrite Ho.
  - unfold number_toString, parseInt10.
    change (trimStart (45%N :: uint_units (Pos.to_uint p)))
      with (45%N :: uint_units (Pos.to_uint p)).
    cbv iota beta.
    rewrite <- (app_nil_r (uint_units (Pos.to_uint p))),
      leading_uint_units by exact I.
    pose proof (DecimalPos.Unsigned.to_uint_nonnil p) as Hn.
    pose proof (DecimalPos.Unsigned.of_to p) as Ho.
    destruct (Pos.to_uint p); [congruence|..];
      unfold N.of_uint; now rewrite Ho.
Qed.

(** ** Splitting and joining *)

Lemma split_on_free : forall sep s, ~ In sep s -> split_on sep s = [s].
Proof.
  induction s as [|c s IH]; intro H; [reflexivity|].
  simpl. destruct (N.eqb c sep) eqn:E.
  - apply N.eqb_eq in E. subst. exfalso. apply H. now left.
  - rewrite IH; [reflexivity|]. intro Hin. apply H. now right.
Qed.

Lemma split_on_app : forall sep p r,
  ~ In sep p -> split_on sep (p ++ sep :: r) = p :: split_on sep r.
Proof.
  induction p as [|c p IH]; intros r H.
  - simpl. now rewrite N.eqb_refl.
  - simpl. destruct (N.eqb c sep) eqn:E.
    + apply N.eqb_eq in E. subst. exfalso. apply H. now left.
    + rewrite IH; [reflexivity|]. intro Hin. apply H. now right.
Qed.

Lemma split_array_join : forall sep (a : JsArray),
  a <> [] ->
  Forall (fun x => ~ In sep (pick x [])) a ->
  split_on sep (array_join sep a) = map (fun x => pick x []) a.
Proof.
  induction a as [|x a IH]; intros Hne Hall; [congruence|].
  inversion Hall as [|? ? Hx Ha]; subst.
  destruct a as [|y a].
  - simpl. now apply split_on_free.
  - change (array_join sep (x :: y :: a))
      with (pick x [] ++ sep :: array_join sep (y :: a)).
    rewrite split_on_app by exact Hx.
    rewrite IH; [reflexivity|discriminate|exact Ha].
Qed.

Lemma split_dotted : forall parts,
  parts <> [] -> dot_free parts -> split_on DOT (dotted parts) = parts.
Proof.
  intros parts Hne Hf. unfold dotted.
  rewrite split_array_join.
  - rewrite map_map. simpl. apply map_id.
  - destruct parts; [congruence|discriminate].
  - apply Forall_map. exact Hf.
Qed.

Lemma number_toString_dot_free : forall n, ~ In DOT (number_toString n).
Proof.
  intros [|[|p|p]] H.
  - simpl in H. unfold DOT in H. repeat (destruct H as [H|H]; [discriminate H|]).
    exact H.
  - simpl in H. destruct H as [H|H]; [discriminate H|exact H].
  - apply uint_units_digits in H. discriminate H.
  - destruct H as [H|H]; [discriminate H|].
    apply uint_units_digits in H. discriminate H.
Qed.

Lemma not_in_check : forall (c : N) (s : jsstring),
  existsb (N.eqb c) s = false -> ~ In c s.
Proof.
  intros c s H Hin.
  assert (X : existsb (N.eqb c) s = true).
  { apply existsb_exists. exists c. split; [exact Hin | apply N.eqb_refl]. }
  congruence.
Qed.

Lemma dot_free_check : forall parts,
  forallb (fun p => negb (existsb (N.eqb DOT) p)) parts = true -> dot_free parts.
Proof.
  intros parts H. apply Forall_forall. intros p Hp.
  rewrite forallb_forall in H. specialize (H p Hp).
  apply not_in_check. now destruct (existsb (N.eqb DOT) p).
Qed.

(** ** bump-version: the new version *)

Lemma incrementVersion_three : forall p0 p1 p2 rest,
  dot_free (p0 :: p1 :: p2 :: rest) ->
  incrementVersion (dotted (p0 :: p1 :: p2 :: rest))
  = dotted (p0 :: p1 :: number_toString (plus_one (parseInt10 p2)) :: rest).
Proof.
  intros p0 p1 p2 rest Hf. unfold incrementVersion.
  rewrite split_dotted by (exact Hf || discriminate). reflexivity.
Qed.

(** The third component after a bump. *)
Lemma incrementVersion_number :
  forall (p0 p1 p2 : jsstring) (rest : list jsstring) (n : Z),
    dot_free (p0 :: p1 :: p2 :: rest) ->
    parseInt10 p2 = Num n ->
    safe_integer n -> safe_integer (n + 1) ->
    incrementVersion (dotted (p0 :: p1 :: p2 :: rest))
    = dotted (p0 :: p1 :: number_toString (Num (n + 1)) :: rest)
    /\ parseInt10 (number_toString (Num (n + 1))) = Num (n + 1)
    /\ dot_free (p0 :: p1 :: number_toString (Num (n + 1)) :: rest).
Proof.
  intros p0 p1 p2 rest n Hf Hp _ _. split; [|split].
  - rewrite incrementVersion_three by exact Hf. now rewrite Hp.
  - apply parseInt10_toString.
  - inversion Hf as [|? ? H0 Hf1]; subst. inversion Hf1 as [|? ? H1 Hf2]; subst.
    inversion Hf2 as [|? ? H2 Hf3]; subst.
    repeat constructor; try assumption. apply number_toString_dot_free.
Qed.

(** X1.  For a version of at least three components whose third
    component starts (after optional white space and sign) with a
    decimal number [n] in the range of exact integers,
    [incrementVersion] gives the same components
    with the third replaced by the decimal notation of [n + 1]:
    whatever followed the digits in the third component is dropped, the
    components after the third are kept, and [parseInt] reads [n + 1]
    back from the new third component. *)
Theorem incrementVersion_patch :
  forall (p0 p1 p2 : jsstring) (rest : list jsstring) (n : Z),
    dot_free (p0 :: p1 :: p2 :: rest) ->
    parseInt10 p2 = Num n ->
    safe_integer n -> safe_integer (n + 1) ->
    incrementVersion (dotted (p0 :: p1 :: p2 :: rest))
    = dotted (p0 :: p1 :: number_toString (Num (n + 1)) :: rest)
    /\ parseInt10 (number_toString (Num (n + 1))) = Num (n + 1)
    /\ dot_free (p0 :: p1 :: number_toString (Num (n + 1)) :: rest).
Proof. exact incrementVersion_number. Qed.

Lemma incrementVersion_patch_witness :
  incrementVersion (js "0.1.9-rc") = js "0.1.10".
Proof.
  assert (Hf : dot_free [js "0"; js "1"; js "9-rc"])
    by (apply dot_free_check; reflexivity).
  refine (proj1 (incrementVersion_patch (js "0") (js "1") (js "9-rc") [] 9 Hf
                   eq_refl _ _)); unfold safe_integer; lia.
Defined.

(** X2.  Bumping [k + 1] times adds [k + 1] to the number at the start
    of the third component and changes nothing else. *)
Theorem incrementVersion_iterated :
  forall (k : nat) (p0 p1 p2 : jsstring) (rest : list jsstring) (n : Z),
    dot_free (p0 :: p1 :: p2 :: rest) ->
    parseInt10 p2 = Num n ->
    safe_integer n -> safe_integer (n + Z.of_nat (S k)) ->
    Nat.iter (S k) incrementVersion (dotted (p0 :: p1 :: p2 :: rest))
    = dotted (p0 :: p1 :: number_toString (Num (n + Z.of_nat (S k))) :: rest).
Proof.
  induction k as [|k IH]; intros p0 p1 p2 rest n Hf Hp Hs Hs'.
  - simpl Nat.iter. now apply incrementVersion_number.
  - change (Nat.iter (S (S k)) incrementVersion (dotted (p0 :: p1 :: p2 :: rest)))
      with (incrementVersion
              (Nat.iter (S k) incrementVersion (dotted (p0 :: p1 :: p2 :: rest)))).
    assert (Hk : safe_integer (n + Z.of_nat (S k)))
      by (unfold safe_integer in *; lia).
    assert (Hn1 : safe_integer (n + 1)) by (unfold safe_integer in *; lia).
    rewrite (IH p0 p1 p2 rest n Hf Hp Hs Hk).
    destruct (incrementVersion_number p0 p1 p2 rest n Hf Hp Hs Hn1) as (_ & _ & Hf').
    assert (Hf'' : dot_free (p0 :: p1 :: number_toString (Num (n + Z.of_nat (S k))) :: rest)).
    { inversion Hf' as [|? ? H0 Hf1]; subst. inversion Hf1 as [|? ? H1 Hf2]; subst.
      inversion Hf2 as [|? ? H2 Hf3]; subst.
      repeat constructor; try assumption. apply number_toString_dot_free. }
    assert (Hk1 : safe_integer (n + Z.of_nat (S k) + 1))
      by (unfold safe_integer in *; lia).
    rewrite (proj1 (incrementVersion_number p0 p1 _ rest (n + Z.of_nat (S k)) Hf''
                      (parseInt10_toString _) Hk Hk1)).
    replace (n + Z.of_nat (S k) + 1) with (n + Z.of_nat (S (S k))) by lia.
    reflexivity.
Qed.

Lemma incrementVersion_iterated_witness :
  Nat.iter 4 incrementVersion (js "0.1.8") = js "0.1.12".
Proof.
  assert (Hf : dot_free [js "0"; js "1"; js "8"])
    by (apply dot_free_check; reflexivity).
  refine (incrementVersion_iterated 3 (js "0") (js "1") (js "8") [] 8 Hf eq_refl _ _);
    unfold safe_integer; lia.
Defined.

(** X3.  What [incrementVersion] makes of a version that has no numeric
    third component: a version without a dot gets [..NaN] appended, a
    version with one dot gets [.NaN] appended, and a third component
    that does not start with a number is replaced by [NaN]. *)
Theorem incrementVersion_not_a_number :
  (forall version, ~ In DOT version ->
     incrementVersion version = version ++ js "..NaN")
  /\ (forall p0 p1, dot_free [p0; p1] ->
        incrementVersion (dotted [p0; p1]) = dotted [p0; p1] ++ js ".NaN")
  /\ (forall p0 p1 p2 rest,
        dot_free (p0 :: p1 :: p2 :: rest) -> parseInt10 p2 = NaN ->
        incrementVersion (dotted (p0 :: p1 :: p2 :: rest))
        = dotted (p0 :: p1 :: js "NaN" :: rest)).
Proof.
  split; [|split].
  - intros version H. unfold incrementVersion.
    rewrite split_on_free by exact H. simpl. reflexivity.
  - intros p0 p1 Hf. unfold incrementVersion.
    rewrite split_dotted by (exact Hf || discriminate).
    unfold dotted. simpl. now rewrite <- app_assoc.
  - intros p0 p1 p2 rest Hf Hp.
    rewrite incrementVersion_three by exact Hf. now rewrite Hp.
Qed.

Lemma incrementVersion_not_a_number_witness :
  incrementVersion (js "2024") = js "2024..NaN"
  /\ incrementVersion (js "1.2") = js "1.2.NaN"
  /\ incrementVersion (js "1.2.x") = js "1.2.NaN".
Proof.
  destruct incrementVersion_not_a_number as (H1 & H2 & H3).
  split; [|split].
  - apply (H1 (js "2024")). apply not_in_check. reflexivity.
  - apply (H2 (js "1") (js "2")). apply dot_free_check. reflexivity.
  - refine (H3 (js "1") (js "2") (js "x") [] _ eq_refl).
    apply dot_free_check. reflexivity.
Defined.

(** ** bump-version: the files that carry the version *)

Lemma startsWith_prefix : forall p r, startsWith (p ++ r) p = true.
Proof.
  induction p as [|c p IH]; intro r; [now destruct r|].
  simpl. now rewrite N.eqb_refl, IH.
Qed.

Lemma startsWith_split : forall s p,
  startsWith s p = true -> s = p ++ skipn (List.length p) s.
Proof.
  intros s p. revert s. induction p as [|c p IH]; intros s H; [reflexivity|].
  destruct s as [|x s]; [discriminate|]. simpl in H.
  apply andb_true_iff in H as [Hx Hs]. apply N.eqb_eq in Hx. subst.
  simpl. f_equal. now apply IH.
Qed.

(** Whether [s] starts with [p] is decided by the first [|p|] units. *)
Lemma startsWith_long_prefix : forall p q t,
  (List.length p <= List.length q)%nat ->
  startsWith (q ++ t) p = startsWith q p.
Proof.
  induction p as [|c p IH]; intros q t H; [now destruct q, t|].
  destruct q as [|x q]; [simpl in H; lia|].
  simpl. f_equal. apply IH. simpl in H. lia.
Qed.

Lemma span_unquoted_app : forall x y,
  ~ In QUOTE x -> span_unquoted (x ++ QUOTE :: y) = (x, QUOTE :: y).
Proof.
  induction x as [|c x IH]; intros y H.
  - reflexivity.
  - simpl. destruct (N.eqb c QUOTE) eqn:E.
    + apply N.eqb_eq in E. subst. exfalso. apply H. now left.
    + rewrite IH; [reflexivity|]. intro Hin. apply H. now right.
Qed.

Lemma span_unquoted_spec : forall s v rest,
  span_unquoted s = (v, rest) ->
  s = v ++ rest /\ ~ In QUOTE v
  /\ (rest = [] \/ exists r, rest = QUOTE :: r).
Proof.
  induction s as [|c s IH]; intros v rest H.
  - injection H as <- <-. repeat split; auto.
  - simpl in H. destruct (N.eqb c QUOTE) eqn:E.
    + injection H as <- <-. apply N.eqb_eq in E. subst.
      repeat split; eauto.
    + destruct (span_unquoted s) as [v' rest'] eqn:S. injection H as <- <-.
      destruct (IH v' rest' eq_refl) as (Hs & Hv & Hr).
      split; [simpl; now f_equal|]. split; [|exact Hr].
      intros [Hc|Hin]; [|now apply Hv].
      subst. now rewrite N.eqb_refl in E.
Qed.

Lemma first_quote : forall l,
  In QUOTE l -> exists x y, l = x ++ QUOTE :: y /\ ~ In QUOTE x.
Proof.
  induction l as [|c l IH]; intro H; [contradiction|].
  destruct (N.eqb c QUOTE) eqn:E.
  - apply N.eqb_eq in E. subst. exists [], l. split; auto.
  - destruct H as [H|H]; [subst; now rewrite N.eqb_refl in E|].
    destruct (IH H) as (x & y & -> & Hx).
    exists (c :: x), y. split; [reflexivity|].
    intros [Hc|Hin]; [|now apply Hx]. subst. now rewrite N.eqb_refl in E.
Qed.

Lemma match_here_sound : forall lit s v rest,
  match_here lit s = Some (v, rest) ->
  s = lit ++ [QUOTE] ++ v ++ [QUOTE] ++ rest /\ v <> [] /\ ~ In QUOTE v.
Proof.
  intros lit s v rest H. unfold match_here in H.
  destruct (startsWith s (lit ++ [QUOTE])) eqn:S; [|discriminate].
  apply startsWith_split in S.
  destruct (span_unquoted (skipn (List.length (lit ++ [QUOTE])) s))
    as [v' rest'] eqn:Sp.
  destruct (span_unquoted_spec _ _ _ Sp) as (Hs & Hv & Hr).
  destruct v' as [|c v']; [discriminate|].
  destruct rest' as [|q rest']; [discriminate|].
  injection H as <- <-.
  destruct Hr as [Hr|(r & Hr)]; [discriminate|]. injection Hr as -> ->.
  split; [|split; [discriminate|exact Hv]].
  rewrite S at 1. rewrite Hs. now rewrite <- !app_assoc.
Qed.

Lemma match_here_complete : forall lit v rest,
  v <> [] -> ~ In QUOTE v ->
  match_here lit (lit ++ [QUOTE] ++ v ++ [QUOTE] ++ rest) = Some (v, rest).
Proof.
  intros lit v rest Hne Hv. unfold match_here.
  replace (lit ++ [QUOTE] ++ v ++ [QUOTE] ++ rest)
    with ((lit ++ [QUOTE]) ++ v ++ QUOTE :: rest)
    by (now rewrite <- !app_assoc).
  rewrite startsWith_prefix.
  rewrite skipn_app, skipn_all, Nat.sub_diag. simpl skipn. simpl app at 1.
  rewrite span_unquoted_app by exact Hv.
  destruct v; [congruence|reflexivity].
Qed.

(** Whether the pattern matches at the start of a text is decided by a
    prefix of the text that reaches beyond the literal to a quote. *)
Lemma match_here_prefix : forall lit pre x t1 t2,
  (List.length (lit ++ [QUOTE]) <= List.length pre)%nat ->
  match_here lit (pre ++ x ++ QUOTE :: t1) = None ->
  match_here lit (pre ++ x ++ QUOTE :: t2) = None.
Proof.
  intros lit pre x t1 t2 Hlen H. unfold match_here in *.
  rewrite startsWith_long_prefix in * by exact Hlen.
  destruct (startsWith pre (lit ++ [QUOTE])); [|reflexivity].
  rewrite skipn_app in *.
  replace (List.length (lit ++ [QUOTE]) - List.length pre)%nat with O in * by lia.
  simpl skipn in *.
  set (p := skipn (List.length (lit ++ [QUOTE])) pre) in *.
  destruct (first_quote ((p ++ x) ++ [QUOTE])) as (u & w & E & Hu).
  { apply in_or_app. right. now left. }
  assert (E1 : p ++ x ++ QUOTE :: t1 = u ++ QUOTE :: (w ++ t1)).
  { change (QUOTE :: t1) with ([QUOTE] ++ t1).
    rewrite !app_assoc. rewrite E. now rewrite <- app_assoc. }
  assert (E2 : p ++ x ++ QUOTE :: t2 = u ++ QUOTE :: (w ++ t2)).
  { change (QUOTE :: t2) with ([QUOTE] ++ t2).
    rewrite !app_assoc. rewrite E. now rewrite <- app_assoc. }
  rewrite E1 in H. rewrite E2.
  rewrite span_unquoted_app in * by exact Hu.
  destruct u; [reflexivity|discriminate].
Qed.

Lemma find_assignment_sound : forall lit anchored s line_start before v after,
  find_assignment lit anchored line_start s = Some (before, v, after) ->
  s = before ++ lit ++ [QUOTE] ++ v ++ [QUOTE] ++ after
  /\ v <> [] /\ ~ In QUOTE v.
Proof.
  intros lit anchored. induction s as [|c s IH]; intros ls before v after H.
  - simpl in H.
    destruct (if negb anchored || ls then match_here lit [] else None)
      as [[v0 r0]|] eqn:M; [|discriminate].
    injection H as <- <- <-.
    destruct (negb anchored || ls); [|discriminate].
    now apply match_here_sound.
  - simpl in H.
    destruct (if negb anchored || ls then match_here lit (c :: s) else None)
      as [[v0 r0]|] eqn:M.
    + injection H as <- <- <-.
      destruct (negb anchored || ls); [|discriminate].
      now apply match_here_sound.
    + destruct (find_assignment lit anchored (is_line_terminator c) s)
        as [[[b' v'] a']|] eqn:F; [|discriminate].
      injection H as <- <- <-.
      destruct (IH _ _ _ _ F) as (Hs & Hv).
      split; [simpl; now f_equal|exact Hv].
Qed.

Lemma find_assignment_here : forall lit anchored line_start s v rest,
  negb anchored || line_start = true ->
  match_here lit s = Some (v, rest) ->
  find_assignment lit anchored line_start s = Some ([], v, rest).
Proof.
  intros lit anchored ls s v rest A M.
  destruct s; simpl; now rewrite A, M.
Qed.

Lemma find_assignment_next : forall lit anchored line_start c s,
  (if negb anchored || line_start then match_here lit (c :: s) else None) = None ->
  find_assignment lit anchored line_start (c :: s)
  = match find_assignment lit anchored (is_line_terminator c) s with
    | Some (before, v, rest) => Some (c :: before, v, rest)
    | None => None
    end.
Proof.
  intros lit anchored ls c s N. simpl. now rewrite N.
Qed.

(** Putting another value between the quotes of the leftmost match
    leaves it the leftmost match. *)
Lemma find_assignment_stable : forall lit anchored s line_start before v after v',
  find_assignment lit anchored line_start s = Some (before, v, after) ->
  v' <> [] -> ~ In QUOTE v' ->
  find_assignment lit anchored line_start
    (before ++ lit ++ [QUOTE] ++ v' ++ [QUOTE] ++ after)
  = Some (before, v', after).
Proof.
  intros lit anchored. induction s as [|c s IH];
    intros ls before v after v' H Hne Hq.
  - simpl in H.
    destruct (negb anchored || ls) eqn:A; [|discriminate].
    destruct (match_here lit []) as [[v0 r0]|] eqn:M; [|discriminate].
    injection H as <- <- <-.
    apply find_assignment_here; [exact A|].
    now apply match_here_complete.
  - simpl in H.
    destruct (if negb anchored || ls then match_here lit (c :: s) else None)
      as [[v0 r0]|] eqn:M.
    + injection H as <- <- <-.
      destruct (negb anchored || ls) eqn:A; [|discriminate].
      apply find_assignment_here; [exact A|].
      now apply match_here_complete.
    + destruct (find_assignment lit anchored (is_line_terminator c) s)
        as [[[b' v1] a']|] eqn:F; [|discriminate].
      injection H as <- <- <-.
      destruct (find_assignment_sound _ _ _ _ _ _ _ F) as (Hs & _ & _).
      rewrite <- app_comm_cons.
      rewrite find_assignment_next.
      * now rewrite (IH _ _ _ _ v' F Hne Hq).
      * destruct (negb anchored || ls); [|reflexivity].
        rewrite Hs in M.
        (* the common prefix already holds the quote that ends the
           literal, so it decides the match *)
        replace (c :: b' ++ lit ++ [QUOTE] ++ v1 ++ [QUOTE] ++ a')
          with ((c :: b' ++ lit) ++ [] ++ QUOTE :: (v1 ++ QUOTE :: a')) in M
          by (simpl; now rewrite <- !app_assoc).
        replace (c :: b' ++ lit ++ [QUOTE] ++ v' ++ [QUOTE] ++ a')
          with ((c :: b' ++ lit) ++ [] ++ QUOTE :: (v' ++ QUOTE :: a'))
          by (simpl; now rewrite <- !app_assoc).
        eapply match_here_prefix; [|exact M].
        simpl. rewrite !length_app. simpl. lia.
Qed.

Lemma getSubstitution_plain : forall matched before after r,
  ~ In DOLLAR r -> getSubstitution matched before after r = r.
Proof.
  intros matched before after. induction r as [|c r IH]; intro H; [reflexivity|].
  assert (Hr : ~ In DOLLAR r) by (intro X; apply H; now right).
  assert (Hc : c <> DOLLAR) by (intro X; apply H; now left).
  specialize (IH Hr).
  small_unit c; simpl; rewrite ?IH; try reflexivity.
  exfalso. now apply Hc.
Qed.

Lemma find_assignment_line_start : forall lit s line_start before v after,
  find_assignment lit true line_start s = Some (before, v, after) ->
  at_line_start line_start before.
Proof.
  intros lit. induction s as [|c s IH]; intros ls before v after H.
  - simpl in H. destruct ls; [|discriminate].
    destruct (match_here lit []) as [[v0 r0]|]; [|discriminate].
    injection H as <- <- <-. reflexivity.
  - simpl in H.
    destruct (if ls then match_here lit (c :: s) else None) as [[v0 r0]|] eqn:M.
    + injection H as <- <- <-. destruct ls; [reflexivity|discriminate].
    + destruct (find_assignment lit true (is_line_terminator c) s)
        as [[[b' v1] a']|] eqn:F; [|discriminate].
      injection H as <- <- <-.
      specialize (IH _ _ _ _ F). unfold at_line_start in *.
      destruct b' as [|x b']; [exact IH|exact IH].
Qed.

(** A match is found at or before every place where the pattern occurs
    (and, with [^], occurs at the start of a line). *)
Lemma find_assignment_leftmost : forall lit anchored before s line_start v after,
  occurs_at lit s before v after ->
  (anchored = true -> at_line_start line_start before) ->
  exists b0 v0 a0,
    find_assignment lit anchored line_start s = Some (b0, v0, a0)
    /\ (List.length b0 <= List.length before)%nat.
Proof.
  intros lit anchored. induction before as [|c before IH];
    intros s ls v after (Hs & Hne & Hq) Hl.
  - exists [], v, after. split; [|simpl; lia].
    apply find_assignment_here.
    + destruct anchored; [|reflexivity]. simpl. now apply Hl.
    + rewrite Hs. now apply match_here_complete.
  - rewrite Hs. rewrite <- app_comm_cons.
    destruct (if negb anchored || ls
              then match_here lit (c :: before ++ lit ++ [QUOTE] ++ v ++ [QUOTE] ++ after)
              else None) as [[v0 r0]|] eqn:M.
    + exists [], v0, r0. split; [|simpl; lia].
      destruct (negb anchored || ls) eqn:A; [|discriminate].
      now apply find_assignment_here.
    + rewrite find_assignment_next by exact M.
      destruct (IH (before ++ lit ++ [QUOTE] ++ v ++ [QUOTE] ++ after)
                  (is_line_terminator c) v after) as (b0 & v0 & a0 & F & L).
      * repeat split; assumption.
      * intro A. specialize (Hl A). unfold at_line_start in *.
        destruct before as [|x before]; [exact Hl|exact Hl].
      * rewrite F. exists (c :: b0), v0, a0. split; [reflexivity|simpl; lia].
Qed.

Lemma replace_assignment_plain : forall lit anchored content newVersion,
  ~ In DOLLAR lit -> ~ In DOLLAR newVersion ->
  replace_assignment lit anchored content (lit ++ [QUOTE] ++ newVersion ++ [QUOTE])
  = match find_assignment lit anchored true content with
    | Some (before, _, after) =>
        before ++ lit ++ [QUOTE] ++ newVersion ++ [QUOTE] ++ after
    | None => content
    end.
Proof.
  intros lit anchored content nv Hl Hn. unfold replace_assignment.
  destruct (find_assignment lit anchored true content) as [[[b v] a]|]; [|reflexivity].
  rewrite getSubstitution_plain.
  - now rewrite <- !app_assoc.
  - intro H. apply in_app_or in H as [H|H]; [now apply Hl|].
    apply in_app_or in H as [H|H]; [destruct H as [H|[]]; discriminate H|].
    apply in_app_or in H as [H|H]; [now apply Hn|].
    destruct H as [H|[]]; discriminate H.
Qed.

(** What a replacement does, for either file: nothing when the pattern
    occurs nowhere (with [^]: at no start of a line); otherwise the
    value of the first such occurrence is exchanged and the rest of the
    text is kept. *)
Lemma replace_assignment_spec : forall lit anchored content newVersion,
  ~ In DOLLAR lit -> ~ In DOLLAR newVersion ->
  let updated :=
    replace_assignment lit anchored content
      (lit ++ [QUOTE] ++ newVersion ++ [QUOTE]) in
  ((forall before v after,
      occurs_at lit content before v after ->
      ~ (anchored = true -> at_line_start true before)) ->
   updated = content)
  /\ (forall before v after,
        occurs_at lit content before v after ->
        (anchored = true -> at_line_start true before) ->
        exists b0 v0 a0,
          occurs_at lit content b0 v0 a0
          /\ (anchored = true -> at_line_start true b0)
          /\ (List.length b0 <= List.length before)%nat
          /\ updated = b0 ++ lit ++ [QUOTE] ++ newVersion ++ [QUOTE] ++ a0).
Proof.
  intros lit anchored content nv Hl Hn updated. unfold updated.
  rewrite replace_assignment_plain by assumption.
  split.
  - intro Hno.
    destruct (find_assignment lit anchored true content) as [[[b v] a]|] eqn:F;
      [|reflexivity].
    exfalso. apply (Hno b v a).
    + now apply find_assignment_sound in F.
    + intro A. subst anchored. eapply find_assignment_line_start. exact F.
  - intros before v after Ho Hs.
    destruct (find_assignment_leftmost lit anchored before content true v after Ho Hs)
      as (b0 & v0 & a0 & F & L).
    rewrite F. exists b0, v0, a0.
    split; [now apply find_assignment_sound in F|].
    split; [|split; [exact L|reflexivity]].
    intro A. subst anchored. eapply find_assignment_line_start. exact F.
Qed.

Lemma literals_plain : ~ In DOLLAR APP_VERSION_IS /\ ~ In DOLLAR VERSION_IS.
Proof. split; apply not_in_check; reflexivity. Qed.

Lemma unquoted_run_unique : forall x x' y y',
  ~ In QUOTE x -> ~ In QUOTE x' ->
  x ++ QUOTE :: y = x' ++ QUOTE :: y' -> x = x' /\ y = y'.
Proof.
  induction x as [|c x IH]; intros x' y y' Hx Hx' E.
  - destruct x' as [|c' x']; [now injection E|].
    simpl in E. injection E as E1 E2. exfalso. apply Hx'. now left.
  - destruct x' as [|c' x'].
    + simpl in E. injection E as E1 E2. exfalso. apply Hx. now left.
    + simpl in E. injection E as -> E.
      destruct (IH x' y y') as [-> ->]; auto.
      * intro H. apply Hx. now right.
      * intro H. apply Hx'. now right.
Qed.

Lemma app_same_length {A : Type} : forall (b b' x x' : list A),
  List.length b = List.length b' -> b ++ x = b' ++ x' -> b = b' /\ x = x'.
Proof.
  induction b as [|c b IH]; intros [|c' b'] x x' L E; try discriminate L.
  - auto.
  - simpl in E. injection E as -> E. simpl in L.
    destruct (IH b' x x') as [-> ->]; auto.
Qed.

Lemma occurs_at_unique : forall lit content b v a b' v' a',
  occurs_at lit content b v a -> occurs_at lit content b' v' a' ->
  List.length b = List.length b' -> b = b' /\ v = v' /\ a = a'.
Proof.
  intros lit content b v a b' v' a' (E & _ & Hq) (E' & _ & Hq') L.
  rewrite E in E'.
  destruct (app_same_length _ _ _ _ L E') as [-> E2].
  apply app_inv_head in E2. simpl in E2. injection E2 as E2.
  destruct (unquoted_run_unique v v' a a' Hq Hq' E2) as [-> ->]. auto.
Qed.

(** The replacement, told by the first occurrence. *)
Lemma replace_assignment_first : forall lit anchored content newVersion before v after,
  ~ In DOLLAR lit -> ~ In DOLLAR newVersion ->
  occurs_at lit content before v after ->
  (anchored = true -> at_line_start true before) ->
  (forall b' v' a',
     occurs_at lit content b' v' a' ->
     (anchored = true -> at_line_start true b') ->
     (List.length before <= List.length b')%nat) ->
  find_assignment lit anchored true content = Some (before, v, after)
  /\ replace_assignment lit anchored content (lit ++ [QUOTE] ++ newVersion ++ [QUOTE])
     = before ++ lit ++ [QUOTE] ++ newVersion ++ [QUOTE] ++ after.
Proof.
  intros lit anchored content nv before v after Hl Hn Ho Hs Hmin.
  destruct (find_assignment_leftmost lit anchored before content true v after Ho Hs)
    as (b0 & v0 & a0 & F & L).
  assert (Ho0 : occurs_at lit content b0 v0 a0)
    by (now apply find_assignment_sound in F).
  assert (Hs0 : anchored = true -> at_line_start true b0).
  { intro A. subst anchored. eapply find_assignment_line_start. exact F. }
  specialize (Hmin b0 v0 a0 Ho0 Hs0).
  destruct (occurs_at_unique lit content b0 v0 a0 before v after Ho0 Ho)
    as (-> & -> & ->); [lia|].
  split; [exact F|].
  rewrite replace_assignment_plain by assumption. now rewrite F.
Qed.

(** X4.  The update of [version.ts] leaves a text without the pattern
    as it is; in a text with the pattern it exchanges the quoted value
    of the first occurrence for the new version and keeps every other
    code unit, later occurrences included. *)
Theorem updateVersionTs_first_occurrence :
  forall (newVersion content : jsstring),
    ~ In DOLLAR newVersion ->
    ((forall before v after, ~ occurs_at APP_VERSION_IS content before v after) ->
     updateVersionTs newVersion content = content)
    /\ (forall before v after,
          occurs_at APP_VERSION_IS content before v after ->
          (forall b' v' a',
             occurs_at APP_VERSION_IS content b' v' a' ->
             (List.length before <= List.length b')%nat) ->
          updateVersionTs newVersion content
          = before ++ APP_VERSION_IS ++ [QUOTE] ++ newVersion ++ [QUOTE] ++ after).
Proof.
  intros nv content Hn. split.
  - intro Hno.
    apply (proj1 (replace_assignment_spec APP_VERSION_IS false content nv
                    (proj1 literals_plain) Hn)).
    intros b v a Ho _. exact (Hno b v a Ho).
  - intros before v after Ho Hmin.
    apply (replace_assignment_first APP_VERSION_IS false content nv before v after);
      try assumption; try apply literals_plain; try discriminate.
    intros b' v' a' Ho' _. now apply (Hmin b' v' a').
Qed.

Lemma updateVersionTs_first_occurrence_witness :
  updateVersionTs (js "0.1.7")
    (APP_VERSION_IS ++ [QUOTE] ++ js "0.1.6" ++ [QUOTE] ++ js "; // "
     ++ APP_VERSION_IS ++ [QUOTE] ++ js "0" ++ [QUOTE])
  = APP_VERSION_IS ++ [QUOTE] ++ js "0.1.7" ++ [QUOTE] ++ js "; // "
    ++ APP_VERSION_IS ++ [QUOTE] ++ js "0" ++ [QUOTE].
Proof.
  assert (Hn : ~ In DOLLAR (js "0.1.7")) by (apply not_in_check; reflexivity).
  refine (proj2 (updateVersionTs_first_occurrence (js "0.1.7") _ Hn)
            [] (js "0.1.6")
            (js "; // " ++ APP_VERSION_IS ++ [QUOTE] ++ js "0" ++ [QUOTE]) _ _).
  - split; [reflexivity|]. split; [discriminate|].
    apply not_in_check. reflexivity.
  - intros. simpl. lia.
Defined.

(** X5.  The update of [Cargo.toml] exchanges the quoted value of the
    first occurrence of the pattern that begins a line, and nothing
    else; an occurrence inside a line is never touched, and a text in
    which the pattern begins no line is left as it is. *)
Theorem updateCargoToml_line_start_only :
  forall (newVersion content : jsstring),
    ~ In DOLLAR newVersion ->
    ((forall before v after,
        occurs_at VERSION_IS content before v after ->
        ~ at_line_start true before) ->
     updateCargoToml newVersion content = content)
    /\ (forall before v after,
          occurs_at VERSION_IS content before v after ->
          at_line_start true before ->
          (forall b' v' a',
             occurs_at VERSION_IS content b' v' a' ->
             at_line_start true b' ->
             (List.length before <= List.length b')%nat) ->
          updateCargoToml newVersion content
          = before ++ VERSION_IS ++ [QUOTE] ++ newVersion ++ [QUOTE] ++ after).
Proof.
  intros nv content Hn. split.
  - intro Hno.
    apply (proj1 (replace_assignment_spec VERSION_IS true content nv
                    (proj2 literals_plain) Hn)).
    intros b v a Ho Hs. exact (Hno b v a Ho (Hs eq_refl)).
  - intros before v after Ho Hs Hmin.
    apply (replace_assignment_first VERSION_IS true content nv before v after);
      try assumption; try apply literals_plain.
    + intros _. exact Hs.
    + intros b' v' a' Ho' Hs'. exact (Hmin b' v' a' Ho' (Hs' eq_refl)).
Qed.

Lemma updateCargoToml_line_start_only_witness :
  updateCargoToml (js "0.1.7")
    (VERSION_IS ++ [QUOTE] ++ js "0.1.6" ++ [QUOTE] ++ [10%N]
     ++ js "serde = { version = " ++ [QUOTE] ++ js "1" ++ [QUOTE] ++ js " }")
  = VERSION_IS ++ [QUOTE] ++ js "0.1.7" ++ [QUOTE] ++ [10%N]
    ++ js "serde = { version = " ++ [QUOTE] ++ js "1" ++ [QUOTE] ++ js " }".
Proof.
  assert (Hn : ~ In DOLLAR (js "0.1.7")) by (apply not_in_check; reflexivity).
  refine (proj2 (updateCargoToml_line_start_only (js "0.1.7") _ Hn)
            [] (js "0.1.6")
            ([10%N] ++ js "serde = { version = " ++ [QUOTE] ++ js "1" ++ [QUOTE]
               ++ js " }") _ _ _).
  - split; [reflexivity|]. split; [discriminate|].
    apply not_in_check. reflexivity.
  - reflexivity.
  - intros. simpl. lia.
Defined.

Lemma replace_assignment_found : forall lit anchored content newVersion before v after,
  ~ In DOLLAR lit -> ~ In DOLLAR newVersion ->
  newVersion <> [] -> ~ In QUOTE newVersion ->
  find_assignment lit anchored true content = Some (before, v, after) ->
  find_assignment lit anchored true
    (replace_assignment lit anchored content
       (lit ++ [QUOTE] ++ newVersion ++ [QUOTE]))
  = Some (before, newVersion, after).
Proof.
  intros lit anchored content nv before v after Hl Hd Hne Hq F.
  rewrite replace_assignment_plain by assumption. rewrite F.
  eapply find_assignment_stable; eassumption.
Qed.

Lemma written_is_read_back : forall lit anchored content newVersion,
  ~ In DOLLAR lit -> ~ In DOLLAR newVersion ->
  newVersion <> [] -> ~ In QUOTE newVersion ->
  assigned_value lit anchored content <> None ->
  let updated :=
    replace_assignment lit anchored content
      (lit ++ [QUOTE] ++ newVersion ++ [QUOTE]) in
  assigned_value lit anchored updated = Some newVersion
  /\ forall later,
       ~ In DOLLAR later ->
       replace_assignment lit anchored updated (lit ++ [QUOTE] ++ later ++ [QUOTE])
       = replace_assignment lit anchored content (lit ++ [QUOTE] ++ later ++ [QUOTE]).
Proof.
  intros lit anchored content nv Hl Hd Hne Hq Ha updated.
  unfold assigned_value in Ha.
  destruct (find_assignment lit anchored true content) as [[[b v] a]|] eqn:F;
    [|congruence].
  pose proof (replace_assignment_found lit anchored content nv b v a
                Hl Hd Hne Hq F) as F'.
  fold updated in F'.
  split.
  - unfold assigned_value. now rewrite F'.
  - intros later Hlater.
    rewrite !replace_assignment_plain by assumption. now rewrite F, F'.
Qed.

(** X6.  In a file that holds the pattern, the version that an update
    writes is the version that the pattern then reads, and a later
    update gives the same file as if the earlier one had not happened;
    this holds for [version.ts] and for [Cargo.toml], for every new
    version that is not empty and holds no double quote and no dollar
    sign. *)
Theorem written_version_is_read_back :
  forall (newVersion content : jsstring),
    newVersion <> [] -> ~ In QUOTE newVersion -> ~ In DOLLAR newVersion ->
    (assigned_value APP_VERSION_IS false content <> None ->
     assigned_value APP_VERSION_IS false (updateVersionTs newVersion content)
     = Some newVersion
     /\ forall later,
          ~ In DOLLAR later ->
          updateVersionTs later (updateVersionTs newVersion content)
          = updateVersionTs later content)
    /\ (assigned_value VERSION_IS true content <> None ->
        assigned_value VERSION_IS true (updateCargoToml newVersion content)
        = Some newVersion
        /\ forall later,
             ~ In DOLLAR later ->
             updateCargoToml later (updateCargoToml newVersion content)
             = updateCargoToml later content).
Proof.
  intros nv content Hne Hq Hd. split; intro Ha.
  - apply (written_is_read_back APP_VERSION_IS false content nv);
      try assumption; apply literals_plain.
  - apply (written_is_read_back VERSION_IS true content nv);
      try assumption; apply literals_plain.
Qed.

Lemma written_version_is_read_back_witness :
  assigned_value APP_VERSION_IS false (updateVersionTs (js "0.2.0") VERSION_TS_SAMPLE)
  = Some (js "0.2.0")
  /\ assigned_value VERSION_IS true (updateCargoToml (js "0.2.0") CARGO_TOML_SAMPLE)
     = Some (js "0.2.0").
Proof.
  assert (H1 : js "0.2.0" <> []) by discriminate.
  assert (H2 : ~ In QUOTE (js "0.2.0")) by (apply not_in_check; reflexivity).
  assert (H3 : ~ In DOLLAR (js "0.2.0")) by (apply not_in_check; reflexivity).
  split.
  - refine (proj1 (proj1 (written_version_is_read_back (js "0.2.0")
                            VERSION_TS_SAMPLE H1 H2 H3) _)).
    vm_compute. discriminate.
  - refine (proj1 (proj2 (written_version_is_read_back (js "0.2.0")
                            CARGO_TOML_SAMPLE H1 H2 H3) _)).
    vm_compute. discriminate.
Defined.

(** ** bump-version: the new version as a value *)

Lemma split_on_units : forall sep s p c,
  In p (split_on sep s) -> In c p -> In c s.
Proof.
  intros sep. induction s as [|x s IH]; intros p c Hp Hc.
  - simpl in Hp. destruct Hp as [<-|[]]. exact Hc.
  - simpl in Hp. destruct (N.eqb x sep).
    + destruct Hp as [<-|Hp]; [contradiction|]. right. eapply IH; eassumption.
    + destruct (split_on sep s) as [|q qs] eqn:E.
      * destruct Hp as [<-|[]]. destruct Hc as [<-|[]]. now left.
      * destruct Hp as [<-|Hp].
        -- destruct Hc as [<-|Hc]; [now left|]. right.
           apply (IH q c); [now left|exact Hc].
        -- right. apply (IH p c); [now right|exact Hc].
Qed.

Lemma array_join_units : forall sep (a : JsArray) c,
  In c (array_join sep a) -> c = sep \/ exists x, In (Some x) a /\ In c x.
Proof.
  intros sep. induction a as [|x a IH]; intros c H; [contradiction|].
  destruct a as [|y a].
  - simpl in H. right. destruct x as [x|]; [|contradiction].
    exists x. split; [now left|exact H].
  - change (array_join sep (x :: y :: a))
      with (pick x [] ++ sep :: array_join sep (y :: a)) in H.
    apply in_app_or in H as [H|[H|H]].
    + right. destruct x as [x|]; [|contradiction].
      exists x. split; [now left|exact H].
    + now left.
    + destruct (IH c H) as [Hs|(z & Hz & Hc)]; [now left|].
      right. exists z. split; [now right|exact Hc].
Qed.

Lemma array_set_elements : forall (a : JsArray) i v x,
  In (Some x) (array_set a i v) -> x = v \/ In (Some x) a.
Proof.
  intros a i. revert a. induction i as [|i IH]; intros a v x H.
  - destruct a as [|y a]; simpl in H.
    + destruct H as [H|[]]. injection H as <-. now left.
    + destruct H as [H|H]; [injection H as <-; now left|]. right. now right.
  - destruct a as [|y a]; simpl in H.
    + destruct H as [H|H]; [discriminate|].
      destruct (IH [] v x H) as [E|[]]. now left.
    + destruct H as [H|H]; [right; now left|].
      destruct (IH a v x H) as [E|Hin]; [now left|]. right. now right.
Qed.

Lemma array_set_length : forall (a : JsArray) i v,
  (i < List.length (array_set a i v))%nat.
Proof.
  intros a i. revert a. induction i as [|i IH]; intros a v.
  - destruct a; simpl; lia.
  - destruct a as [|y a]; simpl.
    + pose proof (IH [] v). lia.
    + pose proof (IH a v). lia.
Qed.

Lemma array_join_separator : forall sep (a : JsArray),
  (2 <= List.length a)%nat -> In sep (array_join sep a).
Proof.
  intros sep [|x [|y a]] H; simpl in H; try lia.
  change (array_join sep (x :: y :: a))
    with (pick x [] ++ sep :: array_join sep (y :: a)).
  apply in_or_app. right. now left.
Qed.

Lemma number_toString_units : forall n c,
  In c (number_toString n) -> c <> QUOTE /\ c <> DOLLAR.
Proof.
  intros [|[|p|p]] c H.
  - simpl in H. repeat (destruct H as [<-|H]; [split; discriminate|]).
    contradiction.
  - simpl in H. destruct H as [<-|[]]. split; discriminate.
  - apply uint_units_digits in H. split; intros ->; discriminate H.
  - destruct H as [<-|H]; [split; discriminate|].
    apply uint_units_digits in H. split; intros ->; discriminate H.
Qed.

(** The result of [incrementVersion] is never empty, and it holds a
    double quote or a dollar sign only when the version it was given
    holds one. *)
Lemma incrementVersion_value : forall version,
  incrementVersion version <> []
  /\ (~ In QUOTE version -> ~ In QUOTE (incrementVersion version))
  /\ (~ In DOLLAR version -> ~ In DOLLAR (incrementVersion version)).
Proof.
  intro version. unfold incrementVersion.
  set (parts := map Some (split_on DOT version)).
  set (v := number_toString (plus_one (parseInt10 (array_get_string parts 2)))).
  assert (Hunits : forall c, In c (array_join DOT (array_set parts 2 v)) ->
                             c = DOT \/ In c v \/ In c version).
  { intros c H. apply array_join_units in H as [H|(x & Hx & Hc)]; [now left|].
    right. apply array_set_elements in Hx as [->|Hx]; [now left|].
    right. unfold parts in Hx. apply in_map_iff in Hx as (p & Hp & Hin).
    injection Hp as ->. eapply split_on_units; eassumption. }
  split; [|split].
  - intro E.
    assert (In DOT (array_join DOT (array_set parts 2 v))).
    { apply array_join_separator. pose proof (array_set_length parts 2 v). lia. }
    rewrite E in H. contradiction.
  - intros Hq H. apply Hunits in H as [H|[H|H]].
    + discriminate H.
    + now apply number_toString_units in H as [H _].
    + now apply Hq.
  - intros Hd H. apply Hunits in H as [H|[H|H]].
    + discriminate H.
    + now apply number_toString_units in H as [_ H].
    + now apply Hd.
Qed.

(** X7.  After a bump both files carry the same version: when the
    current version holds no double quote and no dollar sign, the number
    of its third component and the successor of that number are integers
    that a JavaScript number holds exactly, and [version.ts] and
    [Cargo.toml] each hold their pattern, both read
    [incrementVersion(currentVersion)] after their update. *)
Theorem bumped_files_agree :
  forall (currentVersion versionTs cargoToml : jsstring),
    exact_bump currentVersion ->
    ~ In QUOTE currentVersion -> ~ In DOLLAR currentVersion ->
    assigned_value APP_VERSION_IS false versionTs <> None ->
    assigned_value VERSION_IS true cargoToml <> None ->
    assigned_value APP_VERSION_IS false
      (updateVersionTs (incrementVersion currentVersion) versionTs)
    = Some (incrementVersion currentVersion)
    /\ assigned_value VERSION_IS true
         (updateCargoToml (incrementVersion currentVersion) cargoToml)
       = Some (incrementVersion currentVersion).
Proof.
  intros current ts cargo _ Hq Hd Hts Hcargo.
  destruct (incrementVersion_value current) as (Hne & Hq' & Hd').
  split.
  - exact (proj1 (written_is_read_back APP_VERSION_IS false ts
                    (incrementVersion current) (proj1 literals_plain)
                    (Hd' Hd) Hne (Hq' Hq) Hts)).
  - exact (proj1 (written_is_read_back VERSION_IS true cargo
                    (incrementVersion current) (proj2 literals_plain)
                    (Hd' Hd) Hne (Hq' Hq) Hcargo)).
Qed.

Lemma bumped_files_agree_witness :
  assigned_value APP_VERSION_IS false
    (updateVersionTs (incrementVersion (js "0.1.6")) VERSION_TS_SAMPLE)
  = Some (js "0.1.7")
  /\ assigned_value VERSION_IS true
       (updateCargoToml (incrementVersion (js "0.1.6")) CARGO_TOML_SAMPLE)
     = Some (js "0.1.7").
Proof.
  refine (bumped_files_agree (js "0.1.6") VERSION_TS_SAMPLE CARGO_TOML_SAMPLE _ _ _ _ _).
  - change (safe_integer 6 /\ safe_integer (6 + 1)). unfold safe_integer. lia.
  - apply not_in_check. reflexivity.
  - apply not_in_check. reflexivity.
  - vm_compute. discriminate.
  - vm_compute. discriminate.
Defined.

(** ** The history store and the page *)

Lemma parseInt_decimal : forall input,
  (forall c x r,
     match trimStart input with
     | 45%N :: r => r
     | 43%N :: r => r
     | _ => trimStart input
     end = c :: x :: r -> is_digit x = true) ->
  parseInt input = parseInt10 input.
Proof.
  intros input H. unfold parseInt. cbv zeta.
  remember (match trimStart input with
            | 45%N :: r => r
            | 43%N :: r => r
            | _ => trimStart input
            end) as s eqn:Es.
  clear Es. destruct s as [|c [|x r]].
  - reflexivity.
  - small_unit c; reflexivity.
  - specialize (H c x r eq_refl).
    assert (X : (N.eqb x 120 || N.eqb x 88)%N = false).
    { destruct (N.eqb x 120) eqn:E1.
      - apply N.eqb_eq in E1. subst x. cbv in H. discriminate H.
      - destruct (N.eqb x 88) eqn:E2; [|reflexivity].
        apply N.eqb_eq in E2. subst x. cbv in H. discriminate H. }
    small_unit c; try reflexivity. rewrite X. reflexivity.
Qed.

(** [parseInt] without a radix reads back what [toString] prints. *)
Lemma parseInt_toString : forall z, parseInt (number_toString (Num z)) = Num z.
Proof.
  intro z. rewrite parseInt_decimal; [apply parseInt10_toString|].
  intros c x r E.
  assert (D : forall u, In x (uint_units u) -> is_digit x = true)
    by (intros u; apply uint_units_digits).
  destruct z as [|p|p].
  - cbv in E. discriminate E.
  - unfold number_toString in E. change (Z.to_N (Z.pos p)) with (N.pos p) in E.
    change (N.to_uint (N.pos p)) with (Pos.to_uint p) in E.
    destruct (uint_units_head (Pos.to_uint p) (DecimalPos.Unsigned.to_uint_nonnil p))
      as (c0 & t & E0 & D0).
    assert (T : trimStart (uint_units (Pos.to_uint p)) = uint_units (Pos.to_uint p)).
    { rewrite E0. simpl. now rewrite (digit_not_space c0 D0). }
    rewrite T in E.
    assert (S2 : match uint_units (Pos.to_uint p) with
                 | 45%N :: r => r | 43%N :: r => r | _ => uint_units (Pos.to_uint p)
                 end = uint_units (Pos.to_uint p)).
    { rewrite E0. small_unit c0; try reflexivity; cbv in D0; discriminate D0. }
    rewrite S2 in E. apply (D (Pos.to_uint p)). rewrite E. right. left. reflexivity.
  - unfold number_toString in E.
    change (trimStart (45%N :: uint_units (Pos.to_uint p)))
      with (45%N :: uint_units (Pos.to_uint p)) in E.
    cbv iota beta in E.
    apply (D (Pos.to_uint p)). rewrite E. right. left. reflexivity.
Qed.

Lemma boolean_toString_read : forall b,
  str_eqb (boolean_toString b) (js "true") = b.
Proof. intros []; reflexivity. Qed.

Lemma slice_within {A : Type} : forall (l : list A) (n : Z),
  0 < n -> Z.of_nat (List.length (slice l 0 n)) <= n.
Proof.
  intros l n H. rewrite slice_take by lia.
  pose proof (firstn_le_length (Z.to_nat n) l). lia.
Qed.

Lemma slice_sublist {A : Type} : forall (l : list A) (n : Z) (x : A),
  0 < n -> In x (slice l 0 n) -> In x l.
Proof.
  intros l n x H. rewrite slice_take by lia.
  generalize (Z.to_nat n). clear H. intro k. revert l.
  induction k; intros [|a l]; simpl; try tauto.
  intros [->|Hi]; [now left | right; now apply IHk].
Qed.

Lemma newest_first_firstn : forall k h, newest_first h -> newest_first (firstn k h).
Proof.
  induction k; intros [|a h]; simpl; try tauto.
  intros [Ha Hh]. split; [|now apply IHk].
  intros later Hl. apply Ha. revert Hl. clear. revert h.
  induction k; intros [|b h]; simpl; try tauto.
  intros [->|Hi]; [now left | right; now apply IHk].
Qed.

Lemma newest_first_filter : forall f h, newest_first h -> newest_first (filter f h).
Proof.
  intros f. induction h as [|a h IH]; simpl; [tauto|].
  intros [Ha Hh]. destruct (f a); [|now apply IH].
  split; [|now apply IH].
  intros later Hl. apply Ha. apply filter_In in Hl. tauto.
Qed.

(** What [saveToHistory] does to the list: nothing, or the new item in
    front of the list cut to the limit. *)
Lemma saveToHistory_history : forall c text now_id now_ts s,
  (saveToHistory c text now_id now_ts s = s)
  \/ (exists h,
        h = (if 0 <? c_historyLimit c
             then slice ({| h_id := now_id; h_text := text; h_timestamp := now_ts |}
                           :: history s) 0 (c_historyLimit c)
             else {| h_id := now_id; h_text := text; h_timestamp := now_ts |}
                    :: history s)
        /\ saveToHistory c text now_id now_ts s
           = (s |> store_history h |> set_history h)).
Proof.
  intros c text now_id now_ts s. unfold saveToHistory.
  destruct (negb (c_historyEnabled c) || negb (truthy text) || (jslength text <? 5));
    [now left|].
  destruct (is_status_text text); [now left|].
  destruct (match history s with
            | latest :: _ => str_eqb (h_text latest) text
            | [] => false
            end); [now left|].
  right. eexists. split; reflexivity.
Qed.

Lemma persisted_operate : forall k p, persisted p -> persisted (operate k p).
Proof.
  intros k p (Hh & He & Hl). unfold persisted.
  destruct k; cbn [operate].
  - destruct (truthy (c_transcribedText (snapshot (component p)))); [|now split_all].
    unfold discardText.
    destruct (saveToHistory_history (snapshot (component p))
                (c_transcribedText (snapshot (component p))) now_id now_ts (component p))
      as [E|(h & _ & E)]; unfold on_app; cbn [component preferences];
      rewrite E; now split_all.
  - unfold copyToClipboard.
    destruct (truthy _ && negb _); [destruct written|]; now split_all.
  - destruct (nth_error (history (component p)) index); now split_all.
  - destruct (nth_error (history (component p)) index); now split_all.
  - destruct (history (component p)) eqn:E.
    + rewrite E. now split_all.
    + now split_all.
  - unfold toggleHistoryEnabled. cbn. unfold load_historyEnabled. cbn.
    rewrite boolean_toString_read. now split_all.
  - destruct (c_historyEnabled (snapshot (component p))); [|now split_all].
    destruct (nth_error HISTORY_LIMITS index) as [limit|]; [|now split_all].
    unfold updateHistoryLimit.
    destruct (0 <? limit); unfold on_app, set_preferences, load_historyLimit;
      cbn [component preferences stored_history_limit];
      rewrite parseInt_toString; split_all;
      first [reflexivity | exact Hh | exact He].
  - now split_all.
Qed.

(** X8.  After every sequence of uses of the controls around the
    recorder (discard, copy, restore, delete, clear, the history switch,
    a limit button, typing), the local store holds what the component
    holds: reading the history, the history switch and the history limit
    back as a restart does gives the values of the state. *)
Theorem restart_reads_back : forall ks p,
  persisted p -> persisted (operate_all ks p).
Proof.
  induction ks as [|k ks IH]; intros p H; [exact H|].
  simpl. apply IH. now apply persisted_operate.
Qed.

Lemma restart_reads_back_witness :
  persisted initialPage
  /\ persisted (operate_all
       [TextChanged (js "hello world"); DiscardClicked 1000 1000;
        LimitClicked 0; SwitchClicked] initialPage).
Proof.
  assert (H : persisted initialPage).
  { unfold persisted. split_all; reflexivity. }
  split; [exact H|].
  exact (restart_reads_back
           [TextChanged (js "hello world"); DiscardClicked 1000 1000;
            LimitClicked 0; SwitchClicked] initialPage H).
Defined.

Lemma within_limit_operate : forall k p,
  (0 < historyLimit (component p) ->
   Z.of_nat (List.length (history (component p))) <= historyLimit (component p)) ->
  0 < historyLimit (component (operate k p)) ->
  Z.of_nat (List.length (history (component (operate k p))))
  <= historyLimit (component (operate k p)).
Proof.
  intros k p H. destruct k; cbn [operate].
  - destruct (truthy (c_transcribedText (snapshot (component p)))); [|exact H].
    unfold discardText.
    destruct (saveToHistory_history (snapshot (component p))
                (c_transcribedText (snapshot (component p))) now_id now_ts (component p))
      as [E|(h & Eh & E)]; unfold on_app; cbn [component]; rewrite E; [exact H|].
    cbn. intro L. subst h. cbn [snapshot c_historyLimit].
    destruct (0 <? historyLimit (component p)) eqn:B;
      [|apply Z.ltb_ge in B; lia].
    now apply slice_within.
  - unfold copyToClipboard.
    destruct (truthy _ && negb _); [destruct written|]; exact H.
  - destruct (nth_error (history (component p)) index); exact H.
  - destruct (nth_error (history (component p)) index); [|exact H].
    cbn. intro L.
    pose proof (filter_length_le (fun item => negb (h_id item =? h_id h))
                  (history (component p))).
    specialize (H L). lia.
  - destruct (history (component p)) eqn:E; [rewrite E; exact H|].
    cbn. intro L. lia.
  - exact H.
  - destruct (c_historyEnabled (snapshot (component p))); [|exact H].
    destruct (nth_error HISTORY_LIMITS index) as [limit|]; [|exact H].
    unfold updateHistoryLimit.
    destruct (0 <? limit) eqn:B; cbn; intro L.
    + now apply slice_within.
    + apply Z.ltb_ge in B. lia.
  - exact H.
Qed.

(** X9.  While the history limit is positive the history never holds
    more entries than the limit, whatever sequence of controls is used:
    a limit chosen after a time without limit cuts the list at once, and
    every later discard cuts it again. *)
Theorem history_within_limit : forall ks p,
  (0 < historyLimit (component p) ->
   Z.of_nat (List.length (history (component p))) <= historyLimit (component p)) ->
  0 < historyLimit (component (operate_all ks p)) ->
  Z.of_nat (List.length (history (component (operate_all ks p))))
  <= historyLimit (component (operate_all ks p)).
Proof.
  induction ks as [|k ks IH]; intros p H; [exact H|].
  simpl. apply IH. now apply within_limit_operate.
Qed.

Lemma history_within_limit_witness :
  Z.of_nat (List.length (history (component (operate_all
     [LimitClicked 3; TextChanged (js "first text"); DiscardClicked 1 1;
      TextChanged (js "second text"); DiscardClicked 2 2; LimitClicked 0]
     initialPage))))
  <= historyLimit (component (operate_all
     [LimitClicked 3; TextChanged (js "first text"); DiscardClicked 1 1;
      TextChanged (js "second text"); DiscardClicked 2 2; LimitClicked 0]
     initialPage)).
Proof.
  apply (history_within_limit
           [LimitClicked 3; TextChanged (js "first text"); DiscardClicked 1 1;
            TextChanged (js "second text"); DiscardClicked 2 2; LimitClicked 0]
           initialPage).
  - intros _. vm_compute. discriminate.
  - vm_compute. reflexivity.
Defined.

Lemma newest_first_operate : forall k p t t',
  newest_first (history (component p)) ->
  (forall item, In item (history (component p)) -> h_timestamp item <= t) ->
  match k with
  | DiscardClicked _ now_ts => t <= now_ts /\ t' = now_ts
  | _ => t' = t
  end ->
  newest_first (history (component (operate k p)))
  /\ (forall item, In item (history (component (operate k p))) ->
      h_timestamp item <= t').
Proof.
  intros k p t t' Hn Ht Hk. destruct k; cbn [operate].
  - destruct Hk as [Hk ->].
    assert (Keep : newest_first (history (component p))
                   /\ (forall item, In item (history (component p)) ->
                       h_timestamp item <= now_ts)).
    { split; [exact Hn|]. intros item Hi. specialize (Ht item Hi). lia. }
    destruct (truthy (c_transcribedText (snapshot (component p)))); [|exact Keep].
    unfold discardText.
    destruct (saveToHistory_history (snapshot (component p))
                (c_transcribedText (snapshot (component p))) now_id now_ts (component p))
      as [E|(h & Eh & E)]; unfold on_app; cbn [component]; rewrite E; [exact Keep|].
    destruct Keep as [_ Keep].
    assert (New : newest_first
                    ({| h_id := now_id;
                        h_text := c_transcribedText (snapshot (component p));
                        h_timestamp := now_ts |} :: history (component p))).
    { split; [exact Keep | exact Hn]. }
    assert (Old : forall item,
              In item ({| h_id := now_id;
                          h_text := c_transcribedText (snapshot (component p));
                          h_timestamp := now_ts |} :: history (component p)) ->
              h_timestamp item <= now_ts).
    { intros item [<-|Hi]; [simpl; lia | now apply Keep]. }
    cbn. subst h.
    destruct (0 <? c_historyLimit (snapshot (component p))) eqn:B.
    + apply Z.ltb_lt in B. split.
      * rewrite slice_take by lia. now apply newest_first_firstn.
      * intros item Hi. apply Old. revert Hi. now apply slice_sublist.
    + split; [exact New | exact Old].
  - subst t'. unfold copyToClipboard.
    destruct (truthy _ && negb _); [destruct written|]; now split.
  - subst t'. destruct (nth_error (history (component p)) index); now split.
  - subst t'. destruct (nth_error (history (component p)) index); [|now split].
    cbn. split; [now apply newest_first_filter|].
    intros item Hi. apply filter_In in Hi. now apply Ht.
  - subst t'. destruct (history (component p)) eqn:E; [rewrite E; now split|].
    cbn. split; [exact I | intros item []].
  - subst t'. now split.
  - subst t'. destruct (c_historyEnabled (snapshot (component p))); [|now split].
    destruct (nth_error HISTORY_LIMITS index) as [limit|]; [|now split].
    unfold updateHistoryLimit.
    destruct (0 <? limit) eqn:B; cbn; [|now split].
    apply Z.ltb_lt in B. split.
    + rewrite slice_take by lia. now apply newest_first_firstn.
    + intros item Hi. apply Ht. revert Hi. now apply slice_sublist.
  - subst t'. now split.
Qed.

(** X10.  When the clock does not run backwards the history is kept
    newest first: after every sequence of controls no entry has a
    timestamp below that of an entry after it in the list. *)
Theorem history_newest_first : forall ks p t,
  newest_first (history (component p)) ->
  (forall item, In item (history (component p)) -> h_timestamp item <= t) ->
  clock_from t ks ->
  newest_first (history (component (operate_all ks p))).
Proof.
  induction ks as [|k ks IH]; intros p t Hn Ht Hc; [exact Hn|].
  simpl operate_all.
  destruct k;
    try (match goal with
         | |- context [operate ?k p] =>
             destruct (newest_first_operate k p t t Hn Ht eq_refl) as [N1 N2]
         end;
         exact (IH _ t N1 N2 Hc)).
  simpl in Hc. destruct Hc as (H1 & H2 & Hc).
  destruct (newest_first_operate (DiscardClicked now_id now_ts) p t now_ts Hn Ht)
    as [N1 N2]; [split; [lia | reflexivity]|].
  exact (IH _ now_ts N1 N2 Hc).
Qed.

Lemma history_newest_first_witness :
  newest_first (history (component (operate_all
     [TextChanged (js "first text"); DiscardClicked 10 11;
      TextChanged (js "second text"); DiscardClicked 11 11; DeleteClicked 1]
     initialPage))).
Proof.
  apply (history_newest_first
           [TextChanged (js "first text"); DiscardClicked 10 11;
            TextChanged (js "second text"); DiscardClicked 11 11; DeleteClicked 1]
           initialPage 0).
  - exact I.
  - intros item [].
  - simpl. lia.
Defined.

Lemma filter_all {A : Type} : forall (f : A -> bool) (l : list A),
  (forall x, In x l -> f x = true) -> filter f l = l.
Proof.
  intros f. induction l as [|a l IH]; intro H; [reflexivity|].
  simpl. rewrite (H a (or_introl eq_refl)). f_equal. apply IH.
  intros x Hx. apply H. now right.
Qed.

Lemma deleteHistoryItem_history : forall id s,
  history (deleteHistoryItem id s)
  = filter (fun item => negb (h_id item =? id)) (history s).
Proof. reflexivity. Qed.

(** X11.  [deleteHistoryItem] removes every entry that carries the id
    and keeps the others in their order, whatever the list holds: an
    entry is in the new list exactly when it was in the old one under
    another id; a list without the id is left as it is; and at every
    entry that carries the id the result is the result for the part
    before it followed by the result for the part after it.  The new
    list is what the store holds.  The id is the millisecond of the
    discard, so entries made in the same millisecond go together; when
    the ids in the list are distinct, deleting the id of the entry at
    [index] removes that entry and nothing else. *)
Theorem deleteHistoryItem_removes_entry : forall s id,
  (forall other, In other (history (deleteHistoryItem id s)) <->
     In other (history s) /\ h_id other <> id)
  /\ ((forall item, In item (history s) -> h_id item <> id) ->
      history (deleteHistoryItem id s) = history s)
  /\ (forall before item after,
        history s = before ++ item :: after -> h_id item = id ->
        history (deleteHistoryItem id s)
        = history (deleteHistoryItem id (set_history before s))
          ++ history (deleteHistoryItem id (set_history after s)))
  /\ stored_transcript_history (localStorage (deleteHistoryItem id s))
     = Some (history (deleteHistoryItem id s))
  /\ (forall index item,
        NoDup (map h_id (history s)) ->
        nth_error (history s) index = Some item -> h_id item = id ->
        history (deleteHistoryItem id s)
        = firstn index (history s) ++ skipn (S index) (history s)).
Proof.
  intros s id. split_all.
  - intro other. rewrite deleteHistoryItem_history, filter_In.
    destruct (h_id other =? id) eqn:E.
    + apply Z.eqb_eq in E. simpl. split; [intros [_ H]; discriminate H|].
      intros [_ H]. contradiction.
    + apply Z.eqb_neq in E. simpl. tauto.
  - intro H. rewrite deleteHistoryItem_history. apply filter_all.
    intros x Hx. specialize (H x Hx). apply Z.eqb_neq in H. now rewrite H.
  - intros before item after Hh Hi. rewrite !deleteHistoryItem_history.
    cbn [history set_history]. rewrite Hh, filter_app. f_equal.
    simpl. rewrite Hi, Z.eqb_refl. reflexivity.
  - reflexivity.
  - intros index item Hd Hn <-. rewrite deleteHistoryItem_history.
    revert index Hd Hn. generalize (history s) as h.
    induction h as [|a h IH]; intros [|i] Hd Hn; simpl in Hn; try discriminate.
    + injection Hn as ->. simpl. rewrite Z.eqb_refl. simpl.
      apply filter_all. intros x Hx.
      inversion Hd as [|? ? Hnot _]; subst.
      destruct (h_id x =? h_id item) eqn:E; [|reflexivity].
      apply Z.eqb_eq in E. exfalso. apply Hnot. rewrite <- E.
      now apply in_map.
    + inversion Hd as [|? ? Hnot Hd']; subst. simpl.
      destruct (h_id a =? h_id item) eqn:E.
      * apply Z.eqb_eq in E. exfalso. apply Hnot. rewrite E.
        apply in_map. now apply nth_error_In with i.
      * simpl. f_equal. now apply IH.
Qed.

Lemma deleteHistoryItem_removes_entry_witness :
  history (deleteHistoryItem 10 (component twoEntriesPage))
  = [{| h_id := 20; h_text := js "second text"; h_timestamp := 20 |}]
  /\ history (deleteHistoryItem 10 (component sameMillisecondPage)) = [].
Proof.
  assert (Hd : NoDup (map h_id (history (component twoEntriesPage)))).
  { change (NoDup [20; 10]). repeat constructor; simpl; intuition lia. }
  assert (Hn : nth_error (history (component twoEntriesPage)) 1
               = Some {| h_id := 10; h_text := js "first text"; h_timestamp := 10 |}).
  { vm_compute. reflexivity. }
  split.
  - exact (proj2 (proj2 (proj2 (proj2
             (deleteHistoryItem_removes_entry (component twoEntriesPage) 10))))
             1%nat {| h_id := 10; h_text := js "first text"; h_timestamp := 10 |}
             Hd Hn eq_refl).
  - exact (proj1 (proj2 (proj2
             (deleteHistoryItem_removes_entry (component sameMillisecondPage) 10)))
             [] {| h_id := 10; h_text := js "second text"; h_timestamp := 10 |}
             [{| h_id := 10; h_text := js "first text"; h_timestamp := 10 |}]
             eq_refl eq_refl).
Defined.

Lemma saveToHistory_front : forall c text now_id now_ts s,
  worth_keeping c text = true ->
  exists item rest,
    history (saveToHistory c text now_id now_ts s) = item :: rest
    /\ h_text item = text.
Proof.
  intros c text now_id now_ts s W. unfold worth_keeping in W.
  apply andb_prop in W. destruct W as [W Hs].
  apply andb_prop in W. destruct W as [He Hl].
  apply Z.leb_le in Hl. apply negb_true_iff in Hs.
  destruct (history s) as [|latest rest] eqn:Hh.
  - rewrite saveToHistory_accept; try assumption;
      [|intros latest rest E; rewrite Hh in E; discriminate E].
    cbn. rewrite Hh.
    destruct (recorded_head (c_historyLimit c)
                {| h_id := now_id; h_text := text; h_timestamp := now_ts |} [])
      as [r Er].
    rewrite Er. eauto.
  - destruct (str_eqb (h_text latest) text) eqn:Eq.
    + apply str_eqb_eq in Eq.
      rewrite (saveToHistory_duplicate c text now_id now_ts s latest rest Hh Eq).
      rewrite Hh. eauto.
    + rewrite saveToHistory_accept; try assumption.
      * cbn. rewrite Hh.
        destruct (recorded_head (c_historyLimit c)
                    {| h_id := now_id; h_text := text; h_timestamp := now_ts |}
                    (latest :: rest)) as [r Er].
        rewrite Er. eauto.
      * intros l r E. rewrite Hh in E. injection E as <- <-.
        intro Ht. rewrite <- Ht, str_eqb_refl in Eq. discriminate Eq.
Qed.

(** X12.  Discarding a text that the history accepts (history enabled,
    at least 5 code units, none of the status prefixes) and then
    restoring the first entry of the history gives the text back: the
    discard empties the buffer and leaves the text at the head of the
    list, whether it was put there now or was there already, and the
    restore puts it into the buffer and shows the main view. *)
Theorem discard_then_restore : forall p now_id now_ts,
  worth_keeping (snapshot (component p)) (transcribedText (component p)) = true ->
  transcribedText (component (operate (DiscardClicked now_id now_ts) p)) = []
  /\ transcribedText
       (component (operate (RestoreClicked 0)
                     (operate (DiscardClicked now_id now_ts) p)))
     = transcribedText (component p)
  /\ view (operate (RestoreClicked 0) (operate (DiscardClicked now_id now_ts) p))
     = view_main.
Proof.
  intros p now_id now_ts W.
  assert (T : truthy (transcribedText (component p)) = true).
  { unfold worth_keeping in W. destruct (transcribedText (component p)).
    - rewrite andb_comm in W. simpl in W.
      rewrite andb_comm in W. simpl in W. discriminate W.
    - reflexivity. }
  destruct (saveToHistory_front (snapshot (component p))
              (transcribedText (component p)) now_id now_ts (component p) W)
    as (item & rest & Hh & Ht).
  assert (D : operate (DiscardClicked now_id now_ts) p
              = discardText (snapshot (component p)) now_id now_ts p).
  { cbn [operate]. cbn [snapshot c_transcribedText]. now rewrite T. }
  rewrite D.
  assert (H1 : history (component (discardText (snapshot (component p)) now_id now_ts p))
               = item :: rest).
  { unfold discardText, on_app. cbn [component snapshot c_transcribedText].
    cbn [snapshot c_transcribedText] in Hh. exact Hh. }
  split_all.
  - reflexivity.
  - cbn [operate]. rewrite H1. cbn [nth_error]. cbn. exact Ht.
  - cbn [operate]. rewrite H1. reflexivity.
Qed.

Lemma discard_then_restore_witness :
  transcribedText
    (component (operate (RestoreClicked 0)
                  (operate (DiscardClicked 30 30)
                     (operate (TextChanged (js "third text")) twoEntriesPage))))
  = js "third text".
Proof.
  refine (proj1 (proj2 (discard_then_restore
                          (operate (TextChanged (js "third text")) twoEntriesPage)
                          30 30 _))).
  vm_compute. reflexivity.
Defined.

Lemma status_text_ignored : forall p written now_id now_ts,
  is_status_text (transcribedText (component p)) = true ->
  operate (CopyClicked written) p = p
  /\ history (component (operate (DiscardClicked now_id now_ts) p))
     = history (component p)
  /\ localStorage (component (operate (DiscardClicked now_id now_ts) p))
     = localStorage (component p).
Proof.
  intros p written now_id now_ts H. split_all.
  - cbn [operate]. unfold copyToClipboard. cbn [snapshot c_transcribedText].
    rewrite H. now rewrite andb_comm.
  - cbn [operate]. cbn [snapshot c_transcribedText].
    destruct (truthy (transcribedText (component p))); [|reflexivity].
    unfold discardText, on_app, saveToHistory. cbn [component snapshot c_transcribedText].
    rewrite H.
    destruct (negb _ || negb _ || _); reflexivity.
  - cbn [operate]. cbn [snapshot c_transcribedText].
    destruct (truthy (transcribedText (component p))); [|reflexivity].
    unfold discardText, on_app, saveToHistory. cbn [component snapshot c_transcribedText].
    rewrite H.
    destruct (negb _ || negb _ || _); reflexivity.
Qed.

Lemma error_report_is_status : forall provider e s,
  is_status_text (transcribedText (on_transcription_error provider e s)) = true.
Proof.
  intros provider e s. unfold on_transcription_error.
  destruct (is_auth_message (error_message e)).
  - reflexivity.
  - change (is_status_text ((js "Fehler" ++ js ": ") ++ error_message e) = true).
    unfold is_status_text. rewrite <- app_assoc, startsWith_prefix. reflexivity.
Qed.

(** X13.  What the recorder writes into the buffer as a message is
    never copied and never kept: after a failed transcription (every
    thrown value, classified as a key error or not) and after a refused
    microphone, the copy button changes nothing, and the discard button
    leaves the history and the local store as they were. *)
Theorem messages_not_copied_nor_kept : forall provider e p written now_id now_ts,
  (operate (CopyClicked written) (on_app (on_transcription_error provider e) p)
   = on_app (on_transcription_error provider e) p
   /\ history (component (operate (DiscardClicked now_id now_ts)
                            (on_app (on_transcription_error provider e) p)))
      = history (component p)
   /\ stored_transcript_history
        (localStorage (component (operate (DiscardClicked now_id now_ts)
                                    (on_app (on_transcription_error provider e) p))))
      = stored_transcript_history (localStorage (component p)))
  /\ (operate (CopyClicked written) (on_app startRecording_denied p)
      = on_app startRecording_denied p
      /\ history (component (operate (DiscardClicked now_id now_ts)
                               (on_app startRecording_denied p)))
         = history (component p)
      /\ localStorage (component (operate (DiscardClicked now_id now_ts)
                                    (on_app startRecording_denied p)))
         = localStorage (component p)).
Proof.
  intros provider e p written now_id now_ts. split.
  - destruct (status_text_ignored (on_app (on_transcription_error provider e) p)
                written now_id now_ts) as (H1 & H2 & H3).
    { unfold on_app. cbn [component]. apply error_report_is_status. }
    split_all.
    + exact H1.
    + rewrite H2. unfold on_app. cbn [component]. unfold on_transcription_error.
      destruct (is_auth_message (error_message e)); reflexivity.
    + rewrite H3. unfold on_app. cbn [component]. unfold on_transcription_error.
      destruct (is_auth_message (error_message e)); reflexivity.
  - destruct (status_text_ignored (on_app startRecording_denied p)
                written now_id now_ts) as (H1 & H2 & H3).
    { reflexivity. }
    split_all.
    + exact H1.
    + rewrite H2. reflexivity.
    + rewrite H3. reflexivity.
Qed.

(** ** Invariants of the component *)

Lemma spread_all_fields : forall d c, spread d (all_fields c) = c.
Proof. intros d []; reflexivity. Qed.

Lemma load_stored_configs : forall g cs h,
  load_providerConfigs g
    {| stored_provider_configs := Some cs; stored_transcript_history := h |} = cs.
Proof.
  intros g [] h. unfold load_providerConfigs. cbn.
  now rewrite !spread_all_fields.
Qed.

Lemma updateProviderConfig_persisted : forall g p u s,
  configs_persisted g (updateProviderConfig p u s).
Proof.
  intros g p u s. unfold configs_persisted, updateProviderConfig.
  cbn [localStorage providerConfigs set_localStorage set_providerConfigs].
  apply load_stored_configs.
Qed.

Lemma configs_persisted_frame : forall g s s',
  localStorage s' = localStorage s -> providerConfigs s' = providerConfigs s ->
  configs_persisted g s -> configs_persisted g s'.
Proof.
  unfold configs_persisted. intros g s s' -> ->. trivial.
Qed.

Lemma fetchModelsForProvider_persisted : forall g configs provider reply s,
  configs_persisted g s ->
  configs_persisted g (fetchModelsForProvider configs provider reply s).
Proof.
  intros g configs provider reply s H. unfold fetchModelsForProvider.
  destruct (negb _ || _); [exact H|].
  destruct (listed_models provider reply); apply updateProviderConfig_persisted.
Qed.

Lemma validateProviderApiKey_persisted : forall g configs provider key probe catalog s,
  configs_persisted g (validateProviderApiKey configs provider key probe catalog s).
Proof.
  intros g configs provider key probe catalog s. unfold validateProviderApiKey.
  destruct (negb _ || _); [apply updateProviderConfig_persisted|].
  destruct probe as [|[]].
  - apply updateProviderConfig_persisted.
  - apply fetchModelsForProvider_persisted, updateProviderConfig_persisted.
  - apply updateProviderConfig_persisted.
Qed.

Lemma on_transcription_error_persisted : forall g provider e s,
  configs_persisted g s -> configs_persisted g (on_transcription_error provider e s).
Proof.
  intros g provider e s H. unfold on_transcription_error.
  destruct (is_auth_message (error_message e)).
  - apply updateProviderConfig_persisted.
  - exact H.
Qed.

Ltac keep_registry H :=
  first [ exact H
        | refine (configs_persisted_frame _ _ _ _ _ H); reflexivity ].

Lemma run_onstop_persisted : forall g h s,
  configs_persisted g s -> configs_persisted g (run_onstop h s).
Proof.
  intros g h s H. destruct h as [c|]; cbn [run_onstop].
  - unfold transcribeAudio_begin. destruct (negb _); keep_registry H.
  - unfold transcribeAudioFromHotkey_begin. destruct (negb _); keep_registry H.
Qed.

Lemma stop_and_clear_persisted : forall g index s,
  configs_persisted g s -> configs_persisted g (stop_and_clear index s).
Proof.
  intros g index s H. unfold stop_and_clear.
  destruct (nth_error (recorders s) index) as [r|]; [|keep_registry H].
  destruct (recording r); [|keep_registry H].
  apply run_onstop_persisted. keep_registry H.
Qed.

Lemma settle_persisted : forall g s (body : App -> App),
  (forall s0, configs_persisted g s0 -> configs_persisted g (body s0)) ->
  configs_persisted g s -> configs_persisted g (set_isTranscribing false (body s)).
Proof.
  intros g s body Hb H.
  refine (configs_persisted_frame _ _ _ _ _ (Hb s H)); reflexivity.
Qed.

Lemma handle_persisted : forall g now e s,
  configs_persisted g s -> configs_persisted g (handle now e s).
Proof.
  intros g now e s H. destruct e; cbn [handle].
  - destruct (isTranscribing s); [exact H|].
    destruct (isRecording s).
    + unfold stopRecording. destruct (mediaRecorderRef s); [|exact H].
      now apply stop_and_clear_persisted.
    + unfold startRecording. destruct (negb _); keep_registry H.
  - unfold hotkeyCallback. destruct (_ <? _); [exact H|].
    cbn [isRecordingRef apiKeyRef isTranscribingRef transcribedTextRef
         set_windowShown set_lastHotkeyTimeRef mediaRecorderRef].
    destruct (isRecordingRef s).
    + destruct (mediaRecorderRef s); [|keep_registry H].
      apply stop_and_clear_persisted. keep_registry H.
    + destruct (truthy (apiKeyRef s) && negb (isTranscribingRef s));
        keep_registry H.
  - destruct (pendingMicrophone s) as [|w rest]; [exact H|].
    destruct w, granted; keep_registry H.
  - destruct (pendingTranscription s) as [|w rest]; [exact H|].
    assert (H0 : configs_persisted g (set_pendingTranscription rest s))
      by keep_registry H.
    destruct w as [c|k p config].
    + unfold transcribeAudio_settle.
      refine (configs_persisted_frame _ _ _ _ _ _);
        [reflexivity | reflexivity |].
      destruct (transcribeWithProvider _ _ reply) as [transcript|e].
      * destruct (is_no_speech transcript).
        -- destruct (negb (truthy (c_transcribedText c))); destruct reply;
             keep_registry H.
        -- unfold insertTextAtCursor, setSelectionRange.
           cbn [textareaRef set_cursorPositionRef set_transcribedText].
           match goal with |- context [match ?b with Some _ => _ | None => _ end] =>
             destruct b end; destruct reply; keep_registry H.
      * apply on_transcription_error_persisted. destruct reply; keep_registry H.
    + unfold transcribeAudioFromHotkey_settle.
      refine (configs_persisted_frame _ _ _ _ _ _);
        [reflexivity | reflexivity |].
      destruct (transcribeWithProvider _ _ reply) as [transcript|e].
      * destruct (is_no_speech transcript).
        -- match goal with |- context [if ?b then _ else _] => destruct b end;
             destruct reply; keep_registry H.
        -- unfold setSelectionRange.
           cbn [textareaRef set_cursorPositionRef set_transcribedText].
           match goal with |- context [match ?b with Some _ => _ | None => _ end] =>
             destruct b end; destruct reply; keep_registry H.
      * apply on_transcription_error_persisted. destruct reply; keep_registry H.
  - cbn. destruct (textareaRef s); keep_registry H.
Qed.

Lemma commit_persisted : forall g s,
  configs_persisted g s -> configs_persisted g (commit s).
Proof.
  intros g s H. unfold commit, refreshStartRecording.
  destruct (str_eqb _ _ && str_eqb _ _); keep_registry H.
Qed.

(** X14.  The provider configurations in the local store are those of
    the state, so a restart reads back every key, key status, model
    selection and model list as it is: at the first start, after every
    trace of recorder events, and after each operation of the registry
    (a typed key, a validation, a model fetch, a model selection),
    whatever the state was before. *)
Theorem provider_configs_read_back : forall g trace s,
  configs_persisted g s ->
  configs_persisted g (run trace s)
  /\ (forall provider key, configs_persisted g (saveProviderApiKey provider key s))
  /\ (forall configs provider key probe catalog,
        configs_persisted g
          (validateProviderApiKey configs provider key probe catalog s))
  /\ (forall configs provider reply,
        configs_persisted g (fetchModelsForProvider configs provider reply s))
  /\ (forall c index, configs_persisted g (selectModel c index s)).
Proof.
  intros g trace s H. split_all.
  - revert s H. induction trace as [|te trace IH]; intros s H; [exact H|].
    simpl. apply IH. unfold step. now apply commit_persisted, handle_persisted.
  - intros. apply updateProviderConfig_persisted.
  - intros. apply validateProviderApiKey_persisted.
  - intros. now apply fetchModelsForProvider_persisted.
  - intros c index. unfold selectModel.
    destruct (nth_error _ index); [apply updateProviderConfig_persisted | exact H].
Qed.

Lemma provider_configs_read_back_witness :
  configs_persisted None initialApp
  /\ configs_persisted None (run BUTTON_RECORDING geminiApp).
Proof.
  assert (H : configs_persisted None initialApp) by reflexivity.
  split; [exact H|].
  assert (G : configs_persisted None geminiApp).
  { unfold configs_persisted. vm_compute. reflexivity. }
  exact (proj1 (provider_configs_read_back None BUTTON_RECORDING geminiApp G)).
Defined.

Lemma settings_kept_refl : forall s, settings_kept s s.
Proof.
  intro s. unfold settings_kept, config_kept. split_all; try reflexivity.
  intro q. split_all; try reflexivity. now left.
Qed.

Lemma settings_kept_trans : forall a b c,
  settings_kept a b -> settings_kept b c -> settings_kept a c.
Proof.
  intros a b c (H1 & H2 & H3 & H4 & H5 & H6) (K1 & K2 & K3 & K4 & K5 & K6).
  unfold settings_kept. split_all; try congruence.
  intro q. destruct (H6 q) as (A1 & A2 & A3 & A4 & A5).
  destruct (K6 q) as (B1 & B2 & B3 & B4 & B5).
  unfold config_kept. split_all; try congruence.
  destruct B5 as [B5|B5]; [|now right].
  destruct A5 as [A5|A5]; [left | right]; congruence.
Qed.

Lemma provider_eqb_eq : forall p q, provider_eqb p q = true -> p = q.
Proof. intros [] [] H; try reflexivity; discriminate H. Qed.

Lemma on_transcription_error_settings : forall provider e s,
  settings_kept s (on_transcription_error provider e s).
Proof.
  intros provider e s. unfold on_transcription_error.
  destruct (is_auth_message (error_message e)); [|exact (settings_kept_refl s)].
  unfold settings_kept. split_all; try reflexivity.
  intro q. rewrite updateProviderConfig_config.
  destruct (provider_eqb provider q) eqn:E.
  - apply provider_eqb_eq in E. subst q.
    unfold config_kept. split_all; try reflexivity. now right.
  - unfold config_kept. split_all; try reflexivity. now left.
Qed.

Ltac kept s :=
  first [ exact (settings_kept_refl s)
        | match goal with
          | |- settings_kept _ (set_isTranscribing false
                                  (on_transcription_error ?p ?e ?x)) =>
              exact (on_transcription_error_settings p e x)
          end ].

Lemma run_onstop_settings : forall h s, settings_kept s (run_onstop h s).
Proof.
  intros h s. destruct h as [c|]; cbn [run_onstop].
  - unfold transcribeAudio_begin. destruct (negb _); kept s.
  - unfold transcribeAudioFromHotkey_begin. destruct (negb _); kept s.
Qed.

Lemma stop_and_clear_settings : forall index s,
  settings_kept s (stop_and_clear index s).
Proof.
  intros index s. unfold stop_and_clear.
  destruct (nth_error (recorders s) index) as [r|]; [|kept s].
  destruct (recording r); [|kept s].
  exact (run_onstop_settings (onstop r)
           (s |> set_recorders (mark_stopped (recorders s) index)
              |> set_isRecording false)).
Qed.

Lemma handle_settings : forall now e s, settings_kept s (handle now e s).
Proof.
  intros now e s. destruct e; cbn [handle].
  - destruct (isTranscribing s); [kept s|].
    destruct (isRecording s).
    + unfold stopRecording. destruct (mediaRecorderRef s); [|kept s].
      apply stop_and_clear_settings.
    + unfold startRecording. destruct (negb _); kept s.
  - unfold hotkeyCallback. destruct (_ <? _); [kept s|].
    cbn [isRecordingRef apiKeyRef isTranscribingRef transcribedTextRef
         set_windowShown set_lastHotkeyTimeRef mediaRecorderRef].
    destruct (isRecordingRef s).
    + destruct (mediaRecorderRef s) as [index|]; [|kept s].
      exact (stop_and_clear_settings index
               (set_windowShown true (set_lastHotkeyTimeRef now s))).
    + destruct (truthy (apiKeyRef s) && negb (isTranscribingRef s)); kept s.
  - destruct (pendingMicrophone s) as [|w rest]; [kept s|].
    destruct w, granted; kept s.
  - destruct (pendingTranscription s) as [|w rest]; [kept s|].
    destruct w as [c|k p config].
    + unfold transcribeAudio_settle.
      destruct (transcribeWithProvider _ _ reply) as [transcript|e].
      * destruct (is_no_speech transcript).
        -- destruct (negb (truthy (c_transcribedText c))); destruct reply; kept s.
        -- unfold insertTextAtCursor, setSelectionRange.
           cbn [textareaRef set_cursorPositionRef set_transcribedText].
           match goal with |- context [match ?b with Some _ => _ | None => _ end] =>
             destruct b end; destruct reply; kept s.
      * destruct reply; kept s.
    + unfold transcribeAudioFromHotkey_settle.
      destruct (transcribeWithProvider _ _ reply) as [transcript|e].
      * destruct (is_no_speech transcript).
        -- match goal with |- context [if ?b then _ else _] => destruct b end;
             destruct reply; kept s.
        -- unfold setSelectionRange.
           cbn [textareaRef set_cursorPositionRef set_transcribedText].
           match goal with |- context [match ?b with Some _ => _ | None => _ end] =>
             destruct b end; destruct reply; kept s.
      * destruct reply; kept s.
  - cbn. destruct (textareaRef s); kept s.
Qed.

Lemma step_settings : forall te s, settings_kept s (step te s).
Proof.
  intros te s. apply settings_kept_trans with (handle (fst te) (snd te) s).
  - apply handle_settings.
  - unfold step, commit, refreshStartRecording.
    destruct (str_eqb _ _ && str_eqb _ _);
      exact (settings_kept_refl (handle (fst te) (snd te) s)).
Qed.

(** X15.  No trace of recorder events (clicks on the record button,
    hotkey presses, microphone and provider answers, typing) touches the
    history, the history settings, the stored history or the provider
    selection, and for every provider it leaves the key, the selected
    model, the model list and the loading flag as they were; the only
    thing it can do to a configuration is to set the key status to
    invalid. *)
Theorem recorder_events_keep_settings : forall trace s,
  settings_kept s (run trace s).
Proof.
  intros trace s.
  assert (G : forall s0, settings_kept s0 s -> settings_kept s0 (run trace s)).
  { revert s. induction trace as [|te trace IH]; intros s s0 H; [exact H|].
    simpl. apply IH. apply settings_kept_trans with s; [exact H|].
    apply step_settings. }
  apply G, settings_kept_refl.
Qed.

(** ** Outcomes of the registry *)

Lemma fetchModelsForProvider_requests : forall configs provider reply s,
  10 <= jslength (apiKey (config_of configs provider)) ->
  requests (fetchModelsForProvider configs provider reply s)
  = match provider with
    | gemini => requests s ++ [GetModels gemini (apiKey (config_of configs gemini))]
    | _ => requests s
    end.
Proof.
  intros configs provider reply s H. unfold fetchModelsForProvider.
  rewrite long_key_passes by exact H.
  destruct (listed_models provider reply); destruct provider; reflexivity.
Qed.

(** What a model fetch that is not refused at the entry leaves behind. *)
Lemma fetchModelsForProvider_effect : forall configs provider reply s,
  10 <= jslength (apiKey (config_of configs provider)) ->
  isLoadingModels
    (config_of (providerConfigs (fetchModelsForProvider configs provider reply s))
       provider) = false
  /\ apiKeyStatus
       (config_of (providerConfigs (fetchModelsForProvider configs provider reply s))
          provider)
     = match provider, reply with
       | gemini, catalog_rejected
       | gemini, catalog_response true body_rejected =>
           apiKeyStatus (config_of (providerConfigs s) provider)
       | _, _ => valid
       end
  /\ requests (fetchModelsForProvider configs provider reply s)
     = match provider with
       | gemini => requests s ++ [GetModels gemini (apiKey (config_of configs gemini))]
       | _ => requests s
       end
  /\ apiKey
       (config_of (providerConfigs (fetchModelsForProvider configs provider reply s))
          provider)
     = apiKey (config_of (providerConfigs s) provider)
  /\ selectedModel
       (config_of (providerConfigs (fetchModelsForProvider configs provider reply s))
          provider)
     = selectedModel (config_of (providerConfigs s) provider).
Proof.
  intros configs provider reply s H.
  rewrite (fetchModelsForProvider_config configs provider reply s H).
  rewrite (fetchModelsForProvider_requests configs provider reply s H).
  split_all; try reflexivity.
  - destruct (listed_models provider reply); reflexivity.
  - destruct provider; [|reflexivity|reflexivity].
    destruct reply as [|[] [|data_models]]; try reflexivity.
    cbn [listed_models].
    destruct (0 <? _); reflexivity.
  - destruct (listed_models provider reply); reflexivity.
  - destruct (listed_models provider reply); reflexivity.
Qed.

(** X16.  A model fetch that passes the length check always ends with
    the loading flag off, and it marks the key valid unless the request
    or the parsing of its body throws: for OpenAI and Mistral no request
    is sent at all, and for Gemini a response with an error status
    counts like a success.  Gemini is asked once, with the key of the
    render that the callback closes over; key and selected model are
    not touched. *)
Theorem fetchModelsForProvider_settles : forall configs provider reply s,
  10 <= jslength (apiKey (config_of configs provider)) ->
  isLoadingModels
    (config_of (providerConfigs (fetchModelsForProvider configs provider reply s))
       provider) = false
  /\ apiKeyStatus
       (config_of (providerConfigs (fetchModelsForProvider configs provider reply s))
          provider)
     = match provider, reply with
       | gemini, catalog_rejected
       | gemini, catalog_response true body_rejected =>
           apiKeyStatus (config_of (providerConfigs s) provider)
       | _, _ => valid
       end
  /\ requests (fetchModelsForProvider configs provider reply s)
     = match provider with
       | gemini => requests s ++ [GetModels gemini (apiKey (config_of configs gemini))]
       | _ => requests s
       end
  /\ apiKey
       (config_of (providerConfigs (fetchModelsForProvider configs provider reply s))
          provider)
     = apiKey (config_of (providerConfigs s) provider)
  /\ selectedModel
       (config_of (providerConfigs (fetchModelsForProvider configs provider reply s))
          provider)
     = selectedModel (config_of (providerConfigs s) provider).
Proof. exact fetchModelsForProvider_effect. Qed.

Lemma fetchModelsForProvider_settles_witness :
  apiKeyStatus
    (config_of (providerConfigs
                  (fetchModelsForProvider (providerConfigs geminiApp) gemini
                     (catalog_response false body_rejected) geminiApp))
       gemini)
  = valid.
Proof.
  refine (proj1 (proj2 (fetchModelsForProvider_settles (providerConfigs geminiApp)
                          gemini (catalog_response false body_rejected)
                          geminiApp _))).
  vm_compute. discriminate.
Defined.

(** X17.  A validation of a key of at least 10 code units sends one
    probe with the key it was called with, and the key status of the
    provider afterwards tells the answer to that probe, whatever key the
    state holds: valid for a success status, invalid for any other
    status and for a request that fails.  Only after a success the
    models are fetched, by the callback of the render the validation
    belongs to: without a success, and when the key of that render has
    fewer than 10 code units, the model list and the loading flag stay
    as they were and nothing but the probe is sent; otherwise the
    loading flag ends off, the list is the fetched one (or the list as
    it was when the fetch throws), and Gemini is asked for its
    catalogue with the key of that render.  The key, the selected model
    and the configurations of the other providers are not touched. *)
Theorem validateProviderApiKey_outcome :
  forall configs provider key probe catalog s,
  10 <= jslength key ->
  apiKeyStatus
    (config_of (providerConfigs
                  (validateProviderApiKey configs provider key probe catalog s))
       provider)
  = match probe with
    | probe_response true => valid
    | _ => invalid
    end
  /\ requests (validateProviderApiKey configs provider key probe catalog s)
     = requests s ++ GetModels provider key ::
       match probe with
       | probe_response true =>
           if 10 <=? jslength (apiKey (config_of configs provider)) then
             match provider with
             | gemini => [GetModels gemini (apiKey (config_of configs gemini))]
             | _ => []
             end
           else []
       | _ => []
       end
  /\ availableModels
       (config_of (providerConfigs
                     (validateProviderApiKey configs provider key probe catalog s))
          provider)
     = match probe with
       | probe_response true =>
           if 10 <=? jslength (apiKey (config_of configs provider)) then
             match listed_models provider catalog with
             | Some models => models
             | None => availableModels (config_of (providerConfigs s) provider)
             end
           else availableModels (config_of (providerConfigs s) provider)
       | _ => availableModels (config_of (providerConfigs s) provider)
       end
  /\ isLoadingModels
       (config_of (providerConfigs
                     (validateProviderApiKey configs provider key probe catalog s))
          provider)
     = match probe with
       | probe_response true =>
           if 10 <=? jslength (apiKey (config_of configs provider)) then false
           else isLoadingModels (config_of (providerConfigs s) provider)
       | _ => isLoadingModels (config_of (providerConfigs s) provider)
       end
  /\ apiKey
       (config_of (providerConfigs
                     (validateProviderApiKey configs provider key probe catalog s))
          provider)
     = apiKey (config_of (providerConfigs s) provider)
  /\ selectedModel
       (config_of (providerConfigs
                     (validateProviderApiKey configs provider key probe catalog s))
          provider)
     = selectedModel (config_of (providerConfigs s) provider)
  /\ (forall q, provider_eqb provider q = false ->
        config_of (providerConfigs
                     (validateProviderApiKey configs provider key probe catalog s)) q
        = config_of (providerConfigs s) q).
Proof.
  intros configs provider key probe catalog s H.
  unfold validateProviderApiKey. rewrite long_key_passes by exact H.
  assert (Refused : forall st,
            config_of (providerConfigs
                         (updateProviderConfig provider (upd_status st)
                            (send (GetModels provider key)
                               (updateProviderConfig provider
                                  (upd_status validating) s)))) provider
            = spread (spread (config_of (providerConfigs s) provider)
                        (upd_status validating)) (upd_status st)).
  { intro st. rewrite updateProviderConfig_config, provider_eqb_refl.
    cbn [providerConfigs send set_requests].
    rewrite updateProviderConfig_config, provider_eqb_refl. reflexivity. }
  assert (Others : forall st q, provider_eqb provider q = false ->
            config_of (providerConfigs
                         (updateProviderConfig provider (upd_status st)
                            (send (GetModels provider key)
                               (updateProviderConfig provider
                                  (upd_status validating) s)))) q
            = config_of (providerConfigs s) q).
  { intros st q E. rewrite updateProviderConfig_config, E.
    cbn [providerConfigs send set_requests].
    rewrite updateProviderConfig_config, E. reflexivity. }
  destruct probe as [|[]].
  - rewrite Refused. split_all; try reflexivity. apply Others.
  - set (s2 := updateProviderConfig provider (upd_status valid)
                 (send (GetModels provider key)
                    (updateProviderConfig provider (upd_status validating) s))).
    assert (C2 : config_of (providerConfigs s2) provider
                 = spread (spread (config_of (providerConfigs s) provider)
                             (upd_status validating)) (upd_status valid))
      by apply Refused.
    assert (R2 : requests s2 = requests s ++ [GetModels provider key]) by reflexivity.
    destruct (10 <=? jslength (apiKey (config_of configs provider))) eqn:L.
    + apply Z.leb_le in L.
      rewrite (fetchModelsForProvider_config configs provider catalog s2 L).
      rewrite (fetchModelsForProvider_requests configs provider catalog s2 L).
      rewrite C2, R2. split_all.
      * destruct (listed_models provider catalog); reflexivity.
      * destruct provider;
          [rewrite <- app_assoc; reflexivity | reflexivity | reflexivity].
      * destruct (listed_models provider catalog); reflexivity.
      * destruct (listed_models provider catalog); reflexivity.
      * destruct (listed_models provider catalog); reflexivity.
      * destruct (listed_models provider catalog); reflexivity.
      * intros q E.
        rewrite (fetchModelsForProvider_others configs provider catalog s2 q E).
        now apply Others.
    + apply Z.leb_gt in L.
      rewrite (fetchModelsForProvider_short configs provider catalog s2 L).
      rewrite C2, R2. split_all; try reflexivity. now apply Others.
  - rewrite Refused. split_all; try reflexivity. apply Others.
Qed.

Lemma validateProviderApiKey_outcome_witness :
  apiKeyStatus
    (config_of (providerConfigs
                  (validateProviderApiKey (providerConfigs openaiApp) openai SAMPLE_KEY
                     (probe_response false) catalog_rejected openaiApp))
       openai)
  = invalid.
Proof.
  refine (proj1 (validateProviderApiKey_outcome (providerConfigs openaiApp) openai
                   SAMPLE_KEY (probe_response false) catalog_rejected openaiApp _)).
  vm_compute. discriminate.
Defined.

(** ** Capture sessions *)

Lemma mark_stopped_other : forall rs index i,
  i <> index -> nth_error (mark_stopped rs index) i = nth_error rs i.
Proof.
  induction rs as [|r rs IH]; intros [|index] [|i] H; simpl; try reflexivity.
  - contradiction.
  - apply IH. congruence.
Qed.

Lemma mark_stopped_at : forall rs index,
  match nth_error (mark_stopped rs index) index with
  | Some r => recording r
  | None => false
  end = false.
Proof.
  induction rs as [|r rs IH]; intros [|index]; simpl; try reflexivity.
  apply IH.
Qed.

Lemma mark_stopped_idle : forall rs index,
  match nth_error rs index with
  | Some r => recording r = false
  | None => True
  end -> mark_stopped rs index = rs.
Proof.
  induction rs as [|r rs IH]; intros [|index]; simpl; intro H; try reflexivity.
  - destruct r as [h live]. simpl in H. now subst live.
  - f_equal. now apply IH.
Qed.

Lemma stop_and_clear_recorders : forall index s,
  recorders (stop_and_clear index s) = mark_stopped (recorders s) index
  /\ mediaRecorderRef (stop_and_clear index s) = mediaRecorderRef s
  /\ isRecording (stop_and_clear index s) = false.
Proof.
  intros index s. unfold stop_and_clear.
  destruct (nth_error (recorders s) index) as [r|] eqn:E.
  - destruct (recording r) eqn:L.
    + destruct (onstop r) as [c|]; cbn [run_onstop];
        unfold transcribeAudio_begin, transcribeAudioFromHotkey_begin;
        destruct (negb _); split_all; reflexivity.
    + split_all; try reflexivity. cbn. symmetry. apply mark_stopped_idle.
      now rewrite E.
  - split_all; try reflexivity. cbn. symmetry. apply mark_stopped_idle.
    now rewrite E.
Qed.

(** What one event does to the capture sessions: nothing, or it stops
    the recorder under the ref, or it adds a live recorder and puts it
    under the ref. *)
Lemma handle_recorders : forall now e s,
  (recorders (handle now e s) = recorders s
   /\ mediaRecorderRef (handle now e s) = mediaRecorderRef s
   /\ isRecording (handle now e s) = isRecording s)
  \/ (exists index,
        mediaRecorderRef s = Some index
        /\ recorders (handle now e s) = mark_stopped (recorders s) index
        /\ mediaRecorderRef (handle now e s) = Some index
        /\ isRecording (handle now e s) = false)
  \/ (exists h,
        recorders (handle now e s)
        = recorders s ++ [{| onstop := h; recording := true |}]
        /\ mediaRecorderRef (handle now e s) = Some (List.length (recorders s))
        /\ isRecording (handle now e s) = true).
Proof.
  intros now e s. destruct e; cbn [handle].
  - destruct (isTranscribing s); [left; now split_all|].
    destruct (isRecording s) eqn:R.
    + unfold stopRecording. destruct (mediaRecorderRef s) as [index|] eqn:M;
        [|left; now split_all].
      right. left. exists index.
      destruct (stop_and_clear_recorders index s) as (H1 & H2 & H3).
      rewrite H1, H2, H3, M. now split_all.
    + unfold startRecording. destruct (negb _); left; now split_all.
  - unfold hotkeyCallback. destruct (_ <? _); [left; now split_all|].
    cbn [isRecordingRef apiKeyRef isTranscribingRef transcribedTextRef
         set_windowShown set_lastHotkeyTimeRef mediaRecorderRef].
    destruct (isRecordingRef s).
    + destruct (mediaRecorderRef s) as [index|] eqn:M; [|left; now split_all].
      right. left. exists index.
      destruct (stop_and_clear_recorders index
                  (set_windowShown true (set_lastHotkeyTimeRef now s)))
        as (H1 & H2 & H3).
      rewrite H1, H2, H3. cbn [recorders mediaRecorderRef set_windowShown
                               set_lastHotkeyTimeRef].
      rewrite M. now split_all.
    + destruct (truthy (apiKeyRef s) && negb (isTranscribingRef s));
        left; now split_all.
  - destruct (pendingMicrophone s) as [|w rest]; [left; now split_all|].
    destruct w as [c|t], granted.
    + right. right. exists (onstop_transcribeAudio c). now split_all.
    + left. now split_all.
    + right. right. exists onstop_transcribeAudioFromHotkey. now split_all.
    + left. now split_all.
  - left. destruct (pendingTranscription s) as [|w rest]; [now split_all|].
    destruct w as [c|k p config].
    + unfold transcribeAudio_settle.
      destruct (transcribeWithProvider _ _ reply) as [transcript|e0].
      * destruct (is_no_speech transcript).
        -- destruct (negb (truthy (c_transcribedText c))); destruct reply;
             now split_all.
        -- unfold insertTextAtCursor, setSelectionRange.
           cbn [textareaRef set_cursorPositionRef set_transcribedText].
           match goal with |- context [match ?b with Some _ => _ | None => _ end] =>
             destruct b end; destruct reply; now split_all.
      * unfold on_transcription_error.
        destruct (is_auth_message (error_message e0)); destruct reply;
          now split_all.
    + unfold transcribeAudioFromHotkey_settle.
      destruct (transcribeWithProvider _ _ reply) as [transcript|e0].
      * destruct (is_no_speech transcript).
        -- match goal with |- context [if ?b then _ else _] => destruct b end;
             destruct reply; now split_all.
        -- unfold setSelectionRange.
           cbn [textareaRef set_cursorPositionRef set_transcribedText].
           match goal with |- context [match ?b with Some _ => _ | None => _ end] =>
             destruct b end; destruct reply; now split_all.
      * unfold on_transcription_error.
        destruct (is_auth_message (error_message e0)); destruct reply;
          now split_all.
  - left. cbn. destruct (textareaRef s); now split_all.
Qed.

Lemma step_recorders : forall te s,
  (recorders (step te s) = recorders s
   /\ mediaRecorderRef (step te s) = mediaRecorderRef s
   /\ isRecording (step te s) = isRecording s)
  \/ (exists index,
        mediaRecorderRef s = Some index
        /\ recorders (step te s) = mark_stopped (recorders s) index
        /\ mediaRecorderRef (step te s) = Some index
        /\ isRecording (step te s) = false)
  \/ (exists h,
        recorders (step te s)
        = recorders s ++ [{| onstop := h; recording := true |}]
        /\ mediaRecorderRef (step te s) = Some (List.length (recorders s))
        /\ isRecording (step te s) = true).
Proof.
  intros [now e] s. unfold step. cbn [fst snd].
  destruct (commit_fields (handle now e s))
    as (C1 & _ & _ & _ & _ & C2 & _ & _ & _ & _ & C3 & _).
  cbv zeta in C1, C2, C3. rewrite C1, C2, C3.
  apply handle_recorders.
Qed.

Lemma coordinated_step : forall te s, coordinated s -> coordinated (step te s).
Proof.
  intros te s [Hl Hr]. unfold coordinated, ref_recorder_live in *.
  destruct (step_recorders te s)
    as [(E1 & E2 & E3)|[(index & M & E1 & E2 & E3)|(h & E1 & E2 & E3)]].
  - rewrite E1, E2, E3. now split.
  - rewrite E1, E2, E3. rewrite M in Hr. split.
    + symmetry. apply mark_stopped_at.
    + now rewrite mark_stopped_length.
  - rewrite E1, E2, E3. split.
    + rewrite nth_error_app2 by lia. now rewrite Nat.sub_diag.
    + rewrite length_app. simpl. lia.
Qed.

Lemma coordinated_run : forall trace s, coordinated s -> coordinated (run trace s).
Proof.
  induction trace as [|te trace IH]; intros s H; [exact H|].
  simpl. now apply IH, coordinated_step.
Qed.

Lemma coordinated_initialApp : coordinated initialApp.
Proof. split; reflexivity. Qed.

(** X18.  At the first start and after every trace of events the
    recording flag tells exactly whether the recorder under
    [mediaRecorderRef] is live, and the ref holds the recorder that was
    created last; both hold after every trace from any state in which
    they hold. *)
Theorem recording_flag_tracks_ref : forall trace,
  coordinated (run trace initialApp)
  /\ (forall s, coordinated s -> coordinated (run trace s)).
Proof.
  intro trace. split.
  - apply coordinated_run, coordinated_initialApp.
  - apply coordinated_run.
Qed.

Lemma orphan_step : forall te s index r,
  coordinated s ->
  nth_error (recorders s) index = Some r ->
  mediaRecorderRef s <> Some index ->
  nth_error (recorders (step te s)) index = Some r
  /\ mediaRecorderRef (step te s) <> Some index.
Proof.
  intros te s index r [_ Hr] Hn Hm.
  assert (Hlt : (index < List.length (recorders s))%nat)
    by (apply nth_error_Some; congruence).
  destruct (step_recorders te s)
    as [(E1 & E2 & E3)|[(i & M & E1 & E2 & E3)|(h & E1 & E2 & E3)]].
  - rewrite E1, E2. now split.
  - rewrite E1, E2. split; [|congruence].
    rewrite mark_stopped_other; [exact Hn | congruence].
  - rewrite E1, E2. split.
    + rewrite nth_error_app1 by exact Hlt. exact Hn.
    + intro E. injection E as E. lia.
Qed.

(** X19.  A capture session that is no longer under
    [mediaRecorderRef] is out of reach: no trace of events stops it or
    changes it, and the ref never comes back to it.  A second session
    started while the first was waiting for the microphone leaves the
    first one live for good. *)
Theorem orphaned_session_never_stopped : forall trace s index r,
  coordinated s ->
  nth_error (recorders s) index = Some r ->
  mediaRecorderRef s <> Some index ->
  nth_error (recorders (run trace s)) index = Some r
  /\ mediaRecorderRef (run trace s) <> Some index.
Proof.
  induction trace as [|te trace IH]; intros s index r Hc Hn Hm; [now split|].
  simpl. destruct (orphan_step te s index r Hc Hn Hm) as [Hn' Hm'].
  apply IH; [now apply coordinated_step | exact Hn' | exact Hm'].
Qed.

Lemma orphaned_session_never_stopped_witness :
  nth_error (recorders (run STOP_AND_RESTART twoSessionsApp)) 0
  = Some {| onstop := onstop_transcribeAudio (startRecordingMemo geminiApp);
            recording := true |}.
Proof.
  refine (proj1 (orphaned_session_never_stopped STOP_AND_RESTART twoSessionsApp 0
                   {| onstop := onstop_transcribeAudio (startRecordingMemo geminiApp);
                      recording := true |} _ _ _)).
  - split; vm_compute; reflexivity.
  - vm_compute. reflexivity.
  - vm_compute. discriminate.
Defined.

Lemma recording_flag_tracks_ref_witness :
  coordinated (run STOP_AND_RESTART twoSessionsApp).
Proof.
  refine (proj2 (recording_flag_tracks_ref STOP_AND_RESTART) twoSessionsApp _).
  split; vm_compute; reflexivity.
Defined.

(** ** generate-update-manifest *)

Lemma find_first {A : Type} : forall (f : A -> bool) (l : list A) (x : A),
  find f l = Some x ->
  exists before after,
    l = before ++ x :: after /\ f x = true
    /\ forall y, In y before -> f y = false.
Proof.
  intros f. induction l as [|a l IH]; intros x H; [discriminate H|].
  simpl in H. destruct (f a) eqn:E.
  - injection H as ->. exists [], l. split_all; [reflexivity | exact E | intros y []].
  - destruct (IH x H) as (before & after & -> & Hx & Hb).
    exists (a :: before), after. split_all; [reflexivity | exact Hx |].
    intros y [<-|Hy]; [exact E | now apply Hb].
Qed.

Lemma endsWith_nonempty : forall f, endsWith f SETUP_SUFFIX = true -> truthy f = true.
Proof.
  intros [|c f] H; [|reflexivity]. cbv in H. discriminate H.
Qed.

Lemma find_at {A : Type} : forall (f : A -> bool) (before : list A) (x : A)
  (after : list A),
  f x = true -> (forall y, In y before -> f y = false) ->
  find f (before ++ x :: after) = Some x.
Proof.
  intros f. induction before as [|a before IH]; intros x after Hx Hb; simpl.
  - now rewrite Hx.
  - rewrite (Hb a (or_introl eq_refl)). apply IH; [exact Hx|].
    intros y Hy. apply Hb. now right.
Qed.

(** A name without surrogate code units can always be encoded. *)
Lemma encodeURIComponent_plain : forall f,
  (forall c, In c f -> is_high_surrogate c = false /\ is_low_surrogate c = false) ->
  encodeURIComponent f <> None.
Proof.
  induction f as [|c f IH]; intro H; [discriminate|].
  assert (Hf : encodeURIComponent f <> None).
  { apply IH. intros d Hd. apply H. now right. }
  destruct (H c (or_introl eq_refl)) as [Hh Hl].
  simpl. rewrite Hh, Hl.
  destruct (encodeURIComponent f); [|contradiction].
  destruct (is_unreserved c); discriminate.
Qed.

(** X20.  The manifest script gives up with exit code 1 exactly when
    the bundle directory is missing or holds no file whose name ends in
    [-setup.exe].  Otherwise it takes the first such file in the order
    of the listing: the manifest is written for that file, with the
    address made of the release prefix, the version, a slash and the
    encoded name, when the name can be encoded, and the script ends with
    the [URIError] of [encodeURIComponent] when it cannot.  A name
    without surrogate code units can be encoded, so for such an
    installer the manifest is written. *)
Theorem manifest_needs_installer : forall version nsisDir,
  (generateUpdateManifest version nsisDir = exit_1 <->
   match nsisDir with
   | Some files => forall f, In f files -> endsWith f SETUP_SUFFIX = false
   | None => True
   end)
  /\ (forall f url,
        generateUpdateManifest version nsisDir = manifest_written f url ->
        exists before after,
          nsisDir = Some (before ++ f :: after)
          /\ endsWith f SETUP_SUFFIX = true
          /\ (forall g, In g before -> endsWith g SETUP_SUFFIX = false)
          /\ exists name,
               encodeURIComponent f = Some name
               /\ url = RELEASES ++ version ++ js "/" ++ name)
  /\ (forall before f after,
        nsisDir = Some (before ++ f :: after) ->
        endsWith f SETUP_SUFFIX = true ->
        (forall g, In g before -> endsWith g SETUP_SUFFIX = false) ->
        generateUpdateManifest version nsisDir
        = match encodeURIComponent f with
          | Some name => manifest_written f (RELEASES ++ version ++ js "/" ++ name)
          | None => uri_error
          end
        /\ ((forall c, In c f ->
               is_high_surrogate c = false /\ is_low_surrogate c = false) ->
            exists name,
              encodeURIComponent f = Some name
              /\ generateUpdateManifest version nsisDir
                 = manifest_written f (RELEASES ++ version ++ js "/" ++ name))).
Proof.
  intros version nsisDir.
  assert (Found : forall before f after,
            nsisDir = Some (before ++ f :: after) ->
            endsWith f SETUP_SUFFIX = true ->
            (forall g, In g before -> endsWith g SETUP_SUFFIX = false) ->
            generateUpdateManifest version nsisDir
            = match encodeURIComponent f with
              | Some name =>
                  manifest_written f (RELEASES ++ version ++ js "/" ++ name)
              | None => uri_error
              end).
  { intros before f after -> Hf Hb. unfold generateUpdateManifest.
    rewrite (find_at (fun f => endsWith f SETUP_SUFFIX) before f after Hf Hb).
    now rewrite (endsWith_nonempty f Hf). }
  split_all.
  - unfold generateUpdateManifest. destruct nsisDir as [files|]; [|tauto].
    destruct (find (fun f => endsWith f SETUP_SUFFIX) files) as [f|] eqn:F.
    + destruct (find_first _ _ _ F) as (before & after & -> & Hf & Hb).
      rewrite (endsWith_nonempty f Hf). split.
      * destruct (encodeURIComponent f); discriminate.
      * intro H. specialize (H f (in_elt f before after)). congruence.
    + split; [|reflexivity]. intros _ f Hf. exact (find_none _ _ F f Hf).
  - unfold generateUpdateManifest. destruct nsisDir as [files|];
      [|intros f url H; discriminate H].
    destruct (find (fun f => endsWith f SETUP_SUFFIX) files) as [f|] eqn:F;
      [|intros f url H; discriminate H].
    destruct (find_first _ _ _ F) as (before & after & -> & Hf & Hb).
    rewrite (endsWith_nonempty f Hf). intros f0 url H.
    destruct (encodeURIComponent f) as [name|] eqn:E; [|discriminate H].
    injection H as <- <-. exists before, after. split_all; try assumption.
    + reflexivity.
    + exists name. now split.
  - intros before f after Hd Hf Hb. split; [now apply (Found before f after)|].
    intro Hp. rewrite (Found before f after Hd Hf Hb).
    pose proof (encodeURIComponent_plain f Hp) as Hn.
    destruct (encodeURIComponent f) as [name|]; [|contradiction].
    exists name. now split.
Qed.

Lemma is_unreserved_safe : forall c, is_unreserved c = true -> is_uri_safe c = true.
Proof. intros c H. unfold is_uri_safe. now rewrite H. Qed.

Lemma hex_digit_safe : forall n, (n < 16)%N -> is_uri_safe (hex_digit n) = true.
Proof.
  intros n H.
  destruct n as [|p]; [reflexivity|].
  do 4 (try destruct p as [p|p|]); try reflexivity; exfalso; lia.
Qed.

Lemma percent_safe : forall octet, Forall (fun c => is_uri_safe c = true) (percent octet).
Proof.
  intro octet. unfold percent. repeat constructor.
  - apply hex_digit_safe. apply N.mod_lt. discriminate.
  - apply hex_digit_safe. apply N.mod_lt. discriminate.
Qed.

Lemma escaped_safe : forall cp, Forall (fun c => is_uri_safe c = true) (escaped cp).
Proof.
  intro cp. unfold escaped. generalize (utf8 cp). intro octets.
  induction octets as [|o octets IH]; cbn [flat_map]; [constructor|].
  apply Forall_app. split; [apply percent_safe | exact IH].
Qed.

Lemma encodeURIComponent_safe : forall n s name,
  (List.length s <= n)%nat ->
  encodeURIComponent s = Some name ->
  Forall (fun c => is_uri_safe c = true) name.
Proof.
  induction n as [|n IH]; intros s name Hn H.
  - destruct s; [|simpl in Hn; lia]. injection H as <-. constructor.
  - destruct s as [|c s]; [injection H as <-; constructor|].
    simpl in Hn. simpl in H.
    destruct (is_unreserved c) eqn:U.
    + destruct (encodeURIComponent s) as [e|] eqn:E; [|discriminate H].
      injection H as <-. constructor; [now apply is_unreserved_safe|].
      apply (IH s e); [lia | exact E].
    + destruct (is_low_surrogate c); [discriminate H|].
      destruct (is_high_surrogate c).
      * destruct s as [|d s]; [discriminate H|].
        destruct (is_low_surrogate d); [|discriminate H].
        destruct (encodeURIComponent s) as [e|] eqn:E; [|discriminate H].
        injection H as <-. apply Forall_app. split; [apply escaped_safe|].
        apply (IH s e); [simpl in Hn; lia | exact E].
      * destruct (encodeURIComponent s) as [e|] eqn:E; [|discriminate H].
        injection H as <-. apply Forall_app. split; [apply escaped_safe|].
        apply (IH s e); [lia | exact E].
Qed.

Lemma encodeURIComponent_unreserved : forall s,
  Forall (fun c => is_unreserved c = true) s -> encodeURIComponent s = Some s.
Proof.
  induction s as [|c s IH]; intro H; [reflexivity|].
  inversion H as [|? ? Hc Hs]; subst. simpl. rewrite Hc, (IH Hs). reflexivity.
Qed.

(** X21.  The download address of the manifest ends in the encoded
    file name, and that name holds nothing but letters, digits, the
    marks [- _ . ! ~ * ' ( )] and percent signs: no space, slash,
    question mark or hash of a file name reaches the address.  A name
    made of unreserved characters is written as it is.  The version is
    put into the address as it stands in [package.json]. *)
Theorem manifest_url_is_encoded : forall version nsisDir f url,
  generateUpdateManifest version nsisDir = manifest_written f url ->
  exists name,
    url = RELEASES ++ version ++ js "/" ++ name
    /\ encodeURIComponent f = Some name
    /\ Forall (fun c => is_uri_safe c = true) name
    /\ (Forall (fun c => is_unreserved c = true) f -> name = f).
Proof.
  intros version nsisDir f url H. unfold generateUpdateManifest in H.
  destruct (match nsisDir with
            | Some files => find (fun f => endsWith f SETUP_SUFFIX) files
            | None => None
            end) as [f0|]; [|discriminate H].
  destruct (truthy f0); [|discriminate H].
  destruct (encodeURIComponent f0) as [name|] eqn:E; [|discriminate H].
  injection H as <- <-. exists name. split_all.
  - reflexivity.
  - exact E.
  - exact (encodeURIComponent_safe (List.length f0) f0 name (le_n _) E).
  - intro U. rewrite (encodeURIComponent_unreserved f0 U) in E. congruence.
Qed.

Lemma manifest_url_is_encoded_witness :
  exists name,
    RELEASES ++ js "0.1.6" ++ js "/" ++ js "Voice%20Typing_0.1.6_x64-setup.exe"
    = RELEASES ++ js "0.1.6" ++ js "/" ++ name
    /\ encodeURIComponent (js "Voice Typing_0.1.6_x64-setup.exe") = Some name
    /\ Forall (fun c => is_uri_safe c = true) name
    /\ (Forall (fun c => is_unreserved c = true)
          (js "Voice Typing_0.1.6_x64-setup.exe") ->
        name = js "Voice Typing_0.1.6_x64-setup.exe").
Proof.
  refine (manifest_url_is_encoded (js "0.1.6") (Some NSIS_LISTING)
            (js "Voice Typing_0.1.6_x64-setup.exe")
            (RELEASES ++ js "0.1.6" ++ js "/"
             ++ js "Voice%20Typing_0.1.6_x64-setup.exe") _).
  vm_compute. reflexivity.
Defined.

Lemma manifest_needs_installer_witness :
  generateUpdateManifest (js "0.1.6") (Some NSIS_LISTING)
  = manifest_written (js "Voice Typing_0.1.6_x64-setup.exe")
      (RELEASES ++ js "0.1.6" ++ js "/" ++ js "Voice%20Typing_0.1.6_x64-setup.exe").
Proof.
  refine (proj1 (proj2 (proj2 (manifest_needs_installer (js "0.1.6")
                                 (Some NSIS_LISTING)))
                   [js "Voice Typing_0.1.6_x64-setup.exe.sig"]
                   (js "Voice Typing_0.1.6_x64-setup.exe")
                   [js "Voice Typing_0.1.5_x64-setup.exe"] eq_refl _ _)).
  - vm_compute. reflexivity.
  - intros g [<-|[]]. vm_compute. reflexivity.
Defined.

(** ** The closure behind the record button *)

Lemma committed_memo_fresh : forall s,
  committed s ->
  str_eqb (c_apiKey (startRecordingMemo s)) (c_apiKey (snapshot s))
  && str_eqb (c_transcribedText (startRecordingMemo s)) (transcribedText s) = true.
Proof.
  intros s H. unfold committed, commit, refreshStartRecording in H.
  destruct (str_eqb (c_apiKey (startRecordingMemo s)) (c_apiKey (snapshot s))
            && str_eqb (c_transcribedText (startRecordingMemo s)) (transcribedText s))
    eqn:E; [reflexivity|].
  apply (f_equal startRecordingMemo) in H. cbn in H.
  rewrite <- H in E. cbn in E. now rewrite !str_eqb_refl in E.
Qed.

(** Selecting a model does not renew the memoised [startRecording]:
    neither of its two dependencies changes. *)
Lemma selectModel_keeps_memo : forall s index m,
  committed s ->
  nth_error (availableModels (config_of (providerConfigs s) (selectedProvider s)))
    index = Some m ->
  startRecordingMemo (commit (selectModel (snapshot s) index s))
  = startRecordingMemo s
  /\ selectedModel (currentConfigRef (commit (selectModel (snapshot s) index s)))
     = m_id m
  /\ isRecording (commit (selectModel (snapshot s) index s)) = isRecording s
  /\ isTranscribing (commit (selectModel (snapshot s) index s)) = isTranscribing s
  /\ pendingMicrophone (commit (selectModel (snapshot s) index s))
     = pendingMicrophone s
  /\ pendingTranscription (commit (selectModel (snapshot s) index s))
     = pendingTranscription s
  /\ requests (commit (selectModel (snapshot s) index s)) = requests s.
Proof.
  intros s index m Hc Hn.
  pose proof (committed_memo_fresh s Hc) as F.
  unfold selectModel. unfold c_currentConfig. cbn [snapshot c_providerConfigs c_selectedProvider].
  rewrite Hn.
  set (s0 := updateProviderConfig (selectedProvider s) (upd_selectedModel (m_id m)) s).
  assert (K : c_apiKey (snapshot s0) = c_apiKey (snapshot s)).
  { unfold c_apiKey, c_currentConfig. cbn [snapshot c_providerConfigs c_selectedProvider].
    unfold s0. rewrite updateProviderConfig_config.
    change (selectedProvider (updateProviderConfig (selectedProvider s)
                                (upd_selectedModel (m_id m)) s))
      with (selectedProvider s).
    rewrite provider_eqb_refl. reflexivity. }
  assert (R : refreshStartRecording s0 = s0).
  { unfold refreshStartRecording. rewrite K.
    change (startRecordingMemo s0) with (startRecordingMemo s).
    change (transcribedText s0) with (transcribedText s).
    now rewrite F. }
  unfold commit. rewrite R. split_all; try reflexivity.
  cbn [currentConfigRef syncRefs]. unfold c_currentConfig.
  cbn [snapshot c_providerConfigs c_selectedProvider].
  unfold s0. rewrite updateProviderConfig_config.
  change (selectedProvider (updateProviderConfig (selectedProvider s)
                              (upd_selectedModel (m_id m)) s))
    with (selectedProvider s).
  rewrite provider_eqb_refl. reflexivity.
Qed.

Ltac through_commit :=
  unfold step; cbn [fst snd];
  match goal with
  | |- context [commit ?x] =>
      let C1 := fresh "C" in let C2 := fresh "C" in let C6 := fresh "C" in
      let C7 := fresh "C" in let C8 := fresh "C" in let C11 := fresh "C" in
      let C12 := fresh "C" in
      destruct (commit_fields x)
        as (C1 & C2 & _ & _ & _ & C6 & C7 & C8 & _ & _ & C11 & C12);
      cbv zeta in C1, C2, C6, C7, C8, C11, C12;
      rewrite ?C1, ?C2, ?C6, ?C7, ?C8, ?C11, ?C12;
      clear C1 C2 C6 C7 C8 C11 C12
  end.

Lemma button_start : forall t s,
  isTranscribing s = false -> isRecording s = false ->
  truthy (c_apiKey (startRecordingMemo s)) = true ->
  pendingMicrophone (step (t, ClickRecordButton) s)
  = pendingMicrophone s ++ [mic_startRecording (startRecordingMemo s)]
  /\ isRecording (step (t, ClickRecordButton) s) = false
  /\ isTranscribing (step (t, ClickRecordButton) s) = false
  /\ recorders (step (t, ClickRecordButton) s) = recorders s
  /\ pendingTranscription (step (t, ClickRecordButton) s) = pendingTranscription s
  /\ requests (step (t, ClickRecordButton) s) = requests s.
Proof.
  intros t s H1 H2 H3. through_commit. cbn [handle]. rewrite H1, H2.
  unfold startRecording. rewrite H3.
  split_all; try reflexivity; assumption.
Qed.

Lemma button_granted : forall t s c rest,
  pendingMicrophone s = mic_startRecording c :: rest ->
  recorders (step (t, MicrophoneSettled true) s)
  = recorders s ++ [{| onstop := onstop_transcribeAudio c; recording := true |}]
  /\ mediaRecorderRef (step (t, MicrophoneSettled true) s)
     = Some (List.length (recorders s))
  /\ isRecording (step (t, MicrophoneSettled true) s) = true
  /\ isTranscribing (step (t, MicrophoneSettled true) s) = isTranscribing s
  /\ pendingTranscription (step (t, MicrophoneSettled true) s)
     = pendingTranscription s
  /\ requests (step (t, MicrophoneSettled true) s) = requests s.
Proof.
  intros t s c rest H. through_commit. cbn [handle]. rewrite H.
  split_all; reflexivity.
Qed.

Lemma button_stop : forall t s index c,
  isTranscribing s = false -> isRecording s = true ->
  mediaRecorderRef s = Some index ->
  nth_error (recorders s) index
  = Some {| onstop := onstop_transcribeAudio c; recording := true |} ->
  truthy (c_apiKey c) = true ->
  pendingTranscription (step (t, ClickRecordButton) s)
  = pendingTranscription s ++ [tx_transcribeAudio c]
  /\ requests (step (t, ClickRecordButton) s) = requests s.
Proof.
  intros t s index c H1 H2 H3 H4 H5. through_commit. cbn [handle].
  rewrite H1, H2. unfold stopRecording. rewrite H3.
  unfold stop_and_clear. rewrite H4. cbn [recording onstop run_onstop].
  unfold transcribeAudio_begin. rewrite H5.
  split_all; reflexivity.
Qed.

Lemma button_settle : forall t s c rest reply,
  pendingTranscription s = tx_transcribeAudio c :: rest ->
  reply <> encoding_rejected ->
  requests (step (t, ProviderSettled reply) s)
  = requests s ++ [transcription_request (c_selectedProvider c) (c_currentConfig c)].
Proof.
  intros t s c rest reply H Hr. through_commit. cbn [handle]. rewrite H.
  unfold transcribeAudio_settle.
  destruct (transcribeWithProvider _ _ reply) as [transcript|e].
  - destruct (is_no_speech transcript).
    + destruct (negb (truthy (c_transcribedText c))); destruct reply;
        try reflexivity; contradiction.
    + unfold insertTextAtCursor, setSelectionRange.
      cbn [textareaRef set_cursorPositionRef set_transcribedText].
      match goal with |- context [match ?b with Some _ => _ | None => _ end] =>
        destruct b end; destruct reply; try reflexivity; contradiction.
  - unfold on_transcription_error.
    destruct (is_auth_message (error_message e)); destruct reply;
      try reflexivity; contradiction.
Qed.

(** X22.  The record button does not see a model selection.  The
    memoised [startRecording] is renewed only when the key or the buffer
    changes, so after a model has been selected in a component at rest,
    a recording made with the button is sent with the provider, the
    model and the key of the render that the memo still holds, while
    the ref that the hotkey path reads already holds the new model. *)
Theorem button_ignores_model_selection :
  forall s index m t1 t2 t3 t4 reply,
  committed s -> at_rest s ->
  truthy (c_apiKey (startRecordingMemo s)) = true ->
  nth_error (availableModels (config_of (providerConfigs s) (selectedProvider s)))
    index = Some m ->
  reply <> encoding_rejected ->
  requests (run (button_round t1 t2 t3 t4 reply)
              (commit (selectModel (snapshot s) index s)))
  = requests s
    ++ [transcription_request (c_selectedProvider (startRecordingMemo s))
          (c_currentConfig (startRecordingMemo s))]
  /\ selectedModel (currentConfigRef (commit (selectModel (snapshot s) index s)))
     = m_id m.
Proof.
  intros s index m t1 t2 t3 t4 reply Hc (R1 & R2 & R3 & R4) Hk Hn Hr.
  destruct (selectModel_keeps_memo s index m Hc Hn)
    as (M1 & M2 & M3 & M4 & M5 & M6 & M7).
  split; [|exact M2].
  set (s1 := commit (selectModel (snapshot s) index s)) in *.
  unfold button_round. cbn [run].
  destruct (button_start t1 s1) as (A1 & A2 & A3 & A4 & A5 & A6);
    [congruence | congruence | rewrite M1; exact Hk |].
  set (s2 := step (t1, ClickRecordButton) s1) in *.
  rewrite M5, R3, M1 in A1. simpl in A1.
  destruct (button_granted t2 s2 (startRecordingMemo s) [] A1)
    as (B1 & B2 & B3 & B4 & B5 & B6).
  set (s3 := step (t2, MicrophoneSettled true) s2) in *.
  destruct (button_stop t3 s3 (List.length (recorders s2)) (startRecordingMemo s))
    as (D1 & D2); try assumption.
  - congruence.
  - rewrite B1, nth_error_app2 by lia. now rewrite Nat.sub_diag.
  - set (s4 := step (t3, ClickRecordButton) s3) in *.
    assert (P : pendingTranscription s4 = [tx_transcribeAudio (startRecordingMemo s)]).
    { rewrite D1, B5, A5, M6, R4. reflexivity. }
    rewrite (button_settle t4 s4 (startRecordingMemo s) [] reply P Hr).
    rewrite D2, B6, A6, M7. reflexivity.
Qed.

Lemma button_ignores_model_selection_witness :
  requests (run (button_round 0 100 4000 6000 (answer (js "hello")))
              (commit (selectModel (snapshot geminiApp) 1 geminiApp)))
  = requests geminiApp
    ++ [PostTranscription gemini (js "gemini-2.0-flash") SAMPLE_KEY]
  /\ selectedModel (currentConfigRef
                      (commit (selectModel (snapshot geminiApp) 1 geminiApp)))
     = js "gemini-2.5-flash".
Proof.
  refine (button_ignores_model_selection geminiApp 1
            (model "gemini-2.5-flash" "Gemini 2.5 Flash")
            0 100 4000 6000 (answer (js "hello")) _ _ _ _ _).
  - unfold committed. vm_compute. reflexivity.
  - unfold at_rest. split_all; vm_compute; reflexivity.
  - vm_compute. reflexivity.
  - vm_compute. reflexivity.
  - unfold answer. discriminate.
Defined.

(** ** The transcribing flag *)

Lemma snoc_nonempty {A : Type} : forall (l : list A) (x : A), l ++ [x] <> [].
Proof. intros [|a l] x; discriminate. Qed.

Ltac flag_pending H :=
  first [ exact H
        | exact (fun _ => snoc_nonempty _ _)
        | exact (fun D => False_ind _ (diff_false_true D)) ].

Lemma run_onstop_flag : forall h s,
  transcribing_is_pending s -> transcribing_is_pending (run_onstop h s).
Proof.
  intros h s H. unfold transcribing_is_pending in *.
  destruct h as [c|]; cbn [run_onstop].
  - unfold transcribeAudio_begin. destruct (negb _); flag_pending H.
  - unfold transcribeAudioFromHotkey_begin. destruct (negb _); flag_pending H.
Qed.

Lemma stop_and_clear_flag : forall index s,
  transcribing_is_pending s -> transcribing_is_pending (stop_and_clear index s).
Proof.
  intros index s H. unfold stop_and_clear.
  destruct (nth_error (recorders s) index) as [r|]; [|exact H].
  destruct (recording r); [|exact H].
  apply run_onstop_flag. exact H.
Qed.

Lemma handle_flag : forall now e s,
  transcribing_is_pending s -> transcribing_is_pending (handle now e s).
Proof.
  intros now e s H. destruct e; cbn [handle].
  - destruct (isTranscribing s) eqn:T; [exact H|].
    destruct (isRecording s).
    + unfold stopRecording. destruct (mediaRecorderRef s); [|exact H].
      now apply stop_and_clear_flag.
    + unfold startRecording. destruct (negb _); exact H.
  - unfold hotkeyCallback. destruct (_ <? _); [exact H|].
    cbn [isRecordingRef apiKeyRef isTranscribingRef transcribedTextRef
         set_windowShown set_lastHotkeyTimeRef mediaRecorderRef].
    destruct (isRecordingRef s).
    + destruct (mediaRecorderRef s) as [index|]; [|exact H].
      apply stop_and_clear_flag. exact H.
    + destruct (truthy (apiKeyRef s) && negb (isTranscribingRef s)); exact H.
  - destruct (pendingMicrophone s) as [|w rest]; [exact H|].
    destruct w, granted; exact H.
  - destruct (pendingTranscription s) as [|w rest] eqn:P; [exact H|].
    destruct w as [c|k p config]; intro D; discriminate D.
  - cbn. destruct (textareaRef s); exact H.
Qed.

Lemma step_flag : forall te s,
  transcribing_is_pending s -> transcribing_is_pending (step te s).
Proof.
  intros te s H. pose proof (handle_flag (fst te) (snd te) s H) as G.
  unfold transcribing_is_pending in *. unfold step.
  destruct (commit_fields (handle (fst te) (snd te) s))
    as (_ & C2 & _ & _ & _ & _ & _ & C8 & _).
  cbv zeta in C2, C8. rewrite C2, C8. exact G.
Qed.

(** X23.  The transcribing flag, which disables the record button and
    blocks the hotkey, is never set without a transcription run waiting
    for its provider: this holds at the first start and is kept by
    every trace of events, so an answer of the provider can always
    clear the flag. *)
Theorem transcribing_flag_has_run : forall trace,
  transcribing_is_pending (run trace initialApp)
  /\ (forall s, transcribing_is_pending s -> transcribing_is_pending (run trace s)).
Proof.
  assert (G : forall trace s,
            transcribing_is_pending s -> transcribing_is_pending (run trace s)).
  { induction trace as [|te trace IH]; intros s H; [exact H|].
    simpl. now apply IH, step_flag. }
  intro trace. split; [|apply G].
  apply G. intro D. discriminate D.
Qed.

Lemma transcribing_flag_has_run_witness :
  transcribing_is_pending (run STOP_AND_RESTART twoSessionsApp).
Proof.
  refine (proj2 (transcribing_flag_has_run STOP_AND_RESTART) twoSessionsApp _).
  intro D. vm_compute in D. discriminate D.
Defined.

(** ** Model lists *)

Lemma updateProviderConfig_listed : forall p u s,
  (forall models, u_availableModels u = Some models -> models <> []) ->
  models_listed s -> models_listed (updateProviderConfig p u s).
Proof.
  intros p u s Hu H q. rewrite updateProviderConfig_config.
  destruct (provider_eqb p q); [|apply H].
  unfold spread. cbn [availableModels].
  destruct (u_availableModels u) as [models|] eqn:E; cbn [pick].
  - now apply Hu.
  - apply H.
Qed.

Ltac plain_update :=
  apply updateProviderConfig_listed; [intros ? ?; discriminate|].

Lemma fetchModelsForProvider_listed : forall configs provider reply s,
  models_listed s -> models_listed (fetchModelsForProvider configs provider reply s).
Proof.
  intros configs provider reply s H. unfold fetchModelsForProvider.
  destruct (negb _ || _); [exact H|].
  assert (H1 : models_listed
                 (match provider with
                  | gemini =>
                      send (GetModels gemini (apiKey (config_of configs provider)))
                        (updateProviderConfig provider (upd_loading true) s)
                  | _ => updateProviderConfig provider (upd_loading true) s
                  end)).
  { assert (H0 : models_listed (updateProviderConfig provider (upd_loading true) s))
      by (plain_update; exact H).
    destruct provider; exact H0. }
  destruct (listed_models provider reply) as [models|] eqn:E.
  - apply updateProviderConfig_listed; [|exact H1].
    intros ms Ems. injection Ems as <-.
    exact (listed_models_nonempty provider reply models E).
  - plain_update. exact H1.
Qed.

Lemma validateProviderApiKey_listed : forall configs provider key probe catalog s,
  models_listed s ->
  models_listed (validateProviderApiKey configs provider key probe catalog s).
Proof.
  intros configs provider key probe catalog s H. unfold validateProviderApiKey.
  destruct (negb _ || _); [plain_update; exact H|].
  assert (H1 : models_listed
                 (send (GetModels provider key)
                    (updateProviderConfig provider (upd_status validating) s))).
  { assert (H0 : models_listed
                   (updateProviderConfig provider (upd_status validating) s))
      by (plain_update; exact H).
    exact H0. }
  destruct probe as [|[]].
  - plain_update. exact H1.
  - apply fetchModelsForProvider_listed. plain_update. exact H1.
  - plain_update. exact H1.
Qed.

Lemma occur_listed : forall o s, models_listed s -> models_listed (occur o s).
Proof.
  intros o s H. unfold occur.
  assert (C : forall x, models_listed x -> models_listed (commit x)).
  { intros x Hx q.
    destruct (commit_fields x) as (_ & _ & _ & _ & C5 & _).
    cbv zeta in C5. rewrite C5. apply Hx. }
  apply C. destruct o as [key|configs provider key probe catalog|reply|index|provider|te].
  - unfold saveProviderApiKey. plain_update. exact H.
  - now apply validateProviderApiKey_listed.
  - destruct (truthy (c_apiKey (snapshot s))); [|exact H].
    now apply fetchModelsForProvider_listed.
  - unfold selectModel. destruct (nth_error _ index); [|exact H].
    plain_update. exact H.
  - exact H.
  - intro q.
    destruct (handle_settings (fst te) (snd te) s) as (_ & _ & _ & _ & _ & K).
    destruct (K q) as (_ & _ & K3 & _). rewrite K3. apply H.
Qed.

Lemma reach_listed : forall os s, models_listed s -> models_listed (reach os s).
Proof.
  induction os as [|o os IH]; intros s H; [exact H|].
  simpl. now apply IH, occur_listed.
Qed.

Lemma initialApp_listed : models_listed initialApp.
Proof. intros []; discriminate. Qed.

(** C6 (counterexample).  A Gemini key is typed and accepted, the
    provider section is expanded while the catalogue offers one
    audio-capable model, and expanded once more while the request fails:
    after the failed lookup the list still is that one model,
    "gemini-2.5-pro"; it is not the default list. *)
Lemma failed_lookup_keeps_fetched_list :
  map m_id (availableModels
              (config_of (providerConfigs (reach FETCHED_THEN_FAILED initialApp))
                 gemini))
  = [js "gemini-2.5-pro"]
  /\ availableModels
       (config_of (providerConfigs (reach FETCHED_THEN_FAILED initialApp)) gemini)
     <> DEFAULT_MODELS gemini
  /\ apiKeyStatus
       (config_of (providerConfigs (reach FETCHED_THEN_FAILED initialApp)) gemini)
     = valid
  /\ isLoadingModels
       (config_of (providerConfigs (reach FETCHED_THEN_FAILED initialApp)) gemini)
     = false.
Proof.
  split_all; try (vm_compute; reflexivity).
  intro H. vm_compute in H. discriminate H.
Qed.

(** C6.  In every state that the component reaches from its first start
    (by typed keys, validations, model fetches from the settings view,
    model and provider selections and recorder events) no provider has
    an empty [availableModels], and the same holds from every state in
    which no list is empty; a single fetch never turns a non-empty list
    into an empty one.  For a key that passes the length test, the list
    after the fetch is the static list for OpenAI and for Mistral (the
    latter is the default list); for Gemini it is the default list when
    the response is not a success or no catalogue entry passes the
    filter, the non-empty list of the entries that pass otherwise, and
    the list as it was, not the default list, when the request or the
    parsing of its body throws.  The default lists and the static lists
    are not empty. *)
Theorem fetchModelsForProvider_never_empty :
  forall (configs : Configs) (provider : STTProvider) (reply : CatalogReply)
         (s : App),
    let s' := fetchModelsForProvider configs provider reply s in
    let before := availableModels (config_of (providerConfigs s) provider) in
    let after := availableModels (config_of (providerConfigs s') provider) in
    (forall os, models_listed (reach os initialApp))
    /\ (models_listed s -> forall os, models_listed (reach os s))
    /\ (before <> [] -> after <> [])
    /\ (10 <= jslength (apiKey (config_of configs provider)) ->
        (provider = openai -> after = OPENAI_STATIC_MODELS)
        /\ (provider = mistral -> after = DEFAULT_MODELS mistral)
        /\ (provider = gemini ->
            match reply with
            | catalog_rejected => after = before
            | catalog_response true body_rejected => after = before
            | catalog_response false _ => after = DEFAULT_MODELS gemini
            | catalog_response true (body_models data_models) =>
                (audio_models data_models = [] -> after = DEFAULT_MODELS gemini)
                /\ (audio_models data_models <> [] ->
                    after = map catalog_model (audio_models data_models)
                    /\ after <> [])
            end))
    /\ (forall p, DEFAULT_MODELS p <> [])
    /\ OPENAI_STATIC_MODELS <> [] /\ MISTRAL_STATIC_MODELS <> [].
Proof.
  intros configs provider reply s s' before after.
  assert (Hlong : 10 <= jslength (apiKey (config_of configs provider)) ->
                  after = match listed_models provider reply with
                          | Some models => models
                          | None => before
                          end).
  { intro H. unfold after, s'. rewrite fetchModelsForProvider_config by exact H.
    destruct (listed_models provider reply); reflexivity. }
  split; [intro os; apply reach_listed, initialApp_listed|].
  split; [intros H os; now apply reach_listed|].
  split.
  { intro Hb.
    destruct (Z.lt_ge_cases (jslength (apiKey (config_of configs provider))) 10)
      as [Hs|Hl].
    - unfold after, s'. now rewrite fetchModelsForProvider_short by exact Hs.
    - rewrite (Hlong Hl).
      destruct (listed_models provider reply) as [models|] eqn:E; [|exact Hb].
      eapply listed_models_nonempty; eassumption. }
  split.
  { intro Hl. specialize (Hlong Hl).
    split; [intros ->; exact Hlong|].
    split; [intros ->; exact Hlong|].
    intros ->. rewrite listed_models_gemini in Hlong.
    destruct reply as [|[] [|data_models]]; try exact Hlong.
    split.
    - intro E. now rewrite E in Hlong.
    - intro E. destruct (audio_models data_models) eqn:F; [congruence|].
      split; [exact Hlong|]. rewrite Hlong. discriminate. }
  split; [intros []; discriminate|].
  split; discriminate.
Qed.

Lemma fetchModelsForProvider_never_empty_witness :
  availableModels
    (config_of
       (providerConfigs
          (fetchModelsForProvider (providerConfigs geminiApp) gemini
             (catalog_response true (body_models (Some []))) geminiApp))
       gemini)
  = DEFAULT_MODELS gemini
  /\ models_listed (reach FETCHED_THEN_FAILED geminiApp).
Proof.
  destruct (fetchModelsForProvider_never_empty (providerConfigs geminiApp)
              gemini (catalog_response true (body_models (Some []))) geminiApp)
    as (_ & R & _ & H & _).
  assert (Hk : 10 <= jslength (apiKey (config_of (providerConfigs geminiApp) gemini)))
    by (vm_compute; discriminate).
  destruct (H Hk) as (_ & _ & Hg).
  split; [exact (proj1 (Hg eq_refl) eq_refl)|].
  apply R. intros []; vm_compute; discriminate.
Defined.
